(** * Patent-table merger: a shallow embedding and its properties

    This development embeds the merge engine of the repository
    ([merger2.c]: quote-aware line parsing, per-file tables with a chained
    hash index, eligibility computation, Fisher-Yates sampling and the
    wide-row writer) together with the CSV field writer and the ingestion
    loop of the union-merge variant ([code3.c]).

    Conventions of the embedding.
    - A C string is a [string]; [char] is [ascii]; a NULL [char*] cell is
      [None].
    - [int] is a [Z] kept in range by [to_int]; [size_t] and
      [unsigned long] are 64-bit ([to_size_t], [to_ulong]).
    - A heap array together with its element count is a [list].
    - Reading outside an array is undefined behaviour in C; the embedding
      leaves the array unchanged (or yields the neutral value) there, and
      the invariants below show that those cases are not reached.
    - Allocation succeeds ([calloc] of zero bytes returns a block, as in
      glibc), so the [exit(1)] after a failed [malloc] is never taken.
    - The definitions of each program are in a module of its name. *)

From Stdlib Require Import ZArith Lia Ascii String List Permutation DecimalString.
From stdpp Require Import base tactics option list strings.

Local Open Scope Z_scope.

(** ** Machine integers *)

Definition INT_MAX : Z := 2147483647.
Definition INT_MIN : Z := -2147483648.

(** Conversion to a 32-bit [int] (wraps, as gcc and clang do). *)
Definition to_int (z : Z) : Z :=
  let r := z mod 2 ^ 32 in
  if r <? 2 ^ 31 then r else r - 2 ^ 32.

(** Conversion to a 64-bit [size_t]. *)
Definition to_size_t (z : Z) : Z := z mod 2 ^ 64.

(** Conversion to a 64-bit [unsigned long]. *)
Definition to_ulong (z : Z) : Z := z mod 2 ^ 64.

(** ** Characters *)

Definition DQUOTE : ascii := "034"%char.
Definition COMMA : ascii := ","%char.
Definition TAB : ascii := "009"%char.
Definition LF : ascii := "010"%char.
Definition CR : ascii := "013"%char.
Definition NUL : ascii := "000"%char.

Definition char_code (c : ascii) : Z := Z.of_N (N_of_ascii c).

(** [isdigit] and [tolower] in the C locale. *)
Definition isdigit (c : ascii) : bool :=
  (48 <=? char_code c) && (char_code c <=? 57).

Definition tolower (c : ascii) : ascii :=
  if (65 <=? char_code c) && (char_code c <=? 90)
  then ascii_of_N (Z.to_N (char_code c + 32))
  else c.

(** ** C library *)

(** The C string held by a buffer: the bytes before the first NUL. *)
Fixpoint cstr (s : string) : string :=
  match s with
  | EmptyString => EmptyString
  | String c r => if Ascii.eqb c NUL then EmptyString else String c (cstr r)
  end.

Fixpoint strchr (s : string) (c : ascii) : bool :=
  match s with
  | EmptyString => false
  | String a r => Ascii.eqb a c || strchr r c
  end.

(** [strrchr s c]: the suffix of [s] that starts at the last [c]. *)
Fixpoint strrchr (s : string) (c : ascii) : option string :=
  match s with
  | EmptyString => None
  | String a r =>
      match strrchr r c with
      | Some t => Some t
      | None => if Ascii.eqb a c then Some s else None
      end
  end.

Fixpoint starts_with (needle hay : string) : bool :=
  match needle, hay with
  | EmptyString, _ => true
  | String _ _, EmptyString => false
  | String a n', String b h' => Ascii.eqb a b && starts_with n' h'
  end.

(** [strstr hay needle]: the suffix of [hay] at the first occurrence. *)
Fixpoint strstr (hay needle : string) : option string :=
  if starts_with needle hay then Some hay
  else match hay with
       | EmptyString => None
       | String _ r => strstr r needle
       end.

Fixpoint str_take (n : nat) (s : string) : string :=
  match n, s with
  | O, _ => EmptyString
  | _, EmptyString => EmptyString
  | S n', String c r => String c (str_take n' r)
  end.

Fixpoint str_drop (n : nat) (s : string) : string :=
  match n, s with
  | O, _ => s
  | _, EmptyString => EmptyString
  | S n', String _ r => str_drop n' r
  end.

(** [snprintf(buf, size, "%s", s)]: at most [size - 1] characters. *)
Definition snprintf_s (size : nat) (s : string) : string :=
  str_take (size - 1) s.

Definition str_snoc (s : string) (c : ascii) : string :=
  s +:+ String c EmptyString.

Definition str_is_empty (s : string) : bool :=
  match s with EmptyString => true | _ => false end.

Definition str_concat (l : list string) : string :=
  fold_right String.append EmptyString l.

(** [%d] *)
Definition print_int (z : Z) : string :=
  DecimalString.NilZero.string_of_int (Z.to_int z).

Definition is_space (c : ascii) : bool :=
  (char_code c =? 32) || ((9 <=? char_code c) && (char_code c <=? 13)).

Fixpoint atoi_digits (s : string) (acc : Z) : Z :=
  match s with
  | String c r => if isdigit c then atoi_digits r (acc * 10 + (char_code c - 48)) else acc
  | EmptyString => acc
  end.

(** [strtol] in base 10 gives the value of the digits when it fits a
    64-bit [long] and [LONG_MAX] or [LONG_MIN] when it does not. *)
Definition LONG_MAX : Z := 9223372036854775807.
Definition LONG_MIN : Z := -9223372036854775808.

Definition strtol_sat (z : Z) : Z := Z.max LONG_MIN (Z.min LONG_MAX z).

(** [atoi] is [(int) strtol(s, NULL, 10)]: blanks, an optional sign,
    decimal digits; the [long] is saturated, then converted to [int]. *)
Fixpoint atoi (s : string) : Z :=
  match s with
  | EmptyString => 0
  | String c r =>
      if is_space c then atoi r
      else if Ascii.eqb c "-" then to_int (strtol_sat (- atoi_digits r 0))
      else if Ascii.eqb c "+" then to_int (strtol_sat (atoi_digits r 0))
      else to_int (strtol_sat (atoi_digits s 0))
  end.

(** [fgets_buf room s]: the bytes one [fgets] call stores when [room]
    characters fit, and the unread rest of the stream. *)
Fixpoint fgets_buf (room : N) (s : string) : string * string :=
  match s with
  | EmptyString => (EmptyString, EmptyString)
  | String c r =>
      if (room =? 0)%N then (EmptyString, s)
      else if Ascii.eqb c LF then (String c EmptyString, r)
      else let '(l, t) := fgets_buf (N.pred room) r in (String c l, t)
  end.

(** [fgets(line, size, fp)]: [None] at end of file, otherwise the buffer
    viewed as a C string and the rest of the stream. *)
Definition fgets (size : N) (s : string) : option (string * string) :=
  match s with
  | EmptyString => None
  | _ => let '(l, t) := fgets_buf (N.pred size) s in Some (cstr l, t)
  end.

(** [getline]: a whole line with its LF, of any length. *)
Fixpoint getline_buf (s : string) : string * string :=
  match s with
  | EmptyString => (EmptyString, EmptyString)
  | String c r =>
      if Ascii.eqb c LF then (String c EmptyString, r)
      else let '(l, t) := getline_buf r in (String c l, t)
  end.

Definition getline (s : string) : option (string * string) :=
  match s with
  | EmptyString => None
  | _ => Some (getline_buf s)
  end.

(** ** Runs *)

(** A run either goes on with a value or has called [exit]. *)
Inductive result (A : Type) : Type :=
  | Ok (a : A)
  | Exit (code : Z).
Arguments Ok {A} a.
Arguments Exit {A} code.

Definition bind {A B : Type} (r : result A) (f : A -> result B) : result B :=
  match r with
  | Ok a => f a
  | Exit c => Exit c
  end.

Notation "x <- c1 ;; c2" := (bind c1 (fun x => c2))
  (at level 100, c1 at next level, right associativity).

(** The environment of a run: the readable files, the paths that can be
    opened for writing, and the values [rand()] returns. *)
Record World := mkWorld {
  file_content : string -> option string;
  can_write : string -> bool;
  rand : nat -> Z
}.


(** * merger2.c *)

Module Merger2.

(** ** String helpers *)

Fixpoint tolower_inplace (s : string) : string :=
  match s with
  | EmptyString => EmptyString
  | String c r => String (tolower c) (tolower_inplace r)
  end.

(** [trim_eol]: drop every trailing LF and CR. *)
Fixpoint trim_eol (s : string) : string :=
  match s with
  | EmptyString => EmptyString
  | String c r =>
      let r' := trim_eol r in
      if str_is_empty r' && (Ascii.eqb c LF || Ascii.eqb c CR)
      then EmptyString
      else String c r'
  end.

(** [file_stem]: the base name without directory and final extension,
    cut to [outsz - 1] characters (the non-Windows build). *)
Definition file_stem (path : string) (outsz : nat) : string :=
  let base :=
    match strrchr path "/"%char with
    | Some (String _ t) => t
    | _ => path
    end in
  let len :=
    match strrchr base "."%char with
    | Some dot => (String.length base - String.length dot)%nat
    | None => String.length base
    end in
  let len := if (outsz <=? len)%nat then (outsz - 1)%nat else len in
  str_take len base.

(** ** [parse_delim_line] *)

(** The scanning loop: [inQuotes] and the field buffer [buf] are the loop
    state, the result is the list of fields pushed, in order. The final
    [fields_push] after the loop emits the last buffer. *)
Fixpoint parse_loop (delim : ascii) (inQuotes : bool) (buf : string)
    (p : string) : list string :=
  match p with
  | EmptyString => [buf]
  | String c rest =>
      if inQuotes then
        if Ascii.eqb c DQUOTE then
          match rest with
          | String c1 rest' =>
              if Ascii.eqb c1 DQUOTE
              then parse_loop delim true (str_snoc buf DQUOTE) rest'
              else parse_loop delim false buf rest
          | EmptyString => parse_loop delim false buf rest
          end
        else parse_loop delim true (str_snoc buf c) rest
      else
        if Ascii.eqb c DQUOTE then parse_loop delim true buf rest
        else if Ascii.eqb c delim then buf :: parse_loop delim false EmptyString rest
        else parse_loop delim false (str_snoc buf c) rest
  end.

Definition parse_delim_line (line : string) (delim : ascii) : list string :=
  parse_loop delim false EmptyString line.

(** ** The chained hash map [HMap] *)

Record Entry := mkEntry { key : string; value : Z }.

(** [buckets] is the calloc'ed array of chains (head of the chain first),
    [nb] the bucket count stored beside it. *)
Record HMap := mkHMap { buckets : list (list Entry); nb : Z }.

Definition HASH_BUCKETS : Z := 200003.

Fixpoint djb2_loop (h : Z) (s : string) : Z :=
  match s with
  | EmptyString => h
  | String c r => djb2_loop (to_ulong (Z.shiftl h 5 + h + char_code c)) r
  end.

Definition djb2 (s : string) : Z := djb2_loop 5381 s.

Definition hmap_init (n : Z) : HMap :=
  {| buckets := replicate (Z.to_nat n) []; nb := n |}.

Definition bucket_of (m : HMap) (k : string) : nat :=
  Z.to_nat (djb2 k mod nb m).

Definition chain_at (m : HMap) (h : nat) : list Entry :=
  default [] (buckets m !! h).

Fixpoint chain_find (chain : list Entry) (k : string) : option Entry :=
  match chain with
  | [] => None
  | e :: rest => if String.eqb (key e) k then Some e else chain_find rest k
  end.

(** [e->value = value] on the first entry of the chain whose key is [k]. *)
Fixpoint chain_set (chain : list Entry) (k : string) (v : Z) : list Entry :=
  match chain with
  | [] => []
  | e :: rest =>
      if String.eqb (key e) k then mkEntry (key e) v :: rest
      else e :: chain_set rest k v
  end.

(** [own_copy] only decides who owns the key's memory. *)
Definition hmap_put (m : HMap) (k : string) (v : Z) (own_copy : bool) : HMap :=
  let h := bucket_of m k in
  match chain_find (chain_at m h) k with
  | Some _ => {| buckets := <[h := chain_set (chain_at m h) k v]> (buckets m); nb := nb m |}
  | None => {| buckets := <[h := mkEntry k v :: chain_at m h]> (buckets m); nb := nb m |}
  end.

Definition hmap_get (m : HMap) (k : string) : option Entry :=
  chain_find (chain_at m (bucket_of m k)) k.

(** The keys met by the double loop over buckets and chains. *)
Definition hmap_keys (m : HMap) : list string :=
  concat (map (map key) (buckets m)).

(** ** [FileStore]: one input table *)

Definition MAX_LINE_LEN : N := 65536.
Definition MERGE_SEP : string := " || ".
Definition OUTPUT_DELIM : ascii := COMMA.

(** [ncols] is the length of [cols] and [nrows] the length of [ids]. *)
Record FileStore := mkFileStore {
  path : string;
  delim : ascii;
  id_col : nat;
  is_claim : bool;
  claim_year : Z;
  cols : list string;
  n_nonid : nat;
  id_to_idx : HMap;
  ids : list string;
  cells : list (list (option string))
}.

Definition ncols (fs : FileStore) : nat := length (cols fs).
Definition nrows (fs : FileStore) : nat := length (ids fs).

Definition lower_name (s : string) : string :=
  tolower_inplace (snprintf_s 512 s).

Definition contains (hay needle : string) : bool :=
  match strstr hay needle with Some _ => true | None => false end.

(** First loop of [detect_id_col]. *)
Fixpoint detect_application_number (cs : list string) (i : nat) : option nat :=
  match cs with
  | [] => None
  | c :: rest =>
      if contains (lower_name c) "application_number" then Some i
      else detect_application_number rest (S i)
  end.

(** Second loop of [detect_id_col]; [best] is -1 until a fallback is seen. *)
Fixpoint detect_patent (cs : list string) (i : nat) (best : Z) : Z :=
  match cs with
  | [] => if negb (best =? -1) then best else 0
  | c :: rest =>
      let buf := lower_name c in
      if contains buf "patent" && (contains buf "number" || contains buf "id")
      then Z.of_nat i
      else if contains buf "app" && contains buf "number"
           then detect_patent rest (S i) (if best =? -1 then Z.of_nat i else best)
           else detect_patent rest (S i) best
  end.

Definition detect_id_col (cs : list string) : nat :=
  match detect_application_number cs 0 with
  | Some i => i
  | None => Z.to_nat (detect_patent cs 0 (-1))
  end.

(** The digit loop of [parse_claim_year_from_name]: at most [n] digits. *)
Fixpoint year_digits (n : nat) (p : string) (year : Z) : Z :=
  match n, p with
  | S n', String c r =>
      if isdigit c then year_digits n' r (year * 10 + (char_code c - 48))
      else year
  | _, _ => year
  end.

Definition parse_claim_year_from_name (pth : string) : Z :=
  let stem := tolower_inplace (file_stem pth 512) in
  match strstr stem "claims_" with
  | None => 0
  | Some p =>
      match str_drop 7 p with
      | EmptyString => 0
      | String c r =>
          if negb (isdigit c) then 0 else year_digits 4 (String c r) 0
      end
  end.

Definition filestore_init (pth : string) : FileStore :=
  {| path := pth; delim := COMMA; id_col := 0; is_claim := false;
     claim_year := 0; cols := []; n_nonid := 0;
     id_to_idx := hmap_init HASH_BUCKETS; ids := []; cells := [] |}.

Definition filestore_add_row (fs : FileStore) (id : string) : FileStore * Z :=
  let n := Z.of_nat (nrows fs) in
  ({| path := path fs; delim := delim fs; id_col := id_col fs;
      is_claim := is_claim fs; claim_year := claim_year fs;
      cols := cols fs; n_nonid := n_nonid fs;
      id_to_idx := hmap_put (id_to_idx fs) id (to_int n) false;
      ids := ids fs ++ [id];
      cells := cells fs ++ [replicate (n_nonid fs) None] |},
   to_int n).

Definition filestore_get_or_create (fs : FileStore) (id : string) : FileStore * Z :=
  match hmap_get (id_to_idx fs) id with
  | Some e => (fs, value e)
  | None => filestore_add_row fs id
  end.

Definition append_cell_merge (dst : option string) (src : string) : option string :=
  if str_is_empty src then dst
  else match dst with
       | None => Some src
       | Some d => Some (d +:+ MERGE_SEP +:+ src)
       end.

(** [append_cell_merge(&cells[idx][k], src)]. *)
Definition merge_into (cs : list (list (option string))) (idx : Z) (k : nat)
    (src : string) : list (list (option string)) :=
  if idx <? 0 then cs
  else alter (alter (fun dst => append_cell_merge dst src) k) (Z.to_nat idx) cs.

(** The inner loop over the fields of one data row: [i] is the field
    index, [k] counts the non-key fields seen so far. *)
Fixpoint merge_fields (idc nn : nat) (idx : Z) (fields : list string)
    (i k : nat) (cs : list (list (option string))) : list (list (option string)) :=
  match fields with
  | [] => cs
  | f :: rest =>
      if (i =? idc)%nat then merge_fields idc nn idx rest (S i) k cs
      else merge_fields idc nn idx rest (S i) (S k)
             (if (k <? nn)%nat then merge_into cs idx k f else cs)
  end.

Definition set_cells (fs : FileStore) (cs : list (list (option string))) : FileStore :=
  {| path := path fs; delim := delim fs; id_col := id_col fs;
     is_claim := is_claim fs; claim_year := claim_year fs;
     cols := cols fs; n_nonid := n_nonid fs;
     id_to_idx := id_to_idx fs; ids := ids fs; cells := cs |}.

(** One iteration of the data loop of [load_file] on the buffer [raw]. *)
Definition load_row (fs : FileStore) (raw : string) : FileStore :=
  let line := trim_eol raw in
  if str_is_empty line then fs
  else
    let rowFields := parse_delim_line line (delim fs) in
    if (length rowFields =? 0)%nat then fs
    else if (length rowFields <=? id_col fs)%nat then fs
    else
      let id := default EmptyString (rowFields !! id_col fs) in
      let '(fs1, idx) := filestore_get_or_create fs id in
      set_cells fs1
        (merge_fields (id_col fs) (n_nonid fs) idx rowFields 0 0 (cells fs1)).

(** [while (fgets(...)) body]: the loop of [load_file], with [fuel]
    bounding the number of iterations. *)
Fixpoint load_rows (fuel : nat) (s : string) (fs : FileStore) : FileStore :=
  match fuel with
  | O => fs
  | S fuel' =>
      match fgets MAX_LINE_LEN s with
      | None => fs
      | Some (raw, t) => load_rows fuel' t (load_row fs raw)
      end
  end.

(** The header part of [load_file]: delimiter, category, columns. *)
Definition load_header (fs : FileStore) (raw : string) : FileStore :=
  let line := trim_eol raw in
  let d := if strchr line TAB && negb (strchr line COMMA) then TAB else COMMA in
  let year := parse_claim_year_from_name (path fs) in
  let cs := parse_delim_line line d in
  {| path := path fs; delim := d; id_col := detect_id_col cs;
     is_claim := if 0 <? year then true else is_claim fs;
     claim_year := year; cols := cs;
     n_nonid := if (0 <? length cs)%nat then (length cs - 1)%nat else 0%nat;
     id_to_idx := id_to_idx fs; ids := ids fs; cells := cells fs |}.

(** [load_file]: [content] is what [fopen(path, "r")] gives access to,
    [None] when the file cannot be opened. *)
Definition load_file (content : option string) (fs : FileStore) : result FileStore :=
  match content with
  | None => Exit 1
  | Some data =>
      match fgets MAX_LINE_LEN data with
      | None => Ok fs
      | Some (raw, t) => Ok (load_rows (String.length t) t (load_header fs raw))
      end
  end.

(** ** [build_eligible_ids] *)

(** First loop: the union of the claims tables' keys and the flag. *)
Definition claims_step (st : HMap * bool) (fs : FileStore) : HMap * bool :=
  if is_claim fs
  then (fold_left (fun cu id => hmap_put cu id (-1) true) (ids fs) (fst st), true)
  else st.

Definition claims_scan (stores : list FileStore) : HMap * bool :=
  fold_left claims_step stores (hmap_init HASH_BUCKETS, false).

Definition nrows_at (stores : list FileStore) (b : Z) : nat :=
  match stores !! Z.to_nat b with
  | Some fs => nrows fs
  | None => 0%nat
  end.

(** Second loop: the index of the first smallest non-claims table. *)
Fixpoint find_base (stores rest : list FileStore) (i : nat) (baseIndex : Z) : Z :=
  match rest with
  | [] => baseIndex
  | fs :: rest' =>
      find_base stores rest' (S i)
        (if negb (is_claim fs)
            && ((baseIndex =? -1) || (nrows fs <? nrows_at stores baseIndex)%nat)
         then Z.of_nat i else baseIndex)
  end.

(** The inner loop that clears [ok]: the key must be in the index of
    every non-claims table other than the base. *)
Fixpoint in_other_primaries (rest : list FileStore) (i : nat) (baseIndex : Z)
    (id : string) : bool :=
  match rest with
  | [] => true
  | fs :: rest' =>
      if (Z.of_nat i =? baseIndex) || is_claim fs
      then in_other_primaries rest' (S i) baseIndex id
      else match hmap_get (id_to_idx fs) id with
           | None => false
           | Some _ => in_other_primaries rest' (S i) baseIndex id
           end
  end.

Definition eligible_test (stores : list FileStore) (baseIndex : Z)
    (claimsUnion : HMap) (have_claims : bool) (id : string) : bool :=
  in_other_primaries stores 0 baseIndex id
  && (if have_claims
      then match hmap_get claimsUnion id with Some _ => true | None => false end
      else true).

(** The keys pushed on [eligibleIDs], in push order. *)
Definition build_eligible_ids (stores : list FileStore) : list string :=
  let '(claimsUnion, have_claims) := claims_scan stores in
  let baseIndex := find_base stores stores 0 (-1) in
  if baseIndex =? -1 then
    if negb have_claims then [] else hmap_keys claimsUnion
  else
    match stores !! Z.to_nat baseIndex with
    | Some base => filter (fun id => eligible_test stores baseIndex claimsUnion have_claims id = true) (ids base)
    | None => []
    end.

(** ** [shuffle] *)

Definition swap (a : list string) (i j : nat) : list string :=
  match a !! i, a !! j with
  | Some x, Some y => <[j := x]> (<[i := y]> a)
  | _, _ => a
  end.

(** [rng k] is the value of the [k]-th call of [rand()] after [srand];
    iteration [i] draws [rng i]. C's [%] truncates ([Z.rem]).
    [shuffle_index] is the position [j] that iteration [i] swaps with. *)
Definition shuffle_index (rng : nat -> Z) (n i : nat) : nat :=
  let r := Z.rem (rng i) (to_int (Z.of_nat n - Z.of_nat i)) in
  Z.to_nat (to_size_t (Z.of_nat i + to_size_t r)).

Fixpoint shuffle_loop (rng : nat -> Z) (n : nat) (steps i : nat)
    (a : list string) : list string :=
  match steps with
  | O => a
  | S steps' => shuffle_loop rng n steps' (S i) (swap a i (shuffle_index rng n i))
  end.

Definition shuffle (rng : nat -> Z) (a : list string) (n : nat) : list string :=
  shuffle_loop rng n n 0 a.

(** ** [write_header] and [write_rows] *)

(** The loop over the columns of one file in [write_header]: the state is
    the text written so far and the set of used names. *)
Fixpoint header_cols (fs : FileStore) (stem : string) (cs : list string)
    (c : nat) (st : string * HMap) : string * HMap :=
  match cs with
  | [] => st
  | name :: rest =>
      if (c =? id_col fs)%nat then header_cols fs stem rest (S c) st
      else
        let namebuf :=
          if is_claim fs && (0 <? claim_year fs)
          then str_take 1023 (name +:+ "_" +:+ print_int (claim_year fs))
          else str_take 1023 name in
        let '(out, used) := st in
        match hmap_get used namebuf with
        | Some _ =>
            let dedup := str_take 1199 (namebuf +:+ "[" +:+ stem +:+ "]") in
            header_cols fs stem rest (S c)
              (out +:+ String OUTPUT_DELIM dedup, hmap_put used dedup 1 true)
        | None =>
            header_cols fs stem rest (S c)
              (out +:+ String OUTPUT_DELIM namebuf, hmap_put used namebuf 1 true)
        end
  end.

Definition write_header (stores : list FileStore) (idName : string) : string :=
  let st0 := (idName, hmap_put (hmap_init 4099) idName 1 true) in
  let st := fold_left
              (fun st fs => header_cols fs (file_stem (path fs) 256) (cols fs) 0 st)
              stores st0 in
  fst st +:+ String LF EmptyString.

(** The cells of row [row] of one file, each after a delimiter. *)
Fixpoint write_cells (r : list (option string)) (k n : nat) : string :=
  match n with
  | O => EmptyString
  | S n' =>
      String OUTPUT_DELIM
        (match r !! k with
         | Some (Some s) => s
         | _ => EmptyString
         end +:+ write_cells r (S k) n')
  end.

Fixpoint write_blanks (n : nat) : string :=
  match n with
  | O => EmptyString
  | S n' => String OUTPUT_DELIM (write_blanks n')
  end.

(** What one file contributes to the output line of key [id]. *)
Definition write_file_part (fs : FileStore) (id : string) : string :=
  match hmap_get (id_to_idx fs) id with
  | Some e =>
      write_cells (default [] (cells fs !! Z.to_nat (value e))) 0 (n_nonid fs)
  | None => write_blanks (ncols fs - 1)
  end.

(** One iteration of the outer loop of [write_rows]. *)
Definition write_row (stores : list FileStore) (id : string) : string :=
  id +:+ str_concat (map (fun fs => write_file_part fs id) stores)
     +:+ String LF EmptyString.

(** [write_rows]: the lines written for [ids[0 .. nsel-1]], in order. *)
Definition write_rows (stores : list FileStore) (ids : list string)
    (nsel : nat) : list string :=
  map (fun i => write_row stores (default EmptyString (ids !! i))) (seq 0 nsel).

(** ** [main] *)

(** The option loop of [main] over [argv[1..]]: the sample size, the
    output path and the remaining arguments (the input files). *)
Fixpoint parse_args (args : list string) (sample : Z) (outpath : string)
    : Z * string * list string :=
  match args with
  | a :: v :: rest =>
      if String.eqb a "-n" then parse_args rest (atoi v) outpath
      else if String.eqb a "-o" then parse_args rest sample v
      else (sample, outpath, args)
  | _ => (sample, outpath, args)
  end.

(** The exit status and the file written, if any (path and content). *)
Record Outcome := mkOutcome {
  exit_code : Z;
  out_file : option (string * string)
}.

(** The loading loop of [main]; [exit(1)] inside [load_file] ends it. *)
Fixpoint load_all (w : World) (files : list string) : result (list FileStore) :=
  match files with
  | [] => Ok []
  | p :: rest =>
      fs <- load_file (file_content w p) (filestore_init p) ;;
      l <- load_all w rest ;;
      Ok (fs :: l)
  end.

(** [sample] after the clamp against the number of eligible keys. *)
Definition clamp_sample (sample : Z) (n : nat) : Z :=
  if Z.of_nat n <? to_size_t sample then to_int (Z.of_nat n) else sample.

Definition id_name (stores : list FileStore) : string :=
  match stores with
  | fs :: _ =>
      if (0 <? ncols fs)%nat && (id_col fs <? ncols fs)%nat
      then default EmptyString (cols fs !! id_col fs)
      else "patent_id"
  | [] => "patent_id"
  end.

Definition main (w : World) (argv : list string) : Outcome :=
  if (length argv <? 2)%nat then mkOutcome 1 None
  else
    let '(sample, outpath, files) := parse_args (tail argv) 100000 "merged.csv" in
    if (length files <=? 0)%nat then mkOutcome 1 None
    else
      match load_all w files with
      | Exit c => mkOutcome c None
      | Ok stores =>
          let eligibleIDs := build_eligible_ids stores in
          if (length eligibleIDs =? 0)%nat then mkOutcome 0 None
          else
            let sample := clamp_sample sample (length eligibleIDs) in
            let v := shuffle (rand w) eligibleIDs (length eligibleIDs) in
            if negb (can_write w outpath) then mkOutcome 1 None
            else
              mkOutcome 0
                (Some (outpath,
                       write_header stores (id_name stores)
                       +:+ str_concat (write_rows stores v (Z.to_nat (to_size_t sample)))))
      end.

End Merger2.

(** * code3.c *)

(** [HashTable], [HashEntry] and [hash_string] of code3.c have the shape
    and the code of [HMap], [Entry] and [djb2] of merger2.c; the embedding
    shares them. *)

Module Code3.

Import Merger2.

(** ** [parse_csv_line] *)

Definition MAX_FIELD_BUF : nat := Z.to_nat 8192.

(** [if (buf_idx < MAX_FIELD_BUF - 1) buf[buf_idx++] = ch;] *)
Definition buf_push (buf : string) (ch : ascii) : string :=
  if (String.length buf <? MAX_FIELD_BUF - 1)%nat then str_snoc buf ch else buf.

(** The loop of [parse_csv_line]; the end of the string is its NUL. *)
Fixpoint parse_csv_loop (inQuote : bool) (buf : string) (line : string)
    : list string :=
  match line with
  | EmptyString => [buf]
  | String ch rest =>
      if Ascii.eqb ch DQUOTE then
        if negb inQuote then parse_csv_loop true buf rest
        else
          match rest with
          | String c1 rest' =>
              if Ascii.eqb c1 DQUOTE
              then parse_csv_loop true (buf_push buf DQUOTE) rest'
              else parse_csv_loop false buf rest
          | EmptyString => parse_csv_loop false buf rest
          end
      else if (Ascii.eqb ch COMMA && negb inQuote)
              || Ascii.eqb ch NUL || Ascii.eqb ch LF || Ascii.eqb ch CR then
        if Ascii.eqb ch NUL || Ascii.eqb ch LF || Ascii.eqb ch CR
        then [buf]
        else buf :: parse_csv_loop inQuote EmptyString rest
      else parse_csv_loop inQuote (buf_push buf ch) rest
  end.

Definition parse_csv_line (line : string) : list string :=
  parse_csv_loop false EmptyString line.

Record AppRow := mkAppRow { appno : string; values : list (option string) }.

(** The merge state of [main]: the global column names, the row table,
    the hash table from key to row index, and [global_col_count]. *)
Record MergeState := mkMergeState {
  m_cols : list string;
  m_table : list AppRow;
  m_ht : HMap;
  global_col_count : nat
}.

Definition merge_state_init : MergeState :=
  {| m_cols := []; m_table := []; m_ht := hmap_init HASH_BUCKETS;
     global_col_count := 0 |}.

Fixpoint column_index (names : list string) (name : string) (i : nat) : option nat :=
  match names with
  | [] => None
  | n :: rest => if String.eqb n name then Some i else column_index rest name (S i)
  end.

Definition add_or_get_column (names : list string) (name : string)
    : list string * nat :=
  match column_index names name 0 with
  | Some i => (names, i)
  | None => (names ++ [name], length names)
  end.

(** Rows get [new_col_count] slots, the new ones NULL. *)
Definition ensure_row_width (table : list AppRow) (old_col_count new_col_count : nat)
    : list AppRow :=
  if (new_col_count <=? old_col_count)%nat then table
  else map (fun r => mkAppRow (appno r) (resize new_col_count None (values r))) table.

Definition add_row (table : list AppRow) (no : string) (col_count : nat)
    : list AppRow :=
  table ++ [mkAppRow no (replicate col_count None)].

(** [get_or_create_row]: the new table and hash table and the index of
    the row for [no]. *)
Definition get_or_create_row (ht : HMap) (table : list AppRow) (no : string)
    (col_count : nat) : HMap * list AppRow * Z :=
  let idx := bucket_of ht no in
  match chain_find (chain_at ht idx) no with
  | Some e => (ht, table, value e)
  | None =>
      let table' := add_row table no col_count in
      let ri := to_int (Z.of_nat (length table') - 1) in
      ({| buckets := <[idx := mkEntry no ri :: chain_at ht idx]> (buckets ht);
          nb := nb ht |},
       table', ri)
  end.

(** The header of one input: maps its columns to global columns. *)
Fixpoint map_columns (names : list string) (header : list string)
    : list string * list nat :=
  match header with
  | [] => (names, [])
  | h :: rest =>
      let '(names1, idx) := add_or_get_column names h in
      let '(names2, l2g) := map_columns names1 rest in
      (names2, idx :: l2g)
  end.

Fixpoint str_last (s : string) : option ascii :=
  match s with
  | EmptyString => None
  | String c EmptyString => Some c
  | String _ r => str_last r
  end.

Fixpoint str_init (s : string) : string :=
  match s with
  | EmptyString => EmptyString
  | String _ EmptyString => EmptyString
  | String c r => String c (str_init r)
  end.

(** The end-of-line strip after [getline]: one LF or CR, then one CR. *)
Definition chomp (line : string) : string :=
  match str_last line with
  | Some c =>
      if Ascii.eqb c LF || Ascii.eqb c CR then
        let l1 := str_init line in
        match str_last l1 with
        | Some c1 => if Ascii.eqb c1 CR then str_init l1 else l1
        | None => l1
        end
      else line
  | None => line
  end.

(** The fill loop [for (c = 1; c < header_count && c < field_count; ++c)]:
    the last file wins. *)
Fixpoint fill_values (l2g : list nat) (fields : list string)
    (vals : list (option string)) : list (option string) :=
  match l2g, fields with
  | g :: l2g', f :: fields' => fill_values l2g' fields' (<[g := Some f]> vals)
  | _, _ => vals
  end.

(** One data line of an input whose header has the map [l2g]. *)
Definition code3_row (l2g : list nat) (st : MergeState) (raw : string) : MergeState :=
  let fields := parse_csv_line (chomp raw) in
  match fields with
  | [] => st
  | no :: _ =>
      if str_is_empty no then st
      else
        let '(ht, table, ri) :=
          get_or_create_row (m_ht st) (m_table st) no (global_col_count st) in
        let upd r :=
          mkAppRow (appno r)
            (fill_values (tail l2g) (tail fields)
               (resize (global_col_count st) None (values r))) in
        {| m_cols := m_cols st;
           m_table := if ri <? 0 then table else alter upd (Z.to_nat ri) table;
           m_ht := ht; global_col_count := global_col_count st |}
  end.

Fixpoint code3_rows (fuel : nat) (s : string) (l2g : list nat) (st : MergeState)
    : MergeState :=
  match fuel with
  | O => st
  | S fuel' =>
      match getline s with
      | None => st
      | Some (raw, t) => code3_rows fuel' t l2g (code3_row l2g st raw)
      end
  end.

(** The body of the loop over the input files; an input that cannot be
    opened ([None]) is passed over with [continue]. *)
Definition code3_file (st : MergeState) (content : option string) : MergeState :=
  match content with
  | None => st
  | Some data =>
      match getline data with
      | None => st
      | Some (raw, t) =>
          match parse_csv_line (chomp raw) with
          | [] => st
          | _ :: header_rest =>
              let names0 :=
                if (length (m_cols st) =? 0)%nat
                then fst (add_or_get_column (m_cols st) "application_number")
                else m_cols st in
              let old_cols := length names0 in
              let '(names, l2g_rest) := map_columns names0 header_rest in
              let new_cols := length names in
              let table :=
                if (old_cols <? new_cols)%nat
                then ensure_row_width (m_table st) old_cols new_cols
                else m_table st in
              code3_rows (String.length t) t (0%nat :: l2g_rest)
                {| m_cols := names; m_table := table; m_ht := m_ht st;
                   global_col_count := new_cols |}
          end
      end
  end.

Definition code3_ingest (w : World) (inputs : list string) (st : MergeState)
    : MergeState :=
  fold_left (fun st p => code3_file st (file_content w p)) inputs st.

(** The exit status of [main] in code3.c ([argv[1]] is the output path,
    [argv[2]] the fill fraction, the inputs follow) and the table that
    reaches the output stage. *)
Definition code3_main (w : World) (argv : list string) : Z * option MergeState :=
  if (length argv <? 5)%nat then (1, None)
  else
    let st := code3_ingest w (drop 3 argv) merge_state_init in
    if negb (can_write w (default EmptyString (argv !! 1%nat))) then (1, Some st)
    else (0, Some st).

(** ** [print_csv_field] *)

Fixpoint need_quotes (s : string) : bool :=
  match s with
  | EmptyString => false
  | String c r =>
      if Ascii.eqb c COMMA || Ascii.eqb c DQUOTE || Ascii.eqb c LF || Ascii.eqb c CR
      then true
      else need_quotes r
  end.

(** The second loop of [print_csv_field]: every quote is written twice. *)
Fixpoint put_escaped (s : string) : string :=
  match s with
  | EmptyString => EmptyString
  | String c r =>
      if Ascii.eqb c DQUOTE
      then String DQUOTE (String c (put_escaped r))
      else String c (put_escaped r)
  end.

(** The characters [print_csv_field(f, s)] writes to [f]. *)
Definition print_csv_field (s : option string) : string :=
  match s with
  | None => EmptyString
  | Some s =>
      if need_quotes s
      then String DQUOTE (put_escaped s +:+ String DQUOTE EmptyString)
      else s
  end.

End Code3.

Import Merger2 Code3.

(** ** Field-level views used to state the properties *)

(** The quoting rule in the words of the specification, for an output
    delimiter [d]: quote the value iff it contains the delimiter, a quote
    or a newline, doubling every quote inside. *)
Definition quote_rule_encode (d : ascii) (s : string) : string :=
  if strchr s d || strchr s DQUOTE || strchr s LF
  then String DQUOTE (put_escaped s +:+ String DQUOTE EmptyString)
  else s.

(** Fields separated by the output delimiter, each encoded by [enc], and
    the line end. *)
Definition csv_line (enc : string -> string) (fields : list string) : string :=
  match fields with
  | [] => EmptyString
  | f :: rest => enc f +:+ str_concat (map (fun x => String OUTPUT_DELIM (enc x)) rest)
  end +:+ String LF EmptyString.

Definition cell_text (r : list (option string)) (k : nat) : string :=
  match r !! k with
  | Some (Some s) => s
  | _ => EmptyString
  end.

(** The field values one file contributes to the row of key [id]. *)
Definition file_fields (fs : FileStore) (id : string) : list string :=
  match hmap_get (id_to_idx fs) id with
  | Some e =>
      map (cell_text (default [] (cells fs !! Z.to_nat (value e)))) (seq 0 (n_nonid fs))
  | None => replicate (ncols fs - 1) EmptyString
  end.

(** The field values of the output row of key [id]: the key, then the
    fields of every file in load order. *)
Definition row_fields (stores : list FileStore) (id : string) : list string :=
  id :: concat (map (fun fs => file_fields fs id) stores).

(** The display names [write_header] resolves for one file, with the set
    of used names threaded through as in the source. *)
Fixpoint header_names_cols (fs : FileStore) (stem : string) (cs : list string)
    (c : nat) (used : HMap) : list string * HMap :=
  match cs with
  | [] => ([], used)
  | name :: rest =>
      if (c =? id_col fs)%nat then header_names_cols fs stem rest (S c) used
      else
        let namebuf :=
          if is_claim fs && (0 <? claim_year fs)
          then str_take 1023 (name +:+ "_" +:+ print_int (claim_year fs))
          else str_take 1023 name in
        let shown :=
          match hmap_get used namebuf with
          | Some _ => str_take 1199 (namebuf +:+ "[" +:+ stem +:+ "]")
          | None => namebuf
          end in
        let '(names, used') :=
          header_names_cols fs stem rest (S c) (hmap_put used shown 1 true) in
        (shown :: names, used')
  end.

Fixpoint header_names_files (stores : list FileStore) (used : HMap) : list string :=
  match stores with
  | [] => []
  | fs :: rest =>
      let '(names, used') :=
        header_names_cols fs (file_stem (path fs) 256) (cols fs) 0 used in
      names ++ header_names_files rest used'
  end.

Definition header_names (stores : list FileStore) (idName : string) : list string :=
  header_names_files stores (hmap_put (hmap_init 4099) idName 1 true).

(** ** Invariants *)

(** A well-formed hash map: the bucket array has [nb] slots, every entry
    sits in the chain of its hash, and no key occurs twice. *)
Definition hmap_wf (m : HMap) : Prop :=
  0 < nb m
  /\ length (buckets m) = Z.to_nat (nb m)
  /\ (forall (h : nat) (chain : list Entry) (e : Entry),
        buckets m !! h = Some chain -> e ∈ chain -> bucket_of m (key e) = h)
  /\ NoDup (hmap_keys m).

(** The invariant of a loaded table: the index is well formed, the keys
    are pairwise distinct, there is one cell row per key, the index maps
    exactly the stored keys, each to the position of its row, and every
    row has [n_nonid] cells. *)
Definition fs_inv (fs : FileStore) : Prop :=
  hmap_wf (id_to_idx fs)
  /\ NoDup (ids fs)
  /\ length (cells fs) = length (ids fs)
  /\ (forall (k : string) (e : Entry),
        hmap_get (id_to_idx fs) k = Some e ->
        0 <= value e /\ ids fs !! Z.to_nat (value e) = Some k)
  /\ (forall (i : nat) (k : string),
        ids fs !! i = Some k ->
        exists e, hmap_get (id_to_idx fs) k = Some e /\ value e = Z.of_nat i)
  /\ Forall (fun row => length row = n_nonid fs) (cells fs).

(** The buffers the successive [fgets] calls of a read loop deliver. *)
Fixpoint read_lines (fuel : nat) (s : string) : list string :=
  match fuel with
  | O => []
  | S fuel' =>
      match fgets MAX_LINE_LEN s with
      | None => []
      | Some (raw, t) => raw :: read_lines fuel' t
      end
  end.

Definition file_lines (data : string) : list string :=
  read_lines (String.length data) data.

(** The physical lines of a text: every line with its line feed; the
    last one may lack it. *)
Fixpoint text_lines (s : string) : list string :=
  match s with
  | EmptyString => []
  | String c r =>
      if Ascii.eqb c LF then String c EmptyString :: text_lines r
      else match text_lines r with
           | [] => [String c EmptyString]
           | l :: rest => String c l :: rest
           end
  end.

(** A physical line that one [fgets] call of [load_file] reads whole: it
    fits the line buffer together with the terminator, and it holds no
    NUL byte, which would end the C string early. *)
Definition line_fits (l : string) : Prop :=
  (N.of_nat (String.length l) < MAX_LINE_LEN)%N /\ strchr l NUL = false.

(** The delimiter and the column names a header line stands for: the
    tab when the line holds a tab and no comma, the comma otherwise. *)
Definition delim_of_header (hdr : string) : ascii :=
  if strchr (trim_eol hdr) TAB && negb (strchr (trim_eol hdr) COMMA)
  then TAB else COMMA.

Definition cols_of_header (hdr : string) : list string :=
  parse_delim_line (trim_eol hdr) (delim_of_header hdr).

(** ** The data rows of a file, as the specification speaks of them *)

(** The data row a line stands for under delimiter [d] and key column
    [idc]: its key and its non-key values in column order; [None] for a
    line that is passed over (blank, or too short to hold the key). *)
Definition data_row (d : ascii) (idc : nat) (raw : string)
    : option (string * list string) :=
  let line := trim_eol raw in
  if str_is_empty line then None
  else
    let fields := parse_delim_line line d in
    if (length fields <=? idc)%nat then None
    else Some (default EmptyString (fields !! idc), delete idc fields).

(** The values that arrive for key [k] in non-key column [j], in
    encounter order. *)
Definition incoming (rows : list (string * list string)) (k : string) (j : nat)
    : list string :=
  omap (fun r => if String.eqb (fst r) k then snd r !! j else None) rows.

Fixpoint join_sep (sep : string) (l : list string) : string :=
  match l with
  | [] => EmptyString
  | x :: rest =>
      match rest with
      | [] => x
      | _ => x +:+ sep +:+ join_sep sep rest
      end
  end.

(** The merged cell: the non-empty values joined by the separator, no
    cell content when there is none. *)
Definition merged_value (vals : list string) : option string :=
  match List.filter (fun v => negb (str_is_empty v)) vals with
  | [] => None
  | l => Some (join_sep MERGE_SEP l)
  end.

(** What the field loop does to the cell row of the key: the value of
    non-key column [k], [k+1], ... is merged into the cell of the same
    number, as long as the header has such a column. *)
Fixpoint merge_row (nn : nat) (vals : list string) (k : nat)
    (row : list (option string)) : list (option string) :=
  match vals with
  | [] => row
  | v :: rest =>
      merge_row nn rest (S k)
        (if (k <? nn)%nat then alter (fun dst => append_cell_merge dst v) k row else row)
  end.

(** The non-key fields among [fields], whose first element has index [i]. *)
Definition nonkey_from (idc i : nat) (fields : list string) : list string :=
  if (i <=? idc)%nat then delete (idc - i)%nat fields else fields.

(** The state of the data loop after the data rows [rows]: the table
    invariant holds, the stored keys are the keys of the rows, and every
    cell holds the values that arrived for it, merged in encounter order. *)
Definition load_inv (rows : list (string * list string)) (fs : FileStore) : Prop :=
  fs_inv fs
  /\ (forall k : string, k ∈ ids fs <-> k ∈ map fst rows)
  /\ (forall (r : nat) (k : string) (row : list (option string)) (j : nat),
        ids fs !! r = Some k -> cells fs !! r = Some row -> (j < n_nonid fs)%nat ->
        row !! j = Some (fold_left append_cell_merge (incoming rows k j) None))
  /\ (length (ids fs) <= length rows)%nat.

(** The header data of a table, fixed once the header line is read. *)
Definition same_header (fs fs' : FileStore) : Prop :=
  path fs' = path fs /\ delim fs' = delim fs /\ id_col fs' = id_col fs
  /\ is_claim fs' = is_claim fs /\ claim_year fs' = claim_year fs
  /\ cols fs' = cols fs /\ n_nonid fs' = n_nonid fs.

(** The state of the base search after the tables [seen]: no non-claims
    table was seen and the index is -1, or the index is that of a
    non-claims table with the fewest rows among those seen. *)
Definition base_ok (seen : list FileStore) (b : Z) : Prop :=
  (b = -1 /\ forall p, p ∈ seen -> is_claim p = true)
  \/ (0 <= b
      /\ exists base,
           seen !! Z.to_nat b = Some base
           /\ is_claim base = false
           /\ forall p, p ∈ seen -> is_claim p = false -> (nrows base <= nrows p)%nat).

(** ** Lines of text *)

(** A string without line feed. *)
Definition lf_free (s : string) : Prop := strchr s LF = false.

Fixpoint count_char (c : ascii) (s : string) : nat :=
  match s with
  | EmptyString => 0
  | String a r => (if Ascii.eqb a c then 1 else 0) + count_char c r
  end.

(** A table none of whose keys and cells holds a line feed. *)
Definition fs_clean (fs : FileStore) : Prop :=
  Forall lf_free (ids fs)
  /\ Forall (Forall (fun c : option string => lf_free (default EmptyString c)))
       (cells fs).

(** ** Concrete inputs used by the examples *)

Definition nl : string := String LF EmptyString.

(** The table [load_file] builds from a readable file. *)
Definition loaded (pth data : string) : FileStore :=
  match load_file (Some data) (filestore_init pth) with
  | Ok fs => fs
  | Exit _ => filestore_init pth
  end.

(** A file whose only data row holds the quoted cell [a,b]. *)
Definition ex_quoted_file : string :=
  "id,x" +:+ nl +:+ "1," +:+ String DQUOTE ("a,b" +:+ String DQUOTE nl).

(** A file with two data rows of key [P1]. *)
Definition ex_dup_file : string :=
  "id,text" +:+ nl +:+ "P1,alpha" +:+ nl +:+ "P1,beta" +:+ nl.

(** The files of the end-to-end scenario of the specification, a claims
    file, and a file with a data row whose key is empty. *)
Definition ex_file_a : string := "id,x" +:+ nl +:+ "1,foo" +:+ nl +:+ "2,bar" +:+ nl.
Definition ex_file_b : string := "id,y" +:+ nl +:+ "1,baz" +:+ nl +:+ "3,qux" +:+ nl.
Definition ex_file_claims : string :=
  "id,text" +:+ nl +:+ "2,two" +:+ nl +:+ "4,four" +:+ nl.
Definition ex_empty_key_file : string :=
  "id,x" +:+ nl +:+ ",foo" +:+ nl +:+ "1,bar" +:+ nl.

Definition ex_files (p : string) : option string :=
  if String.eqb p "a.csv" then Some ex_file_a
  else if String.eqb p "b.csv" then Some ex_file_b
  else if String.eqb p "claims_2001.csv" then Some ex_file_claims
  else if String.eqb p "claims_12.csv" then Some ex_file_claims
  else if String.eqb p "k.csv" then Some ex_empty_key_file
  else None.

(** Every path but one can be written; [rand()] returns 3, 10, 17, ... *)
Definition ex_world : World :=
  {| file_content := ex_files;
     can_write := fun p => negb (String.eqb p "/ro/out.csv");
     rand := fun k => Z.of_nat k * 7 + 3 |}.

(** The table of [a.csv] alone. *)
Definition ex_stores_a : list FileStore := [loaded "a.csv" ex_file_a].

(** ** Views used by the further properties *)

(** A string of line ends only. *)
Fixpoint eol_only (s : string) : bool :=
  match s with
  | EmptyString => true
  | String c r => (Ascii.eqb c LF || Ascii.eqb c CR) && eol_only r
  end.

(** A sequence of [hmap_put] calls, first pair first. *)
Definition hmap_put_all (m : HMap) (kvs : list (string * Z)) : HMap :=
  fold_left (fun m kv => hmap_put m (fst kv) (snd kv) true) kvs m.

(** The value of the last pair of [kvs] whose key is [k]. *)
Fixpoint last_put (kvs : list (string * Z)) (k : string) : option Z :=
  match kvs with
  | [] => None
  | kv :: rest =>
      match last_put rest k with
      | Some v => Some v
      | None => if String.eqb (fst kv) k then Some (snd kv) else None
      end
  end.

(** A string that does not end in a line feed or a carriage return. *)
Definition no_eol_end (s : string) : Prop :=
  forall c, str_last s = Some c -> c <> LF /\ c <> CR.

(** ** The output stage of [main] in code3.c: the lines written *)

(** [for (c = 0; c < cols.count; ++c) { if (c > 0) fputc(',', out);
    print_csv_field(out, cols.names[c]); }] from column [c] on. *)
Fixpoint write_names (names : list string) (c : nat) : string :=
  match names with
  | [] => EmptyString
  | n :: rest =>
      (if (0 <? c)%nat then String COMMA EmptyString else EmptyString)
      +:+ print_csv_field (Some n) +:+ write_names rest (S c)
  end.

Definition code3_header_line (names : list string) : string :=
  write_names names 0 +:+ String LF EmptyString.

(** [for (c = 1; c < cols.count; ++c) { fputc(',', out);
    print_csv_field(out, row->values[c]); }] with [n] iterations left. *)
Fixpoint write_values (vals : list (option string)) (c n : nat) : string :=
  match n with
  | O => EmptyString
  | S n' =>
      String COMMA
        (print_csv_field (match vals !! c with Some v => v | None => None end)
         +:+ write_values vals (S c) n')
  end.

(** The line written for a kept row when there are [ncols] columns. *)
Definition code3_row_line (ncols : nat) (row : AppRow) : string :=
  print_csv_field (Some (appno row))
  +:+ write_values (values row) 1 (ncols - 1)
  +:+ String LF EmptyString.

(** The shape the header part of [load_file] gives a table: one cell per
    column other than the key column, and the key column among the
    columns when there are any. *)
Definition table_shape (fs : FileStore) : Prop :=
  n_nonid fs = (ncols fs - 1)%nat
  /\ (cols fs = [] \/ (id_col fs < ncols fs)%nat).

(** A world with an empty file and a file that holds only a header line,
    beside the files of [ex_world]. *)
Definition ex_world_short : World :=
  {| file_content := fun p =>
       if String.eqb p "empty.csv" then Some EmptyString
       else if String.eqb p "h.csv" then Some ("id,x" +:+ nl)
       else ex_files p;
     can_write := fun _ => true;
     rand := fun k => Z.of_nat k |}.

(** ** The invariant of the ingestion loop of code3.c *)

(** The index [m] holds exactly the keys of [keys], each once, and maps
    a key to its position in [keys]. *)
Definition index_of (m : HMap) (keys : list string) : Prop :=
  hmap_wf m
  /\ NoDup keys
  /\ (forall (k : string) (e : Entry),
        hmap_get m k = Some e ->
        0 <= value e /\ keys !! Z.to_nat (value e) = Some k)
  /\ (forall (i : nat) (k : string),
        keys !! i = Some k ->
        exists e, hmap_get m k = Some e /\ value e = Z.of_nat i).

(** The merge state between two input lines: the hash table indexes the
    rows by key, [global_col_count] is the number of column names, the
    names are pairwise distinct and the first one is
    [application_number], there are no rows before there are columns, no
    row has an empty key, and every row has one slot per column. *)
Definition code3_inv (st : MergeState) : Prop :=
  index_of (m_ht st) (map appno (m_table st))
  /\ global_col_count st = length (m_cols st)
  /\ NoDup (m_cols st)
  /\ (m_cols st = [] -> m_table st = [])
  /\ (forall c, m_cols st !! 0%nat = Some c -> c = "application_number")
  /\ Forall (fun r => appno r <> EmptyString
                      /\ length (values r) = length (m_cols st))
       (m_table st).

(** The name [write_header] gives a column of a table before it looks
    for a collision: the column name, with the year for a Claims table,
    cut to the size of [namebuf]. *)
Definition display_name (fs : FileStore) (name : string) : string :=
  if is_claim fs && (0 <? claim_year fs)
  then str_take 1023 (name +:+ "_" +:+ print_int (claim_year fs))
  else str_take 1023 name.

(** The display names of the non-key columns of a table, in order. *)
Definition display_names (fs : FileStore) : list string :=
  map (display_name fs) (nonkey_from (id_col fs) 0 (cols fs)).

(** A world whose file [q.csv] holds the quoted cell [a,b]. *)
Definition ex_world_quoted : World :=
  {| file_content := fun p =>
       if String.eqb p "q.csv" then Some ex_quoted_file else None;
     can_write := fun _ => true;
     rand := fun k => Z.of_nat k |}.

Fixpoint str_repeat (n : nat) (c : ascii) : string :=
  match n with
  | O => EmptyString
  | S n' => String c (str_repeat n' c)
  end.

(** A file whose third line is longer than the line buffer: the key
    [P2], a value of 65532 letters followed by [P1], and the value
    [stolen]. The first 65535 bytes of the line end before [P1]. *)
Definition ex_long_pad : string := str_repeat (N.to_nat 65532) "a".

Definition ex_long_line : string :=
  "P2," +:+ ex_long_pad +:+ "P1,stolen" +:+ nl.

Definition ex_long_file : string :=
  "id,x" +:+ nl +:+ "P1,v1" +:+ nl +:+ ex_long_line.

(** A file with a NUL byte inside a value. *)
Definition ex_nul_file : string :=
  "id,x" +:+ nl +:+ "P1,al" +:+ String NUL ("pha" +:+ nl) +:+ "P1,beta" +:+ nl.

(** A field that needs no quoting and no trimming: no comma, no quote,
    no line feed, no carriage return. *)
Definition plain_field (s : string) : Prop :=
  strchr s COMMA = false /\ strchr s DQUOTE = false
  /\ strchr s LF = false /\ strchr s CR = false.

(** * Properties *)

(** ** Proof steps used throughout *)

(** An element found at some position of a list belongs to it. *)
Ltac by_lookup := apply list_elem_of_lookup; eauto.

(** Use the instance at [x] of a [Forall] hypothesis. *)
Ltac forall_at H :=
  let H' := fresh in
  pose proof H as H'; rewrite Forall_forall in H'; apply H'; clear H'.

(** Settle a boolean comparison of naturals or integers by arithmetic. *)
Ltac decide_test :=
  match goal with
  | |- (_ <? _)%nat = true => apply Nat.ltb_lt; lia
  | |- (_ <? _)%nat = false => apply Nat.ltb_ge; lia
  | |- (_ <=? _)%nat = true => apply Nat.leb_le; lia
  | |- (_ <=? _)%nat = false => apply Nat.leb_gt; lia
  | |- (_ =? _)%nat = false => apply Nat.eqb_neq; lia
  | |- (_ <? _)%Z = true => apply Z.ltb_lt; lia
  | |- (_ <? _)%Z = false => apply Z.ltb_ge; lia
  | |- (_ =? _)%Z = false => apply Z.eqb_neq; lia
  end.

(** ** Strings *)

Lemma str_app_cons (c : ascii) (s t : string) :
  String c s +:+ t = String c (s +:+ t).
Proof. reflexivity. Qed.

Lemma str_app_nil_r (s : string) : s +:+ EmptyString = s.
Proof.
  induction s as [|c s IH]; [reflexivity|].
  rewrite str_app_cons, IH. reflexivity.
Qed.

Lemma str_app_assoc (s t u : string) : (s +:+ t) +:+ u = s +:+ (t +:+ u).
Proof.
  induction s as [|c s IH]; [reflexivity|].
  rewrite !str_app_cons, IH. reflexivity.
Qed.

Lemma str_snoc_app (buf : string) (c : ascii) (s : string) :
  str_snoc buf c +:+ s = buf +:+ String c s.
Proof. unfold str_snoc. rewrite str_app_assoc. reflexivity. Qed.

Lemma ascii_eqb_true (a b : ascii) : Ascii.eqb a b = true <-> a = b.
Proof. apply Ascii.eqb_eq. Qed.

Lemma ascii_eqb_false (a b : ascii) : Ascii.eqb a b = false <-> a <> b.
Proof. apply Ascii.eqb_neq. Qed.

(** ** The parser on the writer's output *)

(** Inside quotes, the escaped text followed by the closing quote decodes
    to the text itself. *)
Lemma parse_loop_quoted (d : ascii) (s buf : string) :
  parse_loop d true buf (put_escaped s +:+ String DQUOTE EmptyString)
  = [buf +:+ s].
Proof.
  revert buf. induction s as [|c s IH]; intros buf.
  - cbn. rewrite str_app_nil_r. reflexivity.
  - cbn [put_escaped]. destruct (Ascii.eqb c DQUOTE) eqn:Hc.
    + apply ascii_eqb_true in Hc. subst c.
      rewrite !str_app_cons. cbn [parse_loop]. cbn [Ascii.eqb DQUOTE Bool.eqb].
      rewrite IH, str_snoc_app. reflexivity.
    + rewrite str_app_cons. cbn [parse_loop]. rewrite Hc.
      rewrite IH, str_snoc_app. reflexivity.
Qed.

(** Outside quotes, text without quote and delimiter is copied. *)
Lemma parse_loop_plain (d : ascii) (s buf : string) :
  strchr s d = false -> strchr s DQUOTE = false ->
  parse_loop d false buf s = [buf +:+ s].
Proof.
  revert buf. induction s as [|c s IH]; intros buf Hd Hq.
  - cbn. rewrite str_app_nil_r. reflexivity.
  - cbn [strchr] in Hd, Hq.
    apply orb_false_iff in Hd as [Hd1 Hd2].
    apply orb_false_iff in Hq as [Hq1 Hq2].
    cbn [parse_loop]. rewrite Hq1, Hd1.
    rewrite IH by assumption. rewrite str_snoc_app. reflexivity.
Qed.

Lemma need_quotes_strchr (s : string) :
  need_quotes s = strchr s COMMA || strchr s DQUOTE || strchr s LF || strchr s CR.
Proof.
  induction s as [|c s IH]; [reflexivity|].
  cbn [need_quotes strchr]. rewrite IH.
  destruct (Ascii.eqb c COMMA), (Ascii.eqb c DQUOTE), (Ascii.eqb c LF),
    (Ascii.eqb c CR), (strchr s COMMA), (strchr s DQUOTE), (strchr s LF),
    (strchr s CR); reflexivity.
Qed.

(** C7. Writing any string [s] as one field and parsing the text
    written with [parse_delim_line] gives back the one-field sequence
    [[s]]: for the field writer [print_csv_field] read back with the
    comma, and for the quoting rule of the specification (quote iff the
    value holds the delimiter, a quote or a newline) read back with the
    same delimiter, whatever it is. *)
Theorem quote_roundtrip (s : string) :
  parse_delim_line (print_csv_field (Some s)) COMMA = [s]
  /\ forall d : ascii, parse_delim_line (quote_rule_encode d s) d = [s].
Proof.
  split.
  - unfold parse_delim_line, print_csv_field.
    destruct (need_quotes s) eqn:Hn.
    + cbn [parse_loop]. cbn [Ascii.eqb DQUOTE Bool.eqb].
      rewrite parse_loop_quoted. reflexivity.
    + rewrite need_quotes_strchr in Hn.
      apply orb_false_iff in Hn as [Hn _].
      apply orb_false_iff in Hn as [Hn _].
      apply orb_false_iff in Hn as [Hc Hq].
      rewrite parse_loop_plain by assumption. reflexivity.
  - intros d. unfold parse_delim_line, quote_rule_encode.
    destruct (strchr s d || strchr s DQUOTE || strchr s LF) eqn:Hn.
    + cbn [parse_loop]. cbn [Ascii.eqb DQUOTE Bool.eqb].
      rewrite parse_loop_quoted. reflexivity.
    + apply orb_false_iff in Hn as [Hn _].
      apply orb_false_iff in Hn as [Hd Hq].
      rewrite parse_loop_plain by assumption. reflexivity.
Qed.

(** ** The writers *)

Lemma str_concat_app (l1 l2 : list string) :
  str_concat (l1 ++ l2) = str_concat l1 +:+ str_concat l2.
Proof.
  induction l1 as [|x l1 IH]; [reflexivity|].
  cbn [app str_concat fold_right] in *. fold (str_concat (l1 ++ l2)).
  fold (str_concat l1). rewrite IH, str_app_assoc. reflexivity.
Qed.

Lemma write_cells_fields (r : list (option string)) (k n : nat) :
  write_cells r k n
  = str_concat (map (fun x => String OUTPUT_DELIM x) (map (cell_text r) (seq k n))).
Proof.
  revert k. induction n as [|n IH]; intros k; [reflexivity|].
  cbn [write_cells seq map str_concat fold_right].
  fold (str_concat (map (fun x => String OUTPUT_DELIM x) (map (cell_text r) (seq (S k) n)))).
  rewrite IH, str_app_cons. reflexivity.
Qed.

Lemma write_blanks_fields (n : nat) :
  write_blanks n
  = str_concat (map (fun x => String OUTPUT_DELIM x) (replicate n EmptyString)).
Proof.
  induction n as [|n IH]; [reflexivity|].
  cbn [write_blanks replicate map str_concat fold_right].
  fold (str_concat (map (fun x => String OUTPUT_DELIM x) (replicate n EmptyString))).
  rewrite IH. reflexivity.
Qed.

Lemma write_file_part_fields (fs : FileStore) (id : string) :
  write_file_part fs id
  = str_concat (map (fun x => String OUTPUT_DELIM x) (file_fields fs id)).
Proof.
  unfold write_file_part, file_fields.
  destruct (hmap_get (id_to_idx fs) id).
  - apply write_cells_fields.
  - apply write_blanks_fields.
Qed.

(** Every line [write_rows] writes is the raw join of the row's fields. *)
Lemma write_row_raw (stores : list FileStore) (id : string) :
  write_row stores id = csv_line (fun s => s) (row_fields stores id).
Proof.
  unfold write_row, csv_line, row_fields.
  rewrite str_app_assoc. f_equal. f_equal.
  induction stores as [|fs stores IH]; [reflexivity|].
  cbn [map concat str_concat fold_right].
  fold (str_concat (map (fun fs0 => write_file_part fs0 id) stores)).
  rewrite map_app, str_concat_app, IH, write_file_part_fields. reflexivity.
Qed.

Lemma header_cols_names (fs : FileStore) (stem : string) (cs : list string)
    (c : nat) (out : string) (used : HMap) :
  header_cols fs stem cs c (out, used)
  = (out +:+ str_concat (map (fun x => String OUTPUT_DELIM x)
                           (fst (header_names_cols fs stem cs c used))),
     snd (header_names_cols fs stem cs c used)).
Proof.
  revert c out used. induction cs as [|name cs IH]; intros c out used.
  - cbn. rewrite str_app_nil_r. reflexivity.
  - cbn [header_cols header_names_cols].
    destruct (c =? id_col fs)%nat; [apply IH|].
    set (namebuf := if is_claim fs && (0 <? claim_year fs)
                    then str_take 1023 (name +:+ "_" +:+ print_int (claim_year fs))
                    else str_take 1023 name).
    destruct (hmap_get used namebuf) eqn:Hg.
    + rewrite IH.
      destruct (header_names_cols fs stem cs (S c) _) as [names used'].
      cbn [fst snd map str_concat fold_right].
      rewrite str_app_assoc. reflexivity.
    + rewrite IH.
      destruct (header_names_cols fs stem cs (S c) _) as [names used'].
      cbn [fst snd map str_concat fold_right].
      rewrite str_app_assoc. reflexivity.
Qed.

Lemma header_files_names (stores : list FileStore) (out : string) (used : HMap) :
  fst (fold_left
         (fun st fs => header_cols fs (file_stem (path fs) 256) (cols fs) 0 st)
         stores (out, used))
  = out +:+ str_concat (map (fun x => String OUTPUT_DELIM x)
                          (header_names_files stores used)).
Proof.
  revert out used. induction stores as [|fs stores IH]; intros out used.
  - cbn. rewrite str_app_nil_r. reflexivity.
  - cbn [fold_left header_names_files].
    rewrite header_cols_names, IH.
    destruct (header_names_cols fs _ (cols fs) 0 used) as [names used'].
    cbn [fst snd]. rewrite map_app, str_concat_app, str_app_assoc. reflexivity.
Qed.

(** The header line is the raw join of the key name and the resolved
    column names. *)
Lemma write_header_raw (stores : list FileStore) (idName : string) :
  write_header stores idName
  = csv_line (fun s => s) (idName :: header_names stores idName).
Proof.
  unfold write_header, csv_line, header_names.
  rewrite header_files_names. reflexivity.
Qed.

(** ** The hash map *)

Lemma string_eqb_true (a b : string) : String.eqb a b = true <-> a = b.
Proof. apply String.eqb_eq. Qed.

Lemma string_eqb_false (a b : string) : String.eqb a b = false <-> a <> b.
Proof. apply String.eqb_neq. Qed.

Lemma chain_find_Some (c : list Entry) (k : string) (e : Entry) :
  chain_find c k = Some e -> key e = k /\ e ∈ c.
Proof.
  induction c as [|x c IH]; cbn [chain_find]; [discriminate|].
  destruct (String.eqb (key x) k) eqn:Hk.
  - intros [= <-]. apply string_eqb_true in Hk. split; [assumption|].
    apply list_elem_of_here.
  - intros H. destruct (IH H) as [H1 H2]. split; [assumption|].
    apply list_elem_of_further. assumption.
Qed.

Lemma chain_find_None (c : list Entry) (k : string) :
  chain_find c k = None <-> k ∉ map key c.
Proof.
  induction c as [|x c IH]; cbn [chain_find map].
  - split; [intros _; apply not_elem_of_nil | reflexivity].
  - destruct (String.eqb (key x) k) eqn:Hk.
    + apply string_eqb_true in Hk. split; [discriminate|].
      intros H. exfalso. apply H. rewrite Hk. apply list_elem_of_here.
    + apply string_eqb_false in Hk. rewrite IH. rewrite not_elem_of_cons.
      split; [intros H; split; [congruence | assumption] | intros [_ H]; assumption].
Qed.

Lemma chain_find_is_Some (c : list Entry) (k : string) :
  is_Some (chain_find c k) <-> k ∈ map key c.
Proof.
  destruct (chain_find c k) eqn:H.
  - split; [intros _ | intros _; eexists; reflexivity].
    apply chain_find_Some in H as [H1 H2]. subst k.
    apply list_elem_of_In, in_map, list_elem_of_In. assumption.
  - split; [intros [? [=]] |]. apply chain_find_None in H. intros H'. contradiction.
Qed.

Lemma chain_set_keys (c : list Entry) (k : string) (v : Z) :
  map key (chain_set c k v) = map key c.
Proof.
  induction c as [|x c IH]; [reflexivity|].
  cbn [chain_set]. destruct (String.eqb (key x) k); cbn [map key]; [reflexivity|].
  rewrite IH. reflexivity.
Qed.

Lemma chain_find_set_eq (c : list Entry) (k : string) (v : Z) (e : Entry) :
  chain_find c k = Some e -> chain_find (chain_set c k v) k = Some (mkEntry k v).
Proof.
  induction c as [|x c IH]; cbn [chain_find chain_set]; [discriminate|].
  destruct (String.eqb (key x) k) eqn:Hk.
  - intros _. cbn [chain_find key]. rewrite Hk.
    apply string_eqb_true in Hk. rewrite Hk. reflexivity.
  - intros H. cbn [chain_find]. rewrite Hk. apply IH. assumption.
Qed.

Lemma chain_find_set_ne (c : list Entry) (k k' : string) (v : Z) :
  k <> k' -> chain_find (chain_set c k v) k' = chain_find c k'.
Proof.
  intros Hne. induction c as [|x c IH]; [reflexivity|].
  cbn [chain_set chain_find]. destruct (String.eqb (key x) k) eqn:Hk.
  - cbn [chain_find key]. apply string_eqb_true in Hk.
    assert (String.eqb (key x) k' = false) as ->
      by (apply string_eqb_false; congruence).
    reflexivity.
  - cbn [chain_find]. rewrite IH. reflexivity.
Qed.

Lemma bucket_of_lt (m : HMap) (k : string) :
  0 < nb m -> length (buckets m) = Z.to_nat (nb m) ->
  (bucket_of m k < length (buckets m))%nat.
Proof.
  intros Hnb Hlen. unfold bucket_of. rewrite Hlen.
  pose proof (Z.mod_pos_bound (djb2 k) (nb m) Hnb). lia.
Qed.

Lemma chain_at_insert_eq (bs : list (list Entry)) (n : Z) (h : nat) (c : list Entry) :
  (h < length bs)%nat -> chain_at (mkHMap (<[h := c]> bs) n) h = c.
Proof.
  intros Hlt. unfold chain_at. cbn [buckets].
  rewrite list_lookup_insert_eq by assumption. reflexivity.
Qed.

Lemma chain_at_insert_ne (bs : list (list Entry)) (n : Z) (h h' : nat) (c : list Entry) :
  h <> h' -> chain_at (mkHMap (<[h := c]> bs) n) h' = chain_at (mkHMap bs n) h'.
Proof.
  intros Hne. unfold chain_at. cbn [buckets].
  rewrite list_lookup_insert_ne by assumption. reflexivity.
Qed.

Lemma hmap_put_nb (m : HMap) (k : string) (v : Z) (o : bool) :
  nb (hmap_put m k v o) = nb m.
Proof. unfold hmap_put. destruct (chain_find _ _); reflexivity. Qed.

Lemma bucket_of_put (m : HMap) (k k' : string) (v : Z) (o : bool) :
  bucket_of (hmap_put m k v o) k' = bucket_of m k'.
Proof. unfold bucket_of. rewrite hmap_put_nb. reflexivity. Qed.

Lemma hmap_put_length (m : HMap) (k : string) (v : Z) (o : bool) :
  length (buckets (hmap_put m k v o)) = length (buckets m).
Proof.
  unfold hmap_put. destruct (chain_find _ _); cbn [buckets]; apply length_insert.
Qed.

(** Writing a key leaves the other keys alone. *)
Lemma hmap_get_put_ne (m : HMap) (k k' : string) (v : Z) (o : bool) :
  k <> k' -> hmap_get (hmap_put m k v o) k' = hmap_get m k'.
Proof.
  intros Hne. unfold hmap_get. rewrite bucket_of_put.
  destruct m as [bs n]. unfold hmap_put. cbn [buckets nb].
  set (h := bucket_of (mkHMap bs n) k). set (h' := bucket_of (mkHMap bs n) k').
  destruct (decide (h = h')) as [Heq|Hh].
  - rewrite <- Heq.
    destruct (decide (h < length bs)%nat) as [Hlt|Hge].
    + destruct (chain_find (chain_at (mkHMap bs n) h) k) eqn:Hf.
      * rewrite chain_at_insert_eq by assumption. apply chain_find_set_ne; assumption.
      * rewrite chain_at_insert_eq by assumption. cbn [chain_find key].
        assert (String.eqb k k' = false) as -> by (apply string_eqb_false; assumption).
        reflexivity.
    + destruct (chain_find (chain_at (mkHMap bs n) h) k);
        rewrite list_insert_ge by lia; reflexivity.
  - destruct (chain_find (chain_at (mkHMap bs n) h) k);
      rewrite chain_at_insert_ne by assumption; reflexivity.
Qed.

Lemma hmap_keys_split (bs : list (list Entry)) (h : nat) (c : list Entry) :
  bs !! h = Some c ->
  concat (map (map key) bs)
  = concat (map (map key) (take h bs)) ++ map key c
    ++ concat (map (map key) (drop (S h) bs)).
Proof.
  intros Hc. rewrite <- (take_drop_middle bs h c Hc) at 1.
  rewrite map_app, concat_app. cbn [map concat]. reflexivity.
Qed.

Lemma hmap_keys_insert (bs : list (list Entry)) (h : nat) (c : list Entry) :
  (h < length bs)%nat ->
  concat (map (map key) (<[h := c]> bs))
  = concat (map (map key) (take h bs)) ++ map key c
    ++ concat (map (map key) (drop (S h) bs)).
Proof.
  intros Hlt. rewrite insert_take_drop by assumption.
  rewrite map_app, concat_app. cbn [map concat]. reflexivity.
Qed.

Lemma chain_at_lookup (m : HMap) (h : nat) :
  (h < length (buckets m))%nat -> buckets m !! h = Some (chain_at m h).
Proof.
  intros Hlt. unfold chain_at.
  destruct (buckets m !! h) eqn:Hl; [reflexivity|].
  apply lookup_ge_None in Hl. lia.
Qed.

(** A key is found exactly when it is one of the stored keys. *)
Lemma hmap_get_is_Some (m : HMap) (k : string) :
  hmap_wf m -> (is_Some (hmap_get m k) <-> k ∈ hmap_keys m).
Proof.
  intros (Hnb & Hlen & Hplace & _).
  pose proof (bucket_of_lt m k Hnb Hlen) as Hlt.
  unfold hmap_get. rewrite chain_find_is_Some. unfold hmap_keys.
  split.
  - intros H. rewrite (hmap_keys_split _ _ _ (chain_at_lookup m _ Hlt)).
    rewrite !elem_of_app. right. left. assumption.
  - intros H. apply list_elem_of_In, in_concat in H as (ks & Hks & Hk).
    apply in_map_iff in Hks as (chain & <- & Hchain).
    apply list_elem_of_In, list_elem_of_lookup in Hchain as [h Hh].
    apply in_map_iff in Hk as (e & <- & He).
    apply list_elem_of_In in He.
    pose proof (Hplace h chain e Hh He) as Hb.
    rewrite Hb in *. unfold chain_at. rewrite Hh. cbn [default].
    apply list_elem_of_In, in_map, list_elem_of_In. assumption.
Qed.

(** *** Putting a key into a well-formed map *)

Section Put.

Variables (m : HMap) (k : string) (v : Z) (o : bool).
Hypothesis Hwf : hmap_wf m.

Lemma put_bucket_lt : (bucket_of m k < length (buckets m))%nat.
Proof. destruct Hwf as (Hnb & Hlen & _). apply bucket_of_lt; assumption. Qed.

Lemma put_chain_lookup :
  buckets m !! bucket_of m k = Some (chain_at m (bucket_of m k)).
Proof. apply chain_at_lookup, put_bucket_lt. Qed.

(** Reading back the key just written. *)
Lemma hmap_get_put_eq : hmap_get (hmap_put m k v o) k = Some (mkEntry k v).
Proof.
  pose proof put_bucket_lt as Hlt.
  unfold hmap_get. rewrite bucket_of_put. unfold hmap_put.
  destruct (chain_find (chain_at m (bucket_of m k)) k) eqn:Hf.
  - rewrite chain_at_insert_eq by assumption. eapply chain_find_set_eq; eassumption.
  - rewrite chain_at_insert_eq by assumption. cbn [chain_find key].
    rewrite String.eqb_refl. reflexivity.
Qed.

(** The keys after a put: unchanged for a key already stored, one more
    key otherwise. *)
Lemma hmap_keys_put_old (e : Entry) :
  hmap_get m k = Some e -> hmap_keys (hmap_put m k v o) = hmap_keys m.
Proof.
  intros Hg. unfold hmap_get in Hg. unfold hmap_put. rewrite Hg.
  unfold hmap_keys. cbn [buckets].
  rewrite hmap_keys_insert by apply put_bucket_lt.
  rewrite (hmap_keys_split (buckets m) _ _ put_chain_lookup).
  rewrite chain_set_keys. reflexivity.
Qed.

Lemma hmap_keys_put_new :
  hmap_get m k = None -> hmap_keys (hmap_put m k v o) ≡ₚ k :: hmap_keys m.
Proof.
  intros Hg. unfold hmap_get in Hg. unfold hmap_put. rewrite Hg.
  unfold hmap_keys. cbn [buckets].
  rewrite hmap_keys_insert by apply put_bucket_lt.
  rewrite (hmap_keys_split (buckets m) _ _ put_chain_lookup).
  cbn [map key]. symmetry. apply Permutation_middle.
Qed.

(** Every entry of the new map sits in the chain of its hash. *)
Lemma hmap_put_placed (h : nat) (chain : list Entry) (e : Entry) :
  buckets (hmap_put m k v o) !! h = Some chain -> e ∈ chain ->
  bucket_of m (key e) = h.
Proof.
  destruct Hwf as (_ & _ & Hplace & _).
  pose proof put_bucket_lt as Hlt. pose proof put_chain_lookup as Hchain.
  intros Hh He. unfold hmap_put in Hh.
  destruct (decide (bucket_of m k = h)) as [<-|Hne].
  - destruct (chain_find (chain_at m (bucket_of m k)) k) eqn:Hf; cbn [buckets] in Hh;
      rewrite list_lookup_insert_eq in Hh by assumption; injection Hh as <-.
    + assert (key e ∈ map key (chain_at m (bucket_of m k))) as Hk.
      { rewrite <- (chain_set_keys _ k v).
        apply list_elem_of_In, in_map, list_elem_of_In. assumption. }
      apply list_elem_of_In, in_map_iff in Hk as (e' & Hke & He').
      rewrite <- Hke. apply (Hplace _ _ _ Hchain). apply list_elem_of_In. assumption.
    + apply elem_of_cons in He as [->|He]; [reflexivity|].
      apply (Hplace _ _ _ Hchain He).
  - destruct (chain_find (chain_at m (bucket_of m k)) k); cbn [buckets] in Hh;
      rewrite list_lookup_insert_ne in Hh by assumption; eapply Hplace; eassumption.
Qed.

Lemma hmap_put_wf : hmap_wf (hmap_put m k v o).
Proof.
  pose proof Hwf as (Hnb & Hlen & _ & Hnd).
  split; [rewrite hmap_put_nb; assumption|].
  split; [rewrite hmap_put_length, hmap_put_nb; assumption|].
  split.
  - intros h chain e Hh He. rewrite bucket_of_put. eapply hmap_put_placed; eassumption.
  - destruct (hmap_get m k) as [e|] eqn:Hg.
    + rewrite (hmap_keys_put_old e Hg). assumption.
    + rewrite (hmap_keys_put_new Hg). apply NoDup_cons. split; [|assumption].
      rewrite <- hmap_get_is_Some by assumption. rewrite Hg. intros [? [=]].
Qed.

End Put.

Lemma hmap_init_keys (n : Z) : hmap_keys (hmap_init n) = [].
Proof.
  unfold hmap_keys, hmap_init. cbn [buckets].
  induction (Z.to_nat n) as [|x IH]; [reflexivity|]. cbn. assumption.
Qed.

Lemma hmap_init_wf (n : Z) : 0 < n -> hmap_wf (hmap_init n).
Proof.
  intros Hn. split; [assumption|]. split; [apply length_replicate|]. split.
  - intros h chain e Hh He. cbn [hmap_init buckets] in Hh.
    apply lookup_replicate in Hh as [-> _]. apply elem_of_nil in He. contradiction.
  - rewrite hmap_init_keys. apply NoDup_nil_2.
Qed.

Lemma hmap_get_init (n : Z) (k : string) : hmap_get (hmap_init n) k = None.
Proof.
  unfold hmap_get, chain_at, hmap_init. cbn [buckets].
  destruct (replicate (Z.to_nat n) [] !! _) eqn:Hl; [|reflexivity].
  apply lookup_replicate in Hl as [-> _]. reflexivity.
Qed.

(** Facts about the index that close routine goals. *)
Create HintDb tables.
#[global] Hint Resolve hmap_init_wf hmap_put_wf : tables.
#[global] Hint Extern 1 (0 < HASH_BUCKETS) => reflexivity : tables.

(** ** Reading lines *)

Lemma to_int_small (z : Z) : 0 <= z <= INT_MAX -> to_int z = z.
Proof.
  unfold INT_MAX, to_int. intros H.
  rewrite Z.mod_small by lia.
  destruct (z <? 2 ^ 31) eqn:E; [reflexivity|].
  apply Z.ltb_ge in E. lia.
Qed.

Lemma fgets_buf_le (room : N) (s : string) :
  (String.length (snd (fgets_buf room s)) <= String.length s)%nat.
Proof.
  revert room. induction s as [|c s IH]; intros room; cbn [fgets_buf].
  - cbn. lia.
  - destruct (room =? 0)%N; [cbn; lia|].
    destruct (Ascii.eqb c LF); [cbn; lia|].
    specialize (IH (N.pred room)).
    destruct (fgets_buf (N.pred room) s) as [l t]. cbn [snd String.length] in *. lia.
Qed.

(** Every successful [fgets] consumes at least one character. *)
Lemma fgets_shorter (s raw t : string) :
  fgets MAX_LINE_LEN s = Some (raw, t) ->
  (String.length t < String.length s)%nat.
Proof.
  unfold fgets. destruct s as [|c s]; [discriminate|].
  cbn [fgets_buf]. change (N.pred MAX_LINE_LEN =? 0)%N with false. cbv iota.
  destruct (Ascii.eqb c LF).
  - intros [= _ <-]. cbn. lia.
  - pose proof (fgets_buf_le (N.pred (N.pred MAX_LINE_LEN)) s) as Hle.
    destruct (fgets_buf (N.pred (N.pred MAX_LINE_LEN)) s) as [l t'].
    intros [= _ <-]. cbn [snd String.length] in *. lia.
Qed.

Lemma load_rows_fold (fuel : nat) (s : string) (fs : FileStore) :
  load_rows fuel s fs = fold_left load_row (read_lines fuel s) fs.
Proof.
  revert s fs. induction fuel as [|fuel IH]; intros s fs; [reflexivity|].
  cbn [load_rows read_lines].
  destruct (fgets MAX_LINE_LEN s) as [[raw t]|]; [|reflexivity].
  cbn [fold_left]. apply IH.
Qed.

(** The fuel [String.length s] is enough: more fuel reads the same
    lines, so the loop ends at the end of the file. *)
Lemma read_lines_enough (fuel : nat) (s : string) :
  (String.length s <= fuel)%nat -> read_lines fuel s = read_lines (String.length s) s.
Proof.
  remember (String.length s) as n eqn:Hn. revert s fuel Hn.
  induction n as [n IH] using lt_wf_ind. intros s fuel Hn Hle.
  destruct s as [|c s].
  - cbn in Hn. subst n. destruct fuel; reflexivity.
  - cbn [String.length] in Hn. destruct fuel as [|fuel]; [lia|]. subst n.
    cbn [read_lines].
    destruct (fgets MAX_LINE_LEN (String c s)) as [[raw t]|] eqn:Hf; [|reflexivity].
    apply fgets_shorter in Hf. cbn [String.length] in Hf. f_equal.
    rewrite (IH (String.length t)) by (try reflexivity; lia).
    symmetry. apply (IH (String.length t)); try reflexivity; lia.
Qed.

(** So does the loop itself: it stops at the end of the file, not for
    lack of fuel. *)
Lemma load_rows_enough (fuel : nat) (s : string) (fs : FileStore) :
  (String.length s <= fuel)%nat ->
  load_rows fuel s fs = load_rows (String.length s) s fs.
Proof.
  intros H. rewrite !load_rows_fold, (read_lines_enough fuel s H). reflexivity.
Qed.

(** A file has at most as many lines as characters. *)
Lemma read_lines_length (fuel : nat) (s : string) :
  (length (read_lines fuel s) <= String.length s)%nat.
Proof.
  revert s. induction fuel as [|fuel IH]; intros s; cbn [read_lines]; [cbn; lia|].
  destruct (fgets MAX_LINE_LEN s) as [[raw t]|] eqn:Hf; [|cbn; lia].
  apply fgets_shorter in Hf. specialize (IH t). cbn [length]. lia.
Qed.

(** ** The table invariant *)

Lemma filestore_init_inv (pth : string) : fs_inv (filestore_init pth).
Proof.
  unfold fs_inv, filestore_init. cbn [id_to_idx ids cells n_nonid].
  split; [auto with tables|].
  split; [apply NoDup_nil_2|]. split; [reflexivity|]. split.
  - intros k e H. rewrite hmap_get_init in H. discriminate.
  - split; [intros i k H; discriminate | apply Forall_nil_2].
Qed.

Lemma fs_inv_key_in (fs : FileStore) (k : string) :
  fs_inv fs -> (is_Some (hmap_get (id_to_idx fs) k) <-> k ∈ ids fs).
Proof.
  intros (_ & _ & _ & Hget & Hids & _). split.
  - intros [e He]. destruct (Hget k e He) as [_ Hl].
    by_lookup.
  - intros H. apply list_elem_of_lookup in H as [i Hi].
    destruct (Hids i k Hi) as (e & He & _). eauto.
Qed.

Lemma filestore_add_row_inv (fs : FileStore) (id : string) :
  fs_inv fs -> hmap_get (id_to_idx fs) id = None ->
  Z.of_nat (nrows fs) <= INT_MAX ->
  fs_inv (fst (filestore_add_row fs id))
  /\ snd (filestore_add_row fs id) = Z.of_nat (nrows fs).
Proof.
  intros Hinv Hnone Hsmall.
  assert (id ∉ ids fs) as Hfresh.
  { rewrite <- fs_inv_key_in by assumption. rewrite Hnone. intros [? [=]]. }
  destruct Hinv as (Hwf & Hnd & Hlen & Hget & Hids & Hrows).
  unfold filestore_add_row, nrows in *. cbn [fst snd].
  rewrite to_int_small by lia. split; [|reflexivity].
  unfold fs_inv. cbn [id_to_idx ids cells n_nonid].
  split; [auto with tables|].
  split.
  { apply NoDup_app. split; [assumption|]. split.
    - intros x Hx Hx'. apply list_elem_of_singleton in Hx'. subst x. contradiction.
    - apply NoDup_singleton. }
  split; [rewrite !length_app, Hlen; reflexivity|].
  split.
  { intros k e He. destruct (decide (id = k)) as [<-|Hne].
    - rewrite hmap_get_put_eq in He by assumption. injection He as <-.
      cbn [value]. split; [lia|]. rewrite Nat2Z.id.
      rewrite lookup_app_r by lia. rewrite Nat.sub_diag. reflexivity.
    - rewrite hmap_get_put_ne in He by assumption.
      destruct (Hget k e He) as [H0 Hl]. split; [assumption|].
      apply lookup_app_l_Some. assumption. }
  split.
  { intros i k Hi. apply lookup_app_Some in Hi as [Hi|[Hge Hi]].
    - destruct (Hids i k Hi) as (e & He & Hv). exists e. split; [|assumption].
      rewrite hmap_get_put_ne; [assumption|].
      intros ->. apply Hfresh. by_lookup.
    - apply list_lookup_singleton_Some in Hi as [Hi <-].
      exists (mkEntry id (Z.of_nat (length (ids fs)))). split.
      + apply hmap_get_put_eq. assumption.
      + cbn [value]. f_equal. lia. }
  apply Forall_app. split; [assumption|].
  apply Forall_singleton. apply length_replicate.
Qed.

Lemma filestore_get_or_create_inv (fs : FileStore) (id : string) :
  fs_inv fs -> Z.of_nat (nrows fs) <= INT_MAX ->
  let fs1 := fst (filestore_get_or_create fs id) in
  let idx := snd (filestore_get_or_create fs id) in
  fs_inv fs1 /\ 0 <= idx /\ ids fs1 !! Z.to_nat idx = Some id
  /\ (nrows fs1 <= S (nrows fs))%nat.
Proof.
  intros Hinv Hsmall. unfold filestore_get_or_create.
  destruct (hmap_get (id_to_idx fs) id) as [e|] eqn:Hg; cbn zeta.
  - cbn [fst snd]. split; [assumption|].
    destruct Hinv as (_ & _ & _ & Hget & _).
    destruct (Hget id e Hg) as [H0 Hl]. split; [assumption|]. split; [assumption|]. lia.
  - destruct (filestore_add_row_inv fs id Hinv Hg Hsmall) as [Hinv' Hidx].
    split; [assumption|]. rewrite Hidx. split; [lia|]. split.
    + rewrite Nat2Z.id. unfold filestore_add_row. cbn [fst ids].
      unfold nrows. rewrite lookup_app_r by lia. rewrite Nat.sub_diag. reflexivity.
    + unfold filestore_add_row, nrows. cbn [fst ids]. rewrite length_app. cbn. lia.
Qed.

(** ** One data row *)

Section FieldLoop.

(** The key column, the number of non-key columns of the header, and the
    row index [filestore_get_or_create] returned. *)
Variables (idc nn : nat) (idx : Z).
Hypothesis Hidx : 0 <= idx.

Lemma merge_row_length (vals : list string) (k : nat)
    (row : list (option string)) :
  length (merge_row nn vals k row) = length row.
Proof.
  revert k row. induction vals as [|v vals IH]; intros k row; [reflexivity|].
  cbn [merge_row]. rewrite IH. destruct (k <? nn)%nat; [apply length_alter | reflexivity].
Qed.

Lemma merge_row_lookup (vals : list string) (k : nat)
    (row : list (option string)) (j : nat) (c : option string) :
  row !! j = Some c ->
  merge_row nn vals k row !! j
  = Some (if (k <=? j)%nat && (j <? nn)%nat
          then match vals !! (j - k)%nat with
               | Some v => append_cell_merge c v
               | None => c
               end
          else c).
Proof.
  revert k row c. induction vals as [|v vals IH]; intros k row c Hc.
  - cbn [merge_row]. rewrite Hc. rewrite lookup_nil.
    destruct ((k <=? j)%nat && (j <? nn)%nat); reflexivity.
  - cbn [merge_row].
    destruct (decide (j = k)) as [->|Hne].
    + assert ((S k <=? k)%nat = false) as Hf by decide_test.
      rewrite Nat.leb_refl, Nat.sub_diag. cbn [andb lookup list_lookup].
      destruct (k <? nn)%nat eqn:E.
      * rewrite (IH (S k) _ (append_cell_merge c v))
          by (rewrite list_lookup_alter_eq, Hc; reflexivity).
        rewrite Hf. reflexivity.
      * rewrite (IH (S k) _ c) by exact Hc. rewrite Hf. reflexivity.
    + assert ((if (k <? nn)%nat
               then alter (fun dst => append_cell_merge dst v) k row
               else row) !! j = Some c) as Hc'.
      { destruct (k <? nn)%nat; [|exact Hc].
        rewrite list_lookup_alter_ne by congruence. exact Hc. }
      rewrite (IH (S k) _ c Hc').
      destruct (k <=? j)%nat eqn:E1.
      * apply Nat.leb_le in E1.
        assert ((S k <=? j)%nat = true) as -> by decide_test.
        replace (j - k)%nat with (S (j - S k)) by lia. reflexivity.
      * apply Nat.leb_gt in E1.
        assert ((S k <=? j)%nat = false) as -> by decide_test.
        reflexivity.
Qed.

Lemma merge_into_alter (cs : list (list (option string))) (k : nat) (src : string) :
  merge_into cs idx k src
  = alter (alter (fun dst => append_cell_merge dst src) k) (Z.to_nat idx) cs.
Proof.
  unfold merge_into.
  destruct (idx <? 0) eqn:E; [apply Z.ltb_lt in E; lia | reflexivity].
Qed.

(** The field loop, with the key column passed over, is [merge_row] on
    the cell row of the key. *)
Lemma merge_fields_alter (fields : list string) (i k : nat)
    (cs : list (list (option string))) :
  merge_fields idc nn idx fields i k cs
  = alter (merge_row nn (nonkey_from idc i fields) k) (Z.to_nat idx) cs.
Proof.
  revert i k cs.
  induction fields as [|f fields IH]; intros i k cs.
  - cbn [merge_fields]. unfold nonkey_from.
    destruct (i <=? idc)%nat; cbn; symmetry; apply list_alter_id; reflexivity.
  - cbn [merge_fields]. destruct (i =? idc)%nat eqn:Ei.
    + apply Nat.eqb_eq in Ei. subst i. rewrite IH. unfold nonkey_from.
      rewrite Nat.leb_refl, Nat.sub_diag.
      assert ((S idc <=? idc)%nat = false) as -> by decide_test.
      reflexivity.
    + apply Nat.eqb_neq in Ei. rewrite IH.
      assert (nonkey_from idc i (f :: fields) = f :: nonkey_from idc (S i) fields) as ->.
      { unfold nonkey_from. destruct (i <=? idc)%nat eqn:E1.
        - apply Nat.leb_le in E1.
          assert ((S i <=? idc)%nat = true) as -> by decide_test.
          replace (idc - i)%nat with (S (idc - S i)) by lia. reflexivity.
        - apply Nat.leb_gt in E1.
          assert ((S i <=? idc)%nat = false) as -> by decide_test.
          reflexivity. }
      cbn [merge_row]. destruct (k <? nn)%nat.
      * rewrite merge_into_alter, list_alter_alter_eq. reflexivity.
      * reflexivity.
Qed.

End FieldLoop.

Lemma nonkey_from_0 (idc : nat) (fields : list string) :
  nonkey_from idc 0 fields = delete idc fields.
Proof. unfold nonkey_from. cbn. rewrite Nat.sub_0_r. reflexivity. Qed.

(** [load_row] in terms of the data row the line stands for. *)
Lemma load_row_data_row (fs : FileStore) (raw : string) :
  match data_row (delim fs) (id_col fs) raw with
  | None => load_row fs raw = fs
  | Some (id, vals) =>
      load_row fs raw
      = set_cells (fst (filestore_get_or_create fs id))
          (merge_fields (id_col fs) (n_nonid fs)
             (snd (filestore_get_or_create fs id))
             (parse_delim_line (trim_eol raw) (delim fs)) 0 0
             (cells (fst (filestore_get_or_create fs id))))
      /\ vals = delete (id_col fs) (parse_delim_line (trim_eol raw) (delim fs))
  end.
Proof.
  unfold data_row, load_row.
  destruct (str_is_empty (trim_eol raw)); [reflexivity|].
  set (fields := parse_delim_line (trim_eol raw) (delim fs)).
  destruct (length fields <=? id_col fs)%nat eqn:E.
  - destruct (length fields =? 0)%nat; reflexivity.
  - assert ((length fields =? 0)%nat = false) as ->.
    { apply Nat.eqb_neq. apply Nat.leb_gt in E. lia. }
    destruct (filestore_get_or_create fs _) as [fs1 idx]. cbn [fst snd].
    split; reflexivity.
Qed.

(** ** The data loop *)

Lemma same_header_refl (fs : FileStore) : same_header fs fs.
Proof. unfold same_header. repeat split; reflexivity. Qed.

Lemma same_header_trans (a b c : FileStore) :
  same_header a b -> same_header b c -> same_header a c.
Proof.
  unfold same_header.
  intros (?&?&?&?&?&?&?) (?&?&?&?&?&?&?). repeat split; congruence.
Qed.

Lemma filestore_get_or_create_header (fs : FileStore) (id : string) :
  same_header fs (fst (filestore_get_or_create fs id)).
Proof.
  unfold filestore_get_or_create.
  destruct (hmap_get (id_to_idx fs) id); cbn [fst]; [apply same_header_refl|].
  unfold same_header, filestore_add_row. cbn. repeat split; reflexivity.
Qed.

Lemma load_row_header (fs : FileStore) (raw : string) :
  same_header fs (load_row fs raw).
Proof.
  unfold load_row.
  destruct (str_is_empty _); [apply same_header_refl|].
  destruct (_ =? 0)%nat; [apply same_header_refl|].
  destruct (_ <=? _)%nat; [apply same_header_refl|].
  pose proof (filestore_get_or_create_header fs
    (default EmptyString (parse_delim_line (trim_eol raw) (delim fs) !! id_col fs))) as H.
  destruct (filestore_get_or_create fs _) as [fs1 idx]. cbn [fst] in H.
  unfold same_header in *. cbn. exact H.
Qed.

Lemma filestore_get_or_create_cases (fs : FileStore) (id : string) :
  fs_inv fs ->
  (id ∈ ids fs /\ fst (filestore_get_or_create fs id) = fs)
  \/ ((id ∉ ids fs)
      /\ ids (fst (filestore_get_or_create fs id)) = ids fs ++ [id]
      /\ cells (fst (filestore_get_or_create fs id))
         = cells fs ++ [replicate (n_nonid fs) None]).
Proof.
  intros Hinv. unfold filestore_get_or_create.
  destruct (hmap_get (id_to_idx fs) id) as [e|] eqn:Hg.
  - left. split; [|reflexivity]. apply fs_inv_key_in; [assumption|]. rewrite Hg. eauto.
  - right. split; [|split; reflexivity].
    rewrite <- fs_inv_key_in by assumption. rewrite Hg. intros [? [=]].
Qed.

Lemma set_cells_merge_inv (fs : FileStore) (nn : nat) (vals : list string)
    (k i : nat) :
  fs_inv fs ->
  fs_inv (set_cells fs (alter (merge_row nn vals k) i (cells fs))).
Proof.
  intros (Hwf & Hnd & Hlen & Hget & Hids & Hrows).
  unfold fs_inv, set_cells. cbn [id_to_idx ids cells n_nonid].
  split; [assumption|]. split; [assumption|].
  split; [rewrite length_alter; assumption|].
  split; [assumption|]. split; [assumption|].
  apply Forall_alter; [assumption|].
  intros row _ Hrow. rewrite merge_row_length. assumption.
Qed.

Lemma incoming_app (rows1 rows2 : list (string * list string)) (k : string) (j : nat) :
  incoming (rows1 ++ rows2) k j = incoming rows1 k j ++ incoming rows2 k j.
Proof. unfold incoming. apply omap_app. Qed.

Lemma incoming_absent (rows : list (string * list string)) (k : string) (j : nat) :
  k ∉ map fst rows -> incoming rows k j = [].
Proof.
  induction rows as [|[k' vs] rows IH]; intros Hk; [reflexivity|].
  cbn [map fst] in Hk. apply not_elem_of_cons in Hk as [Hne Hk].
  unfold incoming in *. cbn [omap list_omap fst snd].
  assert (String.eqb k' k = false) as -> by (apply string_eqb_false; congruence).
  apply IH. assumption.
Qed.

Lemma incoming_singleton (id : string) (vals : list string) (k : string) (j : nat) :
  incoming [(id, vals)] k j
  = if String.eqb id k
    then match vals !! j with Some v => [v] | None => [] end
    else [].
Proof.
  unfold incoming. cbn [omap list_omap fst snd].
  destruct (String.eqb id k); [|reflexivity].
  destruct (vals !! j); reflexivity.
Qed.

(** One data line keeps the loop invariant, with the row the line
    stands for added to the rows seen. *)
Lemma load_row_step (rows : list (string * list string)) (fs : FileStore)
    (raw : string) :
  load_inv rows fs ->
  Z.of_nat (length rows) <= INT_MAX ->
  load_inv (rows ++ option_list (data_row (delim fs) (id_col fs) raw))
    (load_row fs raw).
Proof.
  intros (Hinv & Hkeys & Hcells & Hlen) Hsmall.
  pose proof (load_row_data_row fs raw) as Hrow.
  destruct (data_row (delim fs) (id_col fs) raw) as [[id vals]|] eqn:Hd.
  2:{ rewrite Hrow. change (option_list None) with (@nil (string * list string)).
      rewrite app_nil_r.
      split; [assumption|]. split; [assumption|]. split; assumption. }
  destruct Hrow as [Hrow Hvals].
  change (option_list (Some (id, vals))) with [(id, vals)].
  assert (Z.of_nat (nrows fs) <= INT_MAX) as Hn by (unfold nrows; lia).
  pose proof (filestore_get_or_create_inv fs id Hinv Hn) as Hgc.
  pose proof (filestore_get_or_create_header fs id) as Hhd.
  pose proof (filestore_get_or_create_cases fs id Hinv) as Hcases.
  destruct (filestore_get_or_create fs id) as [fs1 idx].
  cbn [fst snd] in *. cbv zeta in Hgc.
  destruct Hgc as (Hinv1 & Hidx0 & Hidx & Hn1).
  rewrite merge_fields_alter, nonkey_from_0, <- Hvals in Hrow by assumption.
  rewrite Hrow. clear Hrow Hvals Hd.
  destruct Hhd as (_ & _ & _ & _ & _ & _ & Hnn).
  pose proof Hinv1 as (_ & Hnd1 & Hlen1 & _ & _ & Hrows1).
  assert (forall r k, ids fs1 !! r = Some k -> r <> Z.to_nat idx -> k <> id) as Hother.
  { intros r k Hr Hne ->. apply Hne. eapply NoDup_lookup; eassumption. }
  split; [apply set_cells_merge_inv; assumption|].
  split.
  { intros k. cbn [set_cells ids]. rewrite map_app, elem_of_app. cbn [map fst].
    rewrite list_elem_of_singleton, <- Hkeys.
    destruct Hcases as [[Hin ->]|(Hnin & Hids1 & _)].
    - split; [tauto|]. intros [H| ->]; assumption.
    - rewrite Hids1, elem_of_app, list_elem_of_singleton. tauto. }
  split.
  2:{ cbn [set_cells ids]. rewrite length_app. cbn [length].
      unfold nrows in Hn1. lia. }
  intros r k row j Hr Hrow Hj. cbn [set_cells ids cells n_nonid] in *.
  rewrite incoming_app, fold_left_app, incoming_singleton.
  (* the cell before this line *)
  assert (forall row1, cells fs1 !! r = Some row1 ->
            row1 !! j = Some (fold_left append_cell_merge (incoming rows k j) None))
    as Hbefore.
  { intros row1 Hrow1.
    destruct Hcases as [[Hin ->]|(Hnin & Hids1 & Hcells1)].
    - eapply Hcells; eassumption.
    - rewrite Hids1 in Hr. rewrite Hcells1 in Hrow1.
      apply lookup_app_Some in Hr as [Hr|[Hge Hr]].
      + rewrite lookup_app_l in Hrow1
          by (destruct Hinv as (_ & _ & -> & _); eapply lookup_lt_Some; eassumption).
        eapply Hcells; try eassumption. lia.
      + apply list_lookup_singleton_Some in Hr as [Hr <-].
        destruct Hinv as (_ & _ & Hlen0 & _).
        rewrite lookup_app_r in Hrow1 by lia.
        apply list_lookup_singleton_Some in Hrow1 as [_ <-].
        rewrite incoming_absent by (rewrite <- Hkeys; assumption).
        cbn [fold_left]. apply lookup_replicate. split; [reflexivity | lia]. }
  destruct (decide (r = Z.to_nat idx)) as [->|Hne].
  - rewrite Hidx in Hr. injection Hr as <-.
    rewrite String.eqb_refl.
    rewrite list_lookup_alter_eq in Hrow.
    destruct (cells fs1 !! Z.to_nat idx) as [row1|] eqn:Hrow1; [|discriminate].
    cbn [fmap option_fmap option_map] in Hrow. injection Hrow as <-.
    rewrite (merge_row_lookup _ _ _ _ _ _ (Hbefore row1 eq_refl)).
    cbn [Nat.leb andb]. rewrite Nat.sub_0_r.
    assert ((j <? n_nonid fs)%nat = true) as -> by decide_test.
    destruct (vals !! j); reflexivity.
  - rewrite list_lookup_alter_ne in Hrow by congruence.
    assert (String.eqb id k = false) as ->.
    { apply string_eqb_false. intros ->. eapply Hother; eauto. }
    cbn [fold_left]. apply Hbefore. assumption.
Qed.

Lemma load_rows_step (lines : list string) (rows : list (string * list string))
    (fs : FileStore) :
  load_inv rows fs ->
  Z.of_nat (length rows + length lines) <= INT_MAX + 1 ->
  load_inv (rows ++ omap (data_row (delim fs) (id_col fs)) lines)
    (fold_left load_row lines fs)
  /\ same_header fs (fold_left load_row lines fs).
Proof.
  revert rows fs. induction lines as [|raw lines IH]; intros rows fs Hinv Hlen.
  - cbn. rewrite app_nil_r. split; [assumption | apply same_header_refl].
  - cbn [fold_left]. cbn [length] in Hlen.
    pose proof (load_row_header fs raw) as Hh.
    assert (load_inv (rows ++ option_list (data_row (delim fs) (id_col fs) raw))
              (load_row fs raw)) as Hstep by (apply load_row_step; [assumption | lia]).
    specialize (IH _ _ Hstep).
    destruct Hh as (Hp & Hd & Hi & Hrest).
    rewrite Hd, Hi in IH.
    assert (omap (data_row (delim fs) (id_col fs)) (raw :: lines)
            = option_list (data_row (delim fs) (id_col fs) raw)
              ++ omap (data_row (delim fs) (id_col fs)) lines) as ->.
    { cbn [omap list_omap]. destruct (data_row _ _ raw); reflexivity. }
    rewrite app_assoc.
    destruct IH as [IH1 IH2].
    { rewrite length_app.
      destruct (data_row (delim fs) (id_col fs) raw); cbn; lia. }
    split; [assumption|].
    eapply same_header_trans; [|eassumption].
    unfold same_header. tauto.
Qed.

(** ** [load_file] *)

Lemma load_header_inv (pth raw : string) :
  load_inv [] (load_header (filestore_init pth) raw).
Proof.
  unfold load_inv, fs_inv, load_header, filestore_init.
  cbn [id_to_idx ids cells n_nonid map length].
  split.
  { split; [auto with tables|].
    split; [apply NoDup_nil_2|]. split; [reflexivity|]. split.
    - intros k e H. rewrite hmap_get_init in H. discriminate.
    - split; [intros i k H; discriminate | apply Forall_nil_2]. }
  split; [intros k; reflexivity|].
  split; [intros r k row j H; discriminate | lia].
Qed.

Lemma file_lines_fgets (data raw t : string) :
  fgets MAX_LINE_LEN data = Some (raw, t) ->
  file_lines data = raw :: read_lines (String.length t) t.
Proof.
  intros Hf. unfold file_lines.
  pose proof (fgets_shorter _ _ _ Hf) as Hlt.
  destruct (String.length data) as [|n] eqn:Hn; [lia|].
  cbn [read_lines]. rewrite Hf. f_equal. apply read_lines_enough. lia.
Qed.

Lemma file_lines_empty (data : string) :
  fgets MAX_LINE_LEN data = None -> file_lines data = [].
Proof.
  intros Hf. unfold file_lines.
  destruct (String.length data); cbn [read_lines]; [reflexivity|].
  rewrite Hf. reflexivity.
Qed.

(** [load_file] on a readable file returns, and the table it returns
    satisfies the loop invariant for the data rows of the file. *)
Lemma load_file_inv (pth data : string) :
  Z.of_nat (length (file_lines data)) <= INT_MAX ->
  exists fs,
    load_file (Some data) (filestore_init pth) = Ok fs
    /\ path fs = pth
    /\ load_inv (omap (data_row (delim fs) (id_col fs)) (tail (file_lines data))) fs.
Proof.
  intros Hlen. unfold load_file.
  destruct (fgets MAX_LINE_LEN data) as [[raw t]|] eqn:Hf.
  - rewrite (file_lines_fgets _ _ _ Hf) in *. cbn [tail length] in *.
    eexists. split; [reflexivity|].
    rewrite load_rows_fold.
    pose proof (load_rows_step (read_lines (String.length t) t) []
                  (load_header (filestore_init pth) raw)
                  (load_header_inv pth raw)) as [H1 H2].
    { cbn [length]. unfold INT_MAX in *. lia. }
    destruct H2 as (Hp & Hd & Hi & _).
    split; [rewrite Hp; reflexivity|].
    rewrite Hd, Hi. exact H1.
  - rewrite (file_lines_empty _ Hf). cbn [tail omap list_omap].
    eexists. split; [reflexivity|]. split; [reflexivity|].
    split; [apply filestore_init_inv|].
    split; [intros k; reflexivity|].
    split; [intros r k row j H; discriminate | cbn; lia].
Qed.

(** C8. After [load_file] has run on a readable file (of at most
    [INT_MAX] lines, so that row numbers fit the [int] the index stores),
    the stored keys are pairwise distinct, the index holds exactly the
    stored keys, each once, and it maps a key to a number exactly when
    that number is the position of the key's row in [ids] and [cells]. *)
Theorem load_file_index_invariant (pth data : string) :
  Z.of_nat (length (file_lines data)) <= INT_MAX ->
  exists fs,
    load_file (Some data) (filestore_init pth) = Ok fs
    /\ NoDup (ids fs)
    /\ NoDup (hmap_keys (id_to_idx fs))
    /\ (forall k : string, k ∈ hmap_keys (id_to_idx fs) <-> k ∈ ids fs)
    /\ (forall (k : string) (i : nat),
          (exists e, hmap_get (id_to_idx fs) k = Some e /\ value e = Z.of_nat i)
          <-> ids fs !! i = Some k)
    /\ length (cells fs) = length (ids fs).
Proof.
  intros Hlen. destruct (load_file_inv pth data Hlen) as (fs & Hload & _ & Hinv & _).
  exists fs. split; [assumption|].
  pose proof Hinv as (Hwf & Hnd & Hcl & Hget & Hids & _).
  split; [assumption|]. split; [apply Hwf|].
  split.
  { intros k. rewrite <- hmap_get_is_Some by assumption.
    apply fs_inv_key_in. assumption. }
  split; [|assumption].
  intros k i. split.
  - intros (e & He & Hv). destruct (Hget k e He) as [_ Hl].
    rewrite Hv, Nat2Z.id in Hl. assumption.
  - apply Hids.
Qed.

(** The witness of C8: a file with a repeated key. *)
Lemma load_file_index_invariant_witness :
  exists fs,
    load_file (Some ex_dup_file) (filestore_init "t.csv") = Ok fs
    /\ NoDup (ids fs)
    /\ NoDup (hmap_keys (id_to_idx fs))
    /\ (forall k : string, k ∈ hmap_keys (id_to_idx fs) <-> k ∈ ids fs)
    /\ (forall (k : string) (i : nat),
          (exists e, hmap_get (id_to_idx fs) k = Some e /\ value e = Z.of_nat i)
          <-> ids fs !! i = Some k)
    /\ length (cells fs) = length (ids fs).
Proof.
  apply (load_file_index_invariant "t.csv" ex_dup_file).
  vm_compute. discriminate.
Defined.

(** ** Merged cells *)

Lemma append_fold_Some (vals : list string) (a : string) :
  fold_left append_cell_merge vals (Some a)
  = Some (a +:+ str_concat (map (fun v => MERGE_SEP +:+ v)
                              (List.filter (fun v => negb (str_is_empty v)) vals))).
Proof.
  revert a. induction vals as [|v vals IH]; intros a.
  - cbn. rewrite str_app_nil_r. reflexivity.
  - cbn [fold_left List.filter]. unfold append_cell_merge at 2.
    destruct (str_is_empty v) eqn:E; cbn [negb]; [apply IH|].
    rewrite IH. cbn [map str_concat fold_right].
    rewrite !str_app_assoc. reflexivity.
Qed.

Lemma join_sep_cons (sep x : string) (rest : list string) :
  join_sep sep (x :: rest) = x +:+ str_concat (map (fun v => sep +:+ v) rest).
Proof.
  revert x. induction rest as [|y rest IH]; intros x.
  - cbn. rewrite str_app_nil_r. reflexivity.
  - change (join_sep sep (x :: y :: rest)) with (x +:+ sep +:+ join_sep sep (y :: rest)).
    rewrite IH. cbn [map str_concat fold_right]. rewrite !str_app_assoc. reflexivity.
Qed.

(** Merging the arriving values one by one gives the merged cell. *)
Lemma append_fold_merged (vals : list string) :
  fold_left append_cell_merge vals None = merged_value vals.
Proof.
  unfold merged_value. induction vals as [|v vals IH]; [reflexivity|].
  cbn [fold_left List.filter]. unfold append_cell_merge at 2.
  destruct (str_is_empty v) eqn:E; cbn [negb]; [apply IH|].
  rewrite append_fold_Some, join_sep_cons. reflexivity.
Qed.

(** ** No line feed inside a table *)

Lemma strchr_app (s t : string) (c : ascii) :
  strchr (s +:+ t) c = strchr s c || strchr t c.
Proof.
  induction s as [|a s IH]; [reflexivity|].
  rewrite str_app_cons. cbn [strchr]. rewrite IH, orb_assoc. reflexivity.
Qed.

Lemma lf_free_app (s t : string) : lf_free s -> lf_free t -> lf_free (s +:+ t).
Proof. unfold lf_free. intros Hs Ht. rewrite strchr_app, Hs, Ht. reflexivity. Qed.

Lemma lf_free_cons (c : ascii) (s : string) :
  lf_free (String c s) <-> c <> LF /\ lf_free s.
Proof.
  unfold lf_free. cbn [strchr]. rewrite orb_false_iff, ascii_eqb_false. reflexivity.
Qed.

Lemma lf_free_snoc (s : string) (c : ascii) :
  lf_free s -> c <> LF -> lf_free (str_snoc s c).
Proof.
  intros Hs Hc. apply lf_free_app; [assumption|].
  apply lf_free_cons. split; [assumption | reflexivity].
Qed.

(** What [fgets] delivers has its line feed, if any, at the very end,
    where [trim_eol] removes it. *)
Lemma fgets_buf_trim_clean (room : N) (s : string) :
  lf_free (trim_eol (cstr (fst (fgets_buf room s)))).
Proof.
  revert room. induction s as [|c s IH]; intros room; cbn [fgets_buf].
  - reflexivity.
  - destruct (room =? 0)%N; [reflexivity|].
    destruct (Ascii.eqb c LF) eqn:Hc.
    + apply ascii_eqb_true in Hc. subst c. reflexivity.
    + apply ascii_eqb_false in Hc. specialize (IH (N.pred room)).
      destruct (fgets_buf (N.pred room) s) as [l t]. cbn [fst] in *.
      cbn [cstr]. destruct (Ascii.eqb c NUL); [reflexivity|].
      cbn [trim_eol].
      destruct (str_is_empty (trim_eol (cstr l)) && (Ascii.eqb c LF || Ascii.eqb c CR));
        [reflexivity|].
      apply lf_free_cons. split; assumption.
Qed.

Lemma fgets_trim_clean (s raw t : string) :
  fgets MAX_LINE_LEN s = Some (raw, t) -> lf_free (trim_eol raw).
Proof.
  unfold fgets. destruct s as [|c s]; [discriminate|].
  pose proof (fgets_buf_trim_clean (N.pred MAX_LINE_LEN) (String c s)) as H.
  destruct (fgets_buf (N.pred MAX_LINE_LEN) (String c s)) as [l t'].
  intros [= <- _]. exact H.
Qed.

Lemma read_lines_clean (fuel : nat) (s : string) :
  Forall (fun raw => lf_free (trim_eol raw)) (read_lines fuel s).
Proof.
  revert s. induction fuel as [|fuel IH]; intros s; cbn [read_lines];
    [apply Forall_nil_2|].
  destruct (fgets MAX_LINE_LEN s) as [[raw t]|] eqn:Hf; [|apply Forall_nil_2].
  apply Forall_cons. split; [eapply fgets_trim_clean; eassumption | apply IH].
Qed.

Lemma parse_loop_cons (d : ascii) (q : bool) (buf : string) (c : ascii) (rest : string) :
  parse_loop d q buf (String c rest)
  = if q then
      if Ascii.eqb c DQUOTE then
        match rest with
        | String c1 rest' =>
            if Ascii.eqb c1 DQUOTE
            then parse_loop d true (str_snoc buf DQUOTE) rest'
            else parse_loop d false buf rest
        | EmptyString => parse_loop d false buf rest
        end
      else parse_loop d true (str_snoc buf c) rest
    else
      if Ascii.eqb c DQUOTE then parse_loop d true buf rest
      else if Ascii.eqb c d then buf :: parse_loop d false EmptyString rest
      else parse_loop d false (str_snoc buf c) rest.
Proof. reflexivity. Qed.

(** The parser only copies characters of the line. *)
Lemma parse_loop_clean_aux (d : ascii) (p : string) :
  (forall q buf, lf_free p -> lf_free buf -> Forall lf_free (parse_loop d q buf p))
  /\ (forall c q buf, lf_free (String c p) -> lf_free buf ->
        Forall lf_free (parse_loop d q buf (String c p))).
Proof.
  induction p as [|a p [IH1 IH2]].
  - assert (forall q buf, lf_free EmptyString -> lf_free buf ->
              Forall lf_free (parse_loop d q buf EmptyString)) as H0.
    { intros q buf _ Hb. cbn. apply Forall_singleton. assumption. }
    split; [exact H0|].
    intros c q buf Hc Hb. apply lf_free_cons in Hc as [Hc He].
    rewrite parse_loop_cons. destruct q.
    + destruct (Ascii.eqb c DQUOTE); [apply H0; assumption|].
      apply H0; [assumption|]. apply lf_free_snoc; assumption.
    + destruct (Ascii.eqb c DQUOTE); [apply H0; assumption|].
      destruct (Ascii.eqb c d).
      * apply Forall_cons. split; [assumption|]. apply H0; [assumption | reflexivity].
      * apply H0; [assumption|]. apply lf_free_snoc; assumption.
  - split; [exact (IH2 a)|].
    intros c q buf Hc Hb.
    apply lf_free_cons in Hc as [Hc Hp]. pose proof Hp as Hp'.
    apply lf_free_cons in Hp' as [Ha Hp'].
    rewrite parse_loop_cons. destruct q.
    + destruct (Ascii.eqb c DQUOTE).
      * destruct (Ascii.eqb a DQUOTE).
        -- apply IH1; [assumption|]. apply lf_free_snoc; [assumption | discriminate].
        -- apply IH2; assumption.
      * apply IH2; [assumption|]. apply lf_free_snoc; assumption.
    + destruct (Ascii.eqb c DQUOTE); [apply IH2; assumption|].
      destruct (Ascii.eqb c d).
      * apply Forall_cons. split; [assumption|]. apply IH2; [assumption | reflexivity].
      * apply IH2; [assumption|]. apply lf_free_snoc; assumption.
Qed.

Lemma parse_delim_line_clean (line : string) (d : ascii) :
  lf_free line -> Forall lf_free (parse_delim_line line d).
Proof.
  intros H. apply (proj1 (parse_loop_clean_aux d line)); [assumption | reflexivity].
Qed.

Lemma data_row_clean (d : ascii) (idc : nat) (raw k : string) (vals : list string) :
  lf_free (trim_eol raw) -> data_row d idc raw = Some (k, vals) ->
  lf_free k /\ Forall lf_free vals.
Proof.
  intros Hraw. unfold data_row.
  destruct (str_is_empty (trim_eol raw)); [discriminate|].
  pose proof (parse_delim_line_clean _ d Hraw) as Hf.
  destruct (length _ <=? idc)%nat; [discriminate|].
  intros [= <- <-]. split.
  - destruct (parse_delim_line (trim_eol raw) d !! idc) as [k|] eqn:Hk; [|reflexivity].
    cbn. rewrite Forall_forall in Hf. apply Hf. by_lookup.
  - apply Forall_delete. assumption.
Qed.

Lemma join_sep_clean (l : list string) :
  Forall lf_free l -> lf_free (join_sep MERGE_SEP l).
Proof.
  induction l as [|x l IH]; intros H; [reflexivity|].
  apply Forall_cons in H as [Hx Hl]. rewrite join_sep_cons.
  apply lf_free_app; [assumption|]. clear IH Hx.
  induction l as [|y l IH]; [reflexivity|].
  apply Forall_cons in Hl as [Hy Hl]. cbn [map str_concat fold_right].
  apply lf_free_app; [apply lf_free_app; [reflexivity | assumption]|].
  apply IH. assumption.
Qed.

Lemma merged_value_clean (vals : list string) :
  Forall lf_free vals -> lf_free (default EmptyString (merged_value vals)).
Proof.
  intros H. unfold merged_value.
  assert (Forall lf_free (List.filter (fun v => negb (str_is_empty v)) vals)) as Hf.
  { rewrite Forall_forall in H. rewrite Forall_forall. intros x Hx.
    apply list_elem_of_In, filter_In in Hx as [Hx _]. apply H, list_elem_of_In, Hx. }
  destruct (List.filter _ vals) as [|x l] eqn:E; [reflexivity|].
  cbn [default from_option id]. apply join_sep_clean. assumption.
Qed.

Lemma incoming_clean (rows : list (string * list string)) (k : string) (j : nat) :
  Forall (fun r => Forall lf_free (snd r)) rows -> Forall lf_free (incoming rows k j).
Proof.
  intros H. rewrite Forall_forall in H. rewrite Forall_forall. intros v Hv.
  apply list_elem_of_omap in Hv as (r & Hr & Hv).
  destruct (String.eqb (fst r) k); [|discriminate].
  specialize (H r Hr). rewrite Forall_forall in H. apply H.
  by_lookup.
Qed.

(** The table of a loaded file holds no line feed. *)
Lemma load_file_clean (pth data : string) (fs : FileStore) :
  Z.of_nat (length (file_lines data)) <= INT_MAX ->
  load_file (Some data) (filestore_init pth) = Ok fs ->
  fs_clean fs.
Proof.
  intros Hlen Hload.
  destruct (load_file_inv pth data Hlen) as (fs' & Hload' & _ & Hinv).
  rewrite Hload in Hload'. injection Hload' as <-.
  destruct Hinv as (Hinv & Hkeys & Hcells & _).
  set (rows := omap (data_row (delim fs) (id_col fs)) (tail (file_lines data))) in *.
  assert (Forall (fun r => lf_free (fst r) /\ Forall lf_free (snd r)) rows) as Hrows.
  { rewrite Forall_forall. intros [k vals] Hr.
    apply list_elem_of_omap in Hr as (raw & Hraw & Hd).
    eapply data_row_clean; [|eassumption].
    pose proof (read_lines_clean (String.length data) data) as Hc.
    rewrite Forall_forall in Hc. apply Hc.
    unfold file_lines in Hraw. destruct (read_lines _ data); [|apply list_elem_of_further];
      exact Hraw. }
  split.
  - rewrite Forall_forall. intros k Hk. apply Hkeys in Hk.
    apply list_elem_of_In, in_map_iff in Hk as ([k' vals] & <- & Hr).
    rewrite Forall_forall in Hrows. apply (Hrows (k', vals)). apply list_elem_of_In, Hr.
  - rewrite Forall_forall. intros row Hrow.
    apply list_elem_of_lookup in Hrow as [r Hr].
    destruct (ids fs !! r) as [k|] eqn:Hk.
    2:{ apply lookup_ge_None in Hk. apply lookup_lt_Some in Hr.
        destruct Hinv as (_ & _ & Hl & _). lia. }
    rewrite Forall_forall. intros c Hc. apply list_elem_of_lookup in Hc as [j Hj].
    assert (j < n_nonid fs)%nat as Hjn.
    { destruct Hinv as (_ & _ & _ & _ & _ & Hw). rewrite Forall_forall in Hw.
      rewrite <- (Hw row) by (by_lookup).
      eapply lookup_lt_Some; eassumption. }
    rewrite (Hcells r k row j Hk Hr Hjn) in Hj. injection Hj as <-.
    rewrite append_fold_merged. apply merged_value_clean, incoming_clean.
    eapply Forall_impl; [exact Hrows|]. intros r0 [_ H]. exact H.
Qed.

Lemma load_all_clean (w : World) (files : list string) (stores : list FileStore) :
  load_all w files = Ok stores ->
  (forall p data, p ∈ files -> file_content w p = Some data ->
     Z.of_nat (length (file_lines data)) <= INT_MAX) ->
  Forall fs_clean stores.
Proof.
  revert stores. induction files as [|q files IH]; intros stores Hload Hb.
  - cbn in Hload. injection Hload as <-. apply Forall_nil_2.
  - cbn [load_all] in Hload.
    destruct (file_content w q) as [data|] eqn:Hq; [|discriminate].
    destruct (load_file (Some data) (filestore_init q)) as [fs|] eqn:Hfs; [|discriminate].
    cbn [bind] in Hload.
    destruct (load_all w files) as [l|] eqn:Hl; [|discriminate].
    cbn [bind] in Hload. injection Hload as <-.
    apply Forall_cons. split.
    + eapply load_file_clean; [|eassumption].
      eapply Hb; [apply list_elem_of_here | eassumption].
    + apply IH; [reflexivity|]. intros p d Hp Hd.
      eapply Hb; [apply list_elem_of_further|]; eassumption.
Qed.

(** ** [build_eligible_ids] *)

Lemma claims_put_fold (l : list string) (cu : HMap) :
  hmap_wf cu ->
  hmap_wf (fold_left (fun cu id => hmap_put cu id (-1) true) l cu)
  /\ forall k : string,
       is_Some (hmap_get (fold_left (fun cu id => hmap_put cu id (-1) true) l cu) k)
       <-> is_Some (hmap_get cu k) \/ k ∈ l.
Proof.
  revert cu. induction l as [|id l IH]; intros cu Hwf.
  - cbn [fold_left]. split; [assumption|]. intros k. rewrite elem_of_nil. tauto.
  - cbn [fold_left].
    destruct (IH (hmap_put cu id (-1) true) (hmap_put_wf _ _ _ _ Hwf)) as [IH1 IH2].
    split; [assumption|]. intros k. rewrite IH2, elem_of_cons.
    destruct (decide (id = k)) as [->|Hne].
    + rewrite hmap_get_put_eq by assumption. split; [intros _; right; left; reflexivity|].
      intros _. left. eexists. reflexivity.
    + rewrite hmap_get_put_ne by assumption. split; [tauto|].
      intros [H|[H|H]]; [tauto | congruence | tauto].
Qed.

Lemma claims_fold_spec (stores : list FileStore) (st : HMap * bool) :
  hmap_wf (fst st) ->
  hmap_wf (fst (fold_left claims_step stores st))
  /\ (snd (fold_left claims_step stores st) = true
      <-> snd st = true \/ exists c, c ∈ stores /\ is_claim c = true)
  /\ forall k : string,
       is_Some (hmap_get (fst (fold_left claims_step stores st)) k)
       <-> is_Some (hmap_get (fst st) k)
           \/ exists c, c ∈ stores /\ is_claim c = true /\ k ∈ ids c.
Proof.
  revert st. induction stores as [|fs stores IH]; intros st Hwf.
  - cbn [fold_left]. split; [assumption|]. split.
    + split; [tauto|]. intros [H|(c & Hc & _)]; [assumption|].
      apply elem_of_nil in Hc. contradiction.
    + intros k. split; [tauto|]. intros [H|(c & Hc & _)]; [assumption|].
      apply elem_of_nil in Hc. contradiction.
  - cbn [fold_left]. unfold claims_step at 2 4 6.
    destruct (is_claim fs) eqn:Hfs.
    + destruct (claims_put_fold (ids fs) (fst st) Hwf) as [Hwf' Hk'].
      destruct (IH (fold_left (fun cu id => hmap_put cu id (-1) true) (ids fs) (fst st), true)
                  Hwf') as (IH1 & IH2 & IH3).
      split; [assumption|]. split.
      * rewrite IH2. cbn [snd]. split; [|tauto].
        intros _. right. exists fs. split; [apply list_elem_of_here | assumption].
      * intros k. rewrite IH3. cbn [fst]. rewrite Hk'. split.
        -- intros [[H|H]|(c & Hc & Hcl & Hkc)].
           ++ left. assumption.
           ++ right. exists fs. split; [apply list_elem_of_here|]. split; assumption.
           ++ right. exists c. split; [apply list_elem_of_further; assumption|].
              split; assumption.
        -- intros [H|(c & Hc & Hcl & Hkc)]; [tauto|].
           apply elem_of_cons in Hc as [->|Hc]; [tauto|].
           right. exists c. split; [assumption|]. split; assumption.
    + destruct (IH st Hwf) as (IH1 & IH2 & IH3).
      split; [assumption|]. split.
      * rewrite IH2. split.
        -- intros [H|(c & Hc & Hcl)]; [tauto|]. right. exists c.
           split; [apply list_elem_of_further; assumption | assumption].
        -- intros [H|(c & Hc & Hcl)]; [tauto|].
           apply elem_of_cons in Hc as [->|Hc]; [congruence|].
           right. exists c. split; assumption.
      * intros k. rewrite IH3. split.
        -- intros [H|(c & Hc & Hcl & Hkc)]; [tauto|]. right. exists c.
           split; [apply list_elem_of_further; assumption|]. split; assumption.
        -- intros [H|(c & Hc & Hcl & Hkc)]; [tauto|].
           apply elem_of_cons in Hc as [->|Hc]; [congruence|].
           right. exists c. split; [assumption|]. split; assumption.
Qed.

(** The first loop: the union of the claims keys and the claims flag. *)
Lemma claims_scan_spec (stores : list FileStore) :
  hmap_wf (fst (claims_scan stores))
  /\ (snd (claims_scan stores) = true <-> exists c, c ∈ stores /\ is_claim c = true)
  /\ forall k : string,
       is_Some (hmap_get (fst (claims_scan stores)) k)
       <-> exists c, c ∈ stores /\ is_claim c = true /\ k ∈ ids c.
Proof.
  unfold claims_scan.
  destruct (claims_fold_spec stores (hmap_init HASH_BUCKETS, false)) as (H1 & H2 & H3).
  { cbn [fst]. auto with tables. }
  split; [assumption|]. split.
  - rewrite H2. cbn [snd]. split; [intros [H|H]; [discriminate | assumption] | tauto].
  - intros k. rewrite H3. cbn [fst]. rewrite hmap_get_init.
    split; [intros [[? [=]]|H]; assumption | tauto].
Qed.

Lemma find_base_ok (rest seen : list FileStore) (b : Z) :
  base_ok seen b ->
  base_ok (seen ++ rest) (find_base (seen ++ rest) rest (length seen) b).
Proof.
  revert seen b. induction rest as [|fs rest IH]; intros seen b Hb.
  - cbn [find_base]. rewrite app_nil_r. assumption.
  - cbn [find_base].
    set (b' := if negb (is_claim fs)
                  && ((b =? -1) || (nrows fs <? nrows_at (seen ++ fs :: rest) b)%nat)
               then Z.of_nat (length seen) else b).
    assert (base_ok (seen ++ [fs]) b') as Hb'.
    { subst b'. destruct (is_claim fs) eqn:Hfs; cbn [negb andb].
      - destruct Hb as [[-> Hall]|(H0 & base & Hl & Hp & Hmin)].
        + left. split; [reflexivity|]. intros p Hp.
          apply elem_of_app in Hp as [Hp|Hp]; [auto|].
          apply list_elem_of_singleton in Hp. subst p. assumption.
        + right. split; [assumption|]. exists base.
          split; [apply lookup_app_l_Some; assumption|]. split; [assumption|].
          intros p Hin Hprim. apply elem_of_app in Hin as [Hin|Hin]; [auto|].
          apply list_elem_of_singleton in Hin. subst p. congruence.
      - destruct Hb as [[-> Hall]|(H0 & base & Hl & Hp & Hmin)].
        + change (-1 =? -1) with true. cbn [orb]. right. split; [lia|]. exists fs.
          rewrite Nat2Z.id. split; [apply list_lookup_middle; reflexivity|].
          split; [assumption|]. intros p Hin Hprim.
          apply elem_of_app in Hin as [Hin|Hin].
          * specialize (Hall p Hin). congruence.
          * apply list_elem_of_singleton in Hin. subst p. lia.
        + assert ((b =? -1) = false) as -> by decide_test.
          cbn [orb].
          assert (nrows_at (seen ++ fs :: rest) b = nrows base) as ->.
          { unfold nrows_at. rewrite (lookup_app_l_Some _ _ _ _ Hl). reflexivity. }
          destruct (nrows fs <? nrows base)%nat eqn:E.
          * apply Nat.ltb_lt in E. right. split; [lia|]. exists fs.
            rewrite Nat2Z.id. split; [apply list_lookup_middle; reflexivity|].
            split; [assumption|]. intros p Hin Hprim.
            apply elem_of_app in Hin as [Hin|Hin].
            -- specialize (Hmin p Hin Hprim). lia.
            -- apply list_elem_of_singleton in Hin. subst p. lia.
          * apply Nat.ltb_ge in E. right. split; [assumption|]. exists base.
            split; [apply lookup_app_l_Some; assumption|]. split; [assumption|].
            intros p Hin Hprim. apply elem_of_app in Hin as [Hin|Hin]; [auto|].
            apply list_elem_of_singleton in Hin. subst p. assumption. }
    specialize (IH (seen ++ [fs]) b' Hb').
    rewrite <- app_assoc in IH. cbn [app] in IH.
    rewrite length_app in IH. cbn [length] in IH.
    rewrite Nat.add_1_r in IH. exact IH.
Qed.

(** The second loop: -1 when every table is a claims table, otherwise
    the index of a non-claims table with the fewest rows. *)
Lemma find_base_spec (stores : list FileStore) :
  base_ok stores (find_base stores stores 0 (-1)).
Proof.
  apply (find_base_ok stores [] (-1)).
  left. split; [reflexivity|]. intros p Hp. apply elem_of_nil in Hp. contradiction.
Qed.

Lemma in_other_primaries_spec (rest : list FileStore) (i : nat) (b : Z) (id : string) :
  in_other_primaries rest i b id = true
  <-> forall (j : nat) (p : FileStore),
        rest !! j = Some p -> Z.of_nat (i + j) <> b -> is_claim p = false ->
        is_Some (hmap_get (id_to_idx p) id).
Proof.
  revert i. induction rest as [|fs rest IH]; intros i.
  - cbn [in_other_primaries]. split; [|reflexivity]. intros _ j p H. discriminate.
  - cbn [in_other_primaries].
    destruct ((Z.of_nat i =? b) || is_claim fs) eqn:Hskip.
    + rewrite IH. split.
      * intros H [|j] p Hj Hne Hp.
        -- cbn in Hj. injection Hj as <-. rewrite Nat.add_0_r in Hne.
           apply orb_true_iff in Hskip as [Hs|Hs]; [apply Z.eqb_eq in Hs|]; congruence.
        -- cbn in Hj. apply (H j p Hj); [|assumption].
           replace (S i + j)%nat with (i + S j)%nat by lia. assumption.
      * intros H j p Hj Hne Hp. apply (H (S j) p Hj); [|assumption].
        replace (i + S j)%nat with (S i + j)%nat by lia. assumption.
    + apply orb_false_iff in Hskip as [Hs1 Hs2]. apply Z.eqb_neq in Hs1.
      destruct (hmap_get (id_to_idx fs) id) as [e|] eqn:Hg.
      * rewrite IH. split.
        -- intros H [|j] p Hj Hne Hp.
           ++ cbn in Hj. injection Hj as <-. rewrite Hg. eauto.
           ++ cbn in Hj. apply (H j p Hj); [|assumption].
              replace (S i + j)%nat with (i + S j)%nat by lia. assumption.
        -- intros H j p Hj Hne Hp. apply (H (S j) p Hj); [|assumption].
           replace (i + S j)%nat with (S i + j)%nat by lia. assumption.
      * split; [discriminate|]. intros H.
        specialize (H 0%nat fs eq_refl). rewrite Nat.add_0_r in H.
        specialize (H Hs1 Hs2). rewrite Hg in H. destruct H as [? [=]].
Qed.

(** The eligible keys of tables that satisfy the table invariant. *)
Lemma build_eligible_ids_inv (stores : list FileStore) :
  Forall fs_inv stores ->
  NoDup (build_eligible_ids stores)
  /\ ((exists p, p ∈ stores /\ is_claim p = false) ->
      exists (b : nat) (base : FileStore),
        stores !! b = Some base
        /\ is_claim base = false
        /\ (forall p, p ∈ stores -> is_claim p = false -> (nrows base <= nrows p)%nat)
        /\ forall k : string,
             k ∈ build_eligible_ids stores
             <-> k ∈ ids base
                 /\ (forall (i : nat) (p : FileStore),
                       stores !! i = Some p -> i <> b -> is_claim p = false ->
                       k ∈ ids p)
                 /\ ((exists c, c ∈ stores /\ is_claim c = true) ->
                     exists c, c ∈ stores /\ is_claim c = true /\ k ∈ ids c))
  /\ ((forall p, p ∈ stores -> is_claim p = true) ->
      forall k : string,
        k ∈ build_eligible_ids stores
        <-> exists c, c ∈ stores /\ is_claim c = true /\ k ∈ ids c).
Proof.
  intros Hinv. unfold build_eligible_ids.
  pose proof (claims_scan_spec stores) as (Hcw & Hhc & Hcu).
  pose proof (find_base_spec stores) as Hbase.
  destruct (claims_scan stores) as [cu hc]. cbn [fst snd] in *.
  destruct Hbase as [[Hb Hall]|(H0 & base & Hl & Hprim & Hmin)].
  - rewrite Hb. change (-1 =? -1) with true. cbv iota.
    assert (forall k, k ∈ (if negb hc then [] else hmap_keys cu)
                      <-> exists c, c ∈ stores /\ is_claim c = true /\ k ∈ ids c) as Hk.
    { intros k. rewrite <- Hcu. destruct hc; cbn [negb].
      - symmetry. apply hmap_get_is_Some. assumption.
      - rewrite Hcu. split; [intros H; apply elem_of_nil in H; contradiction|].
        intros (c & Hc & Hcl & _). exfalso.
        assert (false = true) by (apply Hhc; eauto). discriminate. }
    split; [destruct hc; cbn [negb]; [apply Hcw | apply NoDup_nil_2]|].
    split; [|intros _; exact Hk].
    intros (p & Hp & Hpp). specialize (Hall p Hp). congruence.
  - assert ((find_base stores stores 0 (-1) =? -1) = false) as ->
      by decide_test.
    rewrite Hl.
    assert (fs_inv base) as Hbinv.
    { rewrite Forall_forall in Hinv. apply Hinv. by_lookup. }
    split; [apply NoDup_filter; apply Hbinv|].
    split.
    2:{ intros Hall. exfalso.
        assert (is_claim base = true) by (apply Hall, list_elem_of_lookup; eauto).
        congruence. }
    intros _. exists (Z.to_nat (find_base stores stores 0 (-1))), base.
    split; [assumption|]. split; [assumption|]. split; [assumption|].
    intros k. rewrite list_elem_of_filter. unfold eligible_test.
    rewrite andb_true_iff, in_other_primaries_spec.
    split.
    + intros [[Hothers Hclaims] Hk]. split; [assumption|]. split.
      * intros i p Hi Hne Hp.
        assert (fs_inv p) as Hpinv.
        { rewrite Forall_forall in Hinv. apply Hinv. by_lookup. }
        apply (fs_inv_key_in p k Hpinv). apply (Hothers i p Hi); [|assumption].
        cbn [Nat.add]. lia.
      * intros Hc. apply Hhc in Hc. subst hc. apply Hcu.
        destruct (hmap_get cu k); [eauto | discriminate].
    + intros (Hk & Hothers & Hclaims). split; [|assumption]. split.
      * intros j p Hj Hne Hp.
        assert (fs_inv p) as Hpinv.
        { rewrite Forall_forall in Hinv. apply Hinv. by_lookup. }
        apply (fs_inv_key_in p k Hpinv). apply (Hothers j p Hj); [|assumption].
        cbn [Nat.add] in Hne. lia.
      * destruct hc; [|reflexivity].
        assert (is_Some (hmap_get cu k)) as [e ->]; [|reflexivity].
        apply Hcu, Hclaims, Hhc. reflexivity.
Qed.

(** Every input that can be opened is loaded, and the tables satisfy the
    table invariant. *)
Lemma load_all_ok (w : World) (files : list string) :
  (forall p, p ∈ files ->
     exists data, file_content w p = Some data
                  /\ Z.of_nat (length (file_lines data)) <= INT_MAX) ->
  exists stores,
    load_all w files = Ok stores
    /\ Forall fs_inv stores
    /\ map path stores = files.
Proof.
  induction files as [|p files IH]; intros Hfiles.
  - exists []. split; [reflexivity|]. split; [apply Forall_nil_2 | reflexivity].
  - destruct (Hfiles p (list_elem_of_here _ _)) as (data & Hdata & Hlen).
    destruct (load_file_inv p data Hlen) as (fs & Hload & Hpath & Hinv & _).
    destruct IH as (stores & Hall & Hinvs & Hpaths).
    { intros q Hq. apply Hfiles. apply list_elem_of_further. assumption. }
    exists (fs :: stores). cbn [load_all]. rewrite Hdata, Hload. cbn [bind].
    rewrite Hall. cbn [bind]. split; [reflexivity|].
    split; [apply Forall_cons; split; assumption|].
    cbn [map]. rewrite Hpath, Hpaths. reflexivity.
Qed.

(** C1. In a run whose input files are all loaded (each of at most
    [INT_MAX] lines), the eligible keys are pairwise distinct and:
    when there is a non-claims (Primary) table, they are exactly the keys
    of a Primary table with the fewest rows that occur in every other
    Primary table and, when a Claims table exists, in some Claims table;
    when every table is a Claims table, they are exactly the keys of the
    Claims tables; for two Primary tables and nothing else, they are the
    keys common to both. *)
Theorem eligible_keys_spec (w : World) (files : list string) :
  (forall p, p ∈ files ->
     exists data, file_content w p = Some data
                  /\ Z.of_nat (length (file_lines data)) <= INT_MAX) ->
  exists stores,
    load_all w files = Ok stores
    /\ NoDup (build_eligible_ids stores)
    /\ ((exists p, p ∈ stores /\ is_claim p = false) ->
        exists (b : nat) (base : FileStore),
          stores !! b = Some base
          /\ is_claim base = false
          /\ (forall p, p ∈ stores -> is_claim p = false -> (nrows base <= nrows p)%nat)
          /\ forall k : string,
               k ∈ build_eligible_ids stores
               <-> k ∈ ids base
                   /\ (forall (i : nat) (p : FileStore),
                         stores !! i = Some p -> i <> b -> is_claim p = false ->
                         k ∈ ids p)
                   /\ ((exists c, c ∈ stores /\ is_claim c = true) ->
                       exists c, c ∈ stores /\ is_claim c = true /\ k ∈ ids c))
    /\ ((forall p, p ∈ stores -> is_claim p = true) ->
        forall k : string,
          k ∈ build_eligible_ids stores
          <-> exists c, c ∈ stores /\ is_claim c = true /\ k ∈ ids c)
    /\ (forall A B : FileStore,
          stores = [A; B] -> is_claim A = false -> is_claim B = false ->
          forall k : string,
            k ∈ build_eligible_ids stores <-> k ∈ ids A /\ k ∈ ids B).
Proof.
  intros Hfiles. destruct (load_all_ok w files Hfiles) as (stores & Hload & Hinv & _).
  exists stores. split; [assumption|].
  destruct (build_eligible_ids_inv stores Hinv) as (Hnd & Hprim & Hclaims).
  split; [assumption|]. split; [assumption|]. split; [assumption|].
  intros A B -> HA HB k.
  destruct Hprim as (b & base & Hb & _ & _ & Hk).
  { exists A. split; [apply list_elem_of_here | assumption]. }
  rewrite Hk. clear Hk.
  assert (forall c, c ∈ [A; B] -> is_claim c = true -> False) as Hnoclaims.
  { intros c Hc Hcl. apply elem_of_cons in Hc as [->|Hc]; [congruence|].
    apply list_elem_of_singleton in Hc. subst c. congruence. }
  destruct b as [|[|b]]; cbn in Hb; [| |discriminate]; injection Hb as <-.
  - split.
    + intros (Hk & Hothers & _). split; [assumption|].
      apply (Hothers 1%nat B); [reflexivity | lia | assumption].
    + intros [HkA HkB]. split; [assumption|]. split.
      * intros [|[|i]] p Hi Hne Hp; [lia | | discriminate].
        cbn in Hi. injection Hi as <-. assumption.
      * intros (c & Hc & Hcl). exfalso. eauto.
  - split.
    + intros (Hk & Hothers & _). split; [|assumption].
      apply (Hothers 0%nat A); [reflexivity | lia | assumption].
    + intros [HkA HkB]. split; [assumption|]. split.
      * intros [|[|i]] p Hi Hne Hp; [| lia | discriminate].
        cbn in Hi. injection Hi as <-. assumption.
      * intros (c & Hc & Hcl). exfalso. eauto.
Qed.

(** The witness of C1: the two Primary files of the end-to-end scenario
    and a Claims file. *)
Lemma eligible_keys_spec_witness :
  exists stores,
    load_all ex_world ["a.csv"; "b.csv"; "claims_2001.csv"] = Ok stores
    /\ NoDup (build_eligible_ids stores).
Proof.
  destruct (eligible_keys_spec ex_world ["a.csv"; "b.csv"; "claims_2001.csv"])
    as (stores & Hload & Hnd & _).
  - intros p Hp.
    repeat (apply elem_of_cons in Hp as [->|Hp];
            [eexists; split; [reflexivity | vm_compute; discriminate]|]).
    apply elem_of_nil in Hp. contradiction.
  - exists stores. split; assumption.
Defined.

(** ** The written rows are lines *)

Lemma count_char_app (c : ascii) (s t : string) :
  count_char c (s +:+ t) = (count_char c s + count_char c t)%nat.
Proof.
  induction s as [|a s IH]; [reflexivity|].
  rewrite str_app_cons. cbn [count_char]. rewrite IH. lia.
Qed.

Lemma lf_free_count (s : string) : lf_free s -> count_char LF s = 0%nat.
Proof.
  induction s as [|a s IH]; intros H; [reflexivity|].
  apply lf_free_cons in H as [Ha Hs]. cbn [count_char].
  apply ascii_eqb_false in Ha. rewrite Ha, IH by assumption. reflexivity.
Qed.

Lemma write_cells_clean (r : list (option string)) (k n : nat) :
  Forall (fun c : option string => lf_free (default EmptyString c)) r ->
  lf_free (write_cells r k n).
Proof.
  intros Hr. revert k. induction n as [|n IH]; intros k; [reflexivity|].
  cbn [write_cells]. apply lf_free_cons. split; [discriminate|].
  apply lf_free_app; [|apply IH].
  destruct (r !! k) as [[s|]|] eqn:Hk; try reflexivity.
  rewrite Forall_forall in Hr. apply (Hr (Some s)). by_lookup.
Qed.

Lemma write_blanks_clean (n : nat) : lf_free (write_blanks n).
Proof.
  induction n as [|n IH]; [reflexivity|].
  cbn [write_blanks]. apply lf_free_cons. split; [discriminate | assumption].
Qed.

Lemma write_file_part_clean (fs : FileStore) (id : string) :
  fs_clean fs -> lf_free (write_file_part fs id).
Proof.
  intros [_ Hcells]. unfold write_file_part.
  destruct (hmap_get (id_to_idx fs) id) as [e|]; [|apply write_blanks_clean].
  apply write_cells_clean.
  destruct (cells fs !! Z.to_nat (value e)) as [row|] eqn:Hrow; [|apply Forall_nil_2].
  change (default [] (Some row)) with row.
  rewrite Forall_forall in Hcells. apply Hcells.
  by_lookup.
Qed.

(** The text written for one key is one line. *)
Lemma write_row_one_line (stores : list FileStore) (id : string) :
  Forall fs_clean stores -> lf_free id ->
  count_char LF (write_row stores id) = 1%nat.
Proof.
  intros Hst Hid. unfold write_row. rewrite !count_char_app.
  rewrite (lf_free_count id Hid).
  assert (lf_free (str_concat (map (fun fs => write_file_part fs id) stores))) as H.
  { induction Hst as [|fs stores Hfs Hst IH]; [reflexivity|].
    cbn [map str_concat fold_right]. apply lf_free_app; [|exact IH].
    apply write_file_part_clean. assumption. }
  rewrite (lf_free_count _ H). reflexivity.
Qed.

Lemma write_rows_lines (stores : list FileStore) (sel : list string) :
  Forall fs_clean stores -> Forall lf_free sel ->
  count_char LF (str_concat (map (write_row stores) sel)) = length sel.
Proof.
  intros Hst Hsel. induction Hsel as [|k sel Hk Hsel IH]; [reflexivity|].
  cbn [map str_concat fold_right length]. rewrite count_char_app.
  fold (str_concat (map (write_row stores) sel)).
  rewrite IH, write_row_one_line by assumption. reflexivity.
Qed.

(** An eligible key is a key of some table. *)
Lemma eligible_in_store (stores : list FileStore) (k : string) :
  Forall fs_inv stores -> k ∈ build_eligible_ids stores ->
  exists fs, fs ∈ stores /\ k ∈ ids fs.
Proof.
  intros Hinv Hk.
  destruct (build_eligible_ids_inv stores Hinv) as (_ & Hprim & Hclaims).
  destruct (decide (Exists (fun p => is_claim p = false) stores)) as [Hex|Hall].
  - apply Exists_exists in Hex as (p & Hp & Hpp).
    destruct Hprim as (b & base & Hb & _ & _ & Hiff); [eauto|].
    apply Hiff in Hk as [Hk _]. exists base. split; [|assumption].
    by_lookup.
  - assert (forall p, p ∈ stores -> is_claim p = true) as Hall'.
    { intros p Hp. destruct (is_claim p) eqn:E; [reflexivity|].
      exfalso. apply Hall. apply Exists_exists. eauto. }
    apply (Hclaims Hall') in Hk as (c & Hc & _ & Hkc). eauto.
Qed.

Lemma eligible_clean (stores : list FileStore) :
  Forall fs_inv stores -> Forall fs_clean stores ->
  Forall lf_free (build_eligible_ids stores).
Proof.
  intros Hinv Hclean. rewrite Forall_forall. intros k Hk.
  destruct (eligible_in_store stores k Hinv Hk) as (fs & Hfs & Hkfs).
  rewrite Forall_forall in Hclean. destruct (Hclean fs Hfs) as [Hids _].
  rewrite Forall_forall in Hids. apply Hids. assumption.
Qed.

(** ** Sampling and the run of [main] *)

Lemma to_int_range (z : Z) : INT_MIN <= to_int z <= INT_MAX.
Proof.
  unfold to_int, INT_MIN, INT_MAX.
  pose proof (Z.mod_pos_bound z (2 ^ 32) ltac:(lia)) as H.
  destruct (z mod 2 ^ 32 <? 2 ^ 31) eqn:E.
  - apply Z.ltb_lt in E. lia.
  - apply Z.ltb_ge in E. lia.
Qed.

Lemma atoi_range (s : string) : INT_MIN <= atoi s <= INT_MAX.
Proof.
  induction s as [|c s IH]; cbn [atoi]; [unfold INT_MIN, INT_MAX; lia|].
  destruct (is_space c); [assumption|].
  destruct (Ascii.eqb c "-"); [apply to_int_range|].
  destruct (Ascii.eqb c "+"); apply to_int_range.
Qed.

(** [atoi] beyond the range of [long] and of [int]: the [long] is
    saturated, the conversion to [int] wraps. *)
Example atoi_saturates :
  atoi "18446744073709551617" = -1
  /\ atoi "-99999999999999999999" = 0
  /\ atoi "2147483648" = -2147483648
  /\ atoi "  +42abc" = 42
  /\ atoi "-3" = -3
  /\ atoi "x" = 0.
Proof. repeat split; vm_compute; reflexivity. Qed.

Lemma parse_args_range_aux (args : list string) :
  (forall s o, INT_MIN <= s <= INT_MAX ->
     INT_MIN <= fst (fst (parse_args args s o)) <= INT_MAX)
  /\ (forall x s o, INT_MIN <= s <= INT_MAX ->
        INT_MIN <= fst (fst (parse_args (x :: args) s o)) <= INT_MAX).
Proof.
  induction args as [|v args [IH1 IH2]].
  - split; intros; cbn; assumption.
  - split; [exact (IH2 v)|]. intros x s o Hs. cbn [parse_args].
    destruct (String.eqb x "-n"); [apply IH1, atoi_range|].
    destruct (String.eqb x "-o"); [apply IH1; assumption|].
    cbn. assumption.
Qed.

(** The sample size [main] works with is an [int]. *)
Lemma parse_args_range (args : list string) (N : Z) (outpath : string)
    (files : list string) :
  parse_args args 100000 "merged.csv" = (N, outpath, files) ->
  INT_MIN <= N <= INT_MAX.
Proof.
  intros H.
  pose proof (proj1 (parse_args_range_aux args) 100000 "merged.csv") as Hr.
  rewrite H in Hr. apply Hr. unfold INT_MIN, INT_MAX. lia.
Qed.

Lemma swap_perm (a : list string) (i j : nat) : swap a i j ≡ₚ a.
Proof.
  unfold swap. destruct (a !! i) as [x|] eqn:Hi; [|reflexivity].
  destruct (a !! j) as [y|] eqn:Hj; [|reflexivity].
  apply Permutation_insert_swap; assumption.
Qed.

Lemma shuffle_loop_perm (rng : nat -> Z) (n steps i : nat) (a : list string) :
  shuffle_loop rng n steps i a ≡ₚ a.
Proof.
  revert i a. induction steps as [|steps IH]; intros i a; [reflexivity|].
  cbn [shuffle_loop]. rewrite IH. apply swap_perm.
Qed.

(** The shuffle rearranges the keys; nothing is lost or repeated. *)
Lemma shuffle_perm (rng : nat -> Z) (a : list string) (n : nat) :
  shuffle rng a n ≡ₚ a.
Proof. apply shuffle_loop_perm. Qed.

(** Within the range of [int], every draw of the shuffle stays inside
    the array: the position swapped with [i] lies in [i, n). *)
Lemma shuffle_index_in_range (rng : nat -> Z) (n i : nat) :
  (i < n)%nat -> Z.of_nat n <= INT_MAX -> 0 <= rng i ->
  (i <= shuffle_index rng n i < n)%nat.
Proof.
  intros Hi Hn Hr. unfold shuffle_index. cbv zeta.
  rewrite to_int_small by lia.
  pose proof (Z.rem_bound_pos (rng i) (Z.of_nat n - Z.of_nat i) Hr ltac:(lia)) as Hb.
  unfold to_size_t, INT_MAX in *.
  rewrite (Z.mod_small (Z.rem _ _)) by lia.
  rewrite Z.mod_small by lia. lia.
Qed.

Lemma lookups_take (l : list string) (n : nat) :
  (n <= length l)%nat ->
  map (fun i => default EmptyString (l !! i)) (seq 0 n) = take n l.
Proof.
  intros Hn. apply list_eq. intros i.
  change (map ?f ?x) with (f <$> x). rewrite list_lookup_fmap.
  destruct (decide (i < n)%nat) as [Hlt|Hge].
  - rewrite lookup_seq_lt by assumption. rewrite lookup_take_lt by assumption.
    cbn [fmap option_fmap option_map Nat.add].
    destruct (l !! i) eqn:Hl; [reflexivity|].
    apply lookup_ge_None in Hl. lia.
  - rewrite lookup_seq_ge by lia. rewrite lookup_take_ge by lia. reflexivity.
Qed.

(** [write_rows] writes one line for each of the first [nsel] keys. *)
Lemma write_rows_take (stores : list FileStore) (l : list string) (nsel : nat) :
  (nsel <= length l)%nat ->
  write_rows stores l nsel = map (write_row stores) (take nsel l).
Proof.
  intros Hn. unfold write_rows. rewrite <- (lookups_take l nsel Hn).
  rewrite map_map. reflexivity.
Qed.

(** The clamp: a non-negative request is cut down to the number of
    eligible keys, a negative one is replaced by it. *)
Lemma clamp_sample_nonneg (N : Z) (M : nat) :
  0 <= N <= INT_MAX -> Z.of_nat M <= INT_MAX ->
  to_size_t (clamp_sample N M) = Z.min N (Z.of_nat M).
Proof.
  intros HN HM. unfold clamp_sample, to_size_t, INT_MAX in *.
  rewrite (Z.mod_small N) by lia.
  destruct (Z.of_nat M <? N) eqn:E.
  - apply Z.ltb_lt in E. rewrite to_int_small by (unfold INT_MAX; lia).
    rewrite Z.mod_small by lia. lia.
  - apply Z.ltb_ge in E. rewrite Z.mod_small by lia. lia.
Qed.

Lemma clamp_sample_neg (N : Z) (M : nat) :
  INT_MIN <= N < 0 -> Z.of_nat M <= INT_MAX ->
  to_size_t (clamp_sample N M) = Z.of_nat M.
Proof.
  intros HN HM. unfold clamp_sample, to_size_t, INT_MIN, INT_MAX in *.
  assert (N mod 2 ^ 64 = N + 2 ^ 64) as ->.
  { symmetry. apply (Z.mod_unique_pos _ _ (-1)); lia. }
  assert ((Z.of_nat M <? N + 2 ^ 64) = true) as -> by decide_test.
  rewrite to_int_small by (unfold INT_MAX; lia).
  apply Z.mod_small. lia.
Qed.

Section Run.

(** The environment of the run. *)
Variable w : World.

Lemma load_all_readable (files : list string) (stores : list FileStore) :
  load_all w files = Ok stores ->
  forall p, p ∈ files -> exists data, file_content w p = Some data.
Proof.
  revert stores. induction files as [|q files IH]; intros stores Hload p Hp.
  - apply elem_of_nil in Hp. contradiction.
  - cbn [load_all] in Hload.
    destruct (file_content w q) as [data|] eqn:Hq; [|discriminate].
    apply elem_of_cons in Hp as [->|Hp]; [eauto|].
    destruct (load_file (Some data) (filestore_init q)); [|discriminate].
    cbn [bind] in Hload.
    destruct (load_all w files) as [l|] eqn:Hl; [|discriminate].
    eapply IH; [reflexivity | assumption].
Qed.

Lemma load_all_inv (files : list string) (stores : list FileStore) :
  load_all w files = Ok stores ->
  (forall p data, p ∈ files -> file_content w p = Some data ->
     Z.of_nat (length (file_lines data)) <= INT_MAX) ->
  Forall fs_inv stores.
Proof.
  intros Hload Hb.
  destruct (load_all_ok w files) as (stores' & Hload' & Hinv & _).
  - intros p Hp. destruct (load_all_readable files stores Hload p Hp) as [data Hd].
    exists data. split; [assumption|]. eapply Hb; eassumption.
  - rewrite Hload in Hload'. injection Hload' as <-. assumption.
Qed.

(** A run of [main] that reaches the writer. *)
Lemma main_run (argv files : list string) (N : Z) (outpath : string)
    (stores : list FileStore) :
  (2 <= length argv)%nat ->
  parse_args (tail argv) 100000 "merged.csv" = (N, outpath, files) ->
  load_all w files = Ok stores ->
  build_eligible_ids stores <> [] ->
  can_write w outpath = true ->
  (Z.to_nat (to_size_t (clamp_sample N (length (build_eligible_ids stores))))
   <= length (build_eligible_ids stores))%nat ->
  main w argv
  = mkOutcome 0
      (Some (outpath,
             write_header stores (id_name stores)
             +:+ str_concat
                   (map (write_row stores)
                      (take (Z.to_nat (to_size_t
                               (clamp_sample N (length (build_eligible_ids stores)))))
                         (shuffle (rand w) (build_eligible_ids stores)
                            (length (build_eligible_ids stores))))))).
Proof.
  intros Hargc Hargs Hload Hne Hw Hsel. unfold main.
  assert ((length argv <? 2)%nat = false) as -> by decide_test.
  rewrite Hargs.
  assert (files <> []) as Hfiles.
  { intros ->. cbn in Hload. injection Hload as <-. apply Hne. reflexivity. }
  assert ((length files <=? 0)%nat = false) as ->.
  { apply Nat.leb_gt. destruct files; [contradiction | cbn; lia]. }
  rewrite Hload.
  assert ((length (build_eligible_ids stores) =? 0)%nat = false) as ->.
  { apply Nat.eqb_neq. destruct (build_eligible_ids stores); [contradiction | cbn; lia]. }
  rewrite Hw. cbn [negb].
  rewrite write_rows_take; [reflexivity|].
  rewrite (Permutation_length (shuffle_perm _ _ _)). assumption.
Qed.

End Run.


Lemma ex_world_rand_nonneg (k : nat) : 0 <= rand ex_world k.
Proof. cbn. lia. Qed.

Lemma load_file_loaded (pth data : string) :
  load_file (Some data) (filestore_init pth) = Ok (loaded pth data).
Proof.
  unfold loaded, load_file. destruct (fgets MAX_LINE_LEN data) as [[raw t]|]; reflexivity.
Qed.

Lemma ex_stores_a_loaded : load_all ex_world ["a.csv"] = Ok ex_stores_a.
Proof.
  cbn [load_all]. change (file_content ex_world "a.csv") with (Some ex_file_a).
  rewrite load_file_loaded. reflexivity.
Qed.

Lemma ex_file_a_bound (p data : string) :
  p ∈ ["a.csv"] -> file_content ex_world p = Some data ->
  Z.of_nat (length (file_lines data)) <= INT_MAX.
Proof.
  intros Hp Hd. apply list_elem_of_singleton in Hp. subst p.
  injection Hd as <-. vm_compute. discriminate.
Qed.


(** C10. With the same run but a negative sample size [N], the
    conversion of [N] to [size_t] exceeds [M], the clamp sets the sample
    size to [M], and [main] writes the header and then one data row for
    every eligible key, in the order the shuffle left them: the text
    after the header consists of [M] lines. *)
Theorem negative_sample_writes_all (w : World) (argv files : list string) (N : Z)
    (outpath : string) (stores : list FileStore) :
  (2 <= length argv)%nat ->
  parse_args (tail argv) 100000 "merged.csv" = (N, outpath, files) ->
  load_all w files = Ok stores ->
  (forall p data, p ∈ files -> file_content w p = Some data ->
     Z.of_nat (length (file_lines data)) <= INT_MAX) ->
  build_eligible_ids stores <> [] ->
  Z.of_nat (length (build_eligible_ids stores)) <= INT_MAX ->
  can_write w outpath = true ->
  N < 0 ->
  let eligible := build_eligible_ids stores in
  let M := length eligible in
  Z.of_nat M < to_size_t N
  /\ clamp_sample N M = Z.of_nat M
  /\ main w argv
     = mkOutcome 0
         (Some (outpath,
                write_header stores (id_name stores)
                +:+ str_concat (map (write_row stores) (shuffle (rand w) eligible M))))
  /\ length (shuffle (rand w) eligible M) = M
  /\ count_char LF (str_concat (map (write_row stores) (shuffle (rand w) eligible M)))
     = M
  /\ shuffle (rand w) eligible M ≡ₚ eligible.
Proof.
  intros Hargc Hargs Hload Hb Hne HM Hw HN eligible M.
  change (Z.of_nat M <= INT_MAX) in HM.
  pose proof (parse_args_range _ _ _ _ Hargs) as [HNmin _].
  pose proof (clamp_sample_neg N M (conj HNmin HN) HM) as Hclamp.
  pose proof (shuffle_perm (rand w) eligible M) as Hperm.
  split.
  { unfold to_size_t, INT_MIN, INT_MAX in *.
    assert (N mod 2 ^ 64 = N + 2 ^ 64) as ->
      by (symmetry; apply (Z.mod_unique_pos _ _ (-1)); lia).
    lia. }
  split.
  { unfold clamp_sample. unfold clamp_sample in Hclamp.
    destruct (Z.of_nat M <? to_size_t N) eqn:E.
    - apply to_int_small. lia.
    - unfold to_size_t, INT_MIN, INT_MAX in *. apply Z.ltb_ge in E.
      assert (N mod 2 ^ 64 = N + 2 ^ 64) as Hm
        by (symmetry; apply (Z.mod_unique_pos _ _ (-1)); lia).
      lia. }
  split.
  { rewrite (main_run w argv files N outpath stores); try assumption.
    - fold eligible. fold M. rewrite Hclamp, Nat2Z.id.
      rewrite take_ge by (rewrite (Permutation_length Hperm); fold M; lia).
      reflexivity.
    - fold eligible. fold M. rewrite Hclamp. lia. }
  split; [rewrite (Permutation_length Hperm); reflexivity|].
  split; [|assumption].
  rewrite write_rows_lines.
  - rewrite (Permutation_length Hperm). reflexivity.
  - eapply load_all_clean; eassumption.
  - rewrite Hperm. apply eligible_clean.
    + eapply load_all_inv; eassumption.
    + eapply load_all_clean; eassumption.
Qed.

(** The witness of C10: [-n -3] on [a.csv] writes both rows. *)
Lemma negative_sample_writes_all_witness :
  main ex_world ["merge"; "-n"; "-3"; "a.csv"]
  = mkOutcome 0 (Some ("merged.csv", "id,x" +:+ nl +:+ "2,bar" +:+ nl +:+ "1,foo" +:+ nl)).
Proof.
  destruct (negative_sample_writes_all ex_world ["merge"; "-n"; "-3"; "a.csv"]
              ["a.csv"] (-3) "merged.csv" ex_stores_a) as (_ & _ & Hmain & _).
  - cbn. lia.
  - vm_compute. reflexivity.
  - exact ex_stores_a_loaded.
  - exact ex_file_a_bound.
  - vm_compute. discriminate.
  - vm_compute. discriminate.
  - reflexivity.
  - lia.
  - rewrite Hmain. vm_compute. reflexivity.
Defined.

(** The duplicate-key example of the specification: the rows [P1,alpha]
    and [P1,beta] give one row with the cell [alpha || beta]. *)
Example dup_file_merged_cell :
  ids (loaded "t.csv" ex_dup_file) = ["P1"]
  /\ cells (loaded "t.csv" ex_dup_file) = [[Some "alpha || beta"]].
Proof. split; vm_compute; reflexivity. Qed.

(** The end-to-end scenario of the specification. *)
Example end_to_end_scenario :
  main ex_world ["merge"; "-n"; "10"; "a.csv"; "b.csv"]
  = mkOutcome 0 (Some ("merged.csv", "id,x,y" +:+ nl +:+ "1,foo,baz" +:+ nl)).
Proof. vm_compute. reflexivity. Qed.

(** Claims gating: the key must be in the Primary table and in the
    union of the Claims tables. *)
Example claims_gating :
  build_eligible_ids
    [loaded "a.csv" ex_file_a; loaded "claims_2001.csv" ex_file_claims] = ["2"].
Proof. vm_compute. reflexivity. Qed.

(** Header de-duplication: the second column of the same name gets the
    file stem in brackets; a claims column gets the year. *)
Example header_dedup :
  write_header
    [loaded "a.csv" ex_file_a; loaded "a.csv" ex_file_a;
     loaded "claims_2001.csv" ex_file_claims] "id"
  = "id,x,x[a],text_2001" +:+ nl.
Proof. vm_compute. reflexivity. Qed.

(** ** Empty keys *)

(** C4 fails on the merge engine: the data line [,foo] has the empty
    key, and [load_file] gives it a row, an index entry and its cell
    like any other key; the row reaches the output. *)
Lemma empty_key_row_kept :
  let fs := loaded "k.csv" ex_empty_key_file in
  data_row COMMA 0 (",foo" +:+ nl) = Some (EmptyString, ["foo"])
  /\ ids fs = [EmptyString; "1"]
  /\ hmap_get (id_to_idx fs) EmptyString = Some (mkEntry EmptyString 0)
  /\ cells fs = [[Some "foo"]; [Some "bar"]]
  /\ main ex_world ["merge"; "k.csv"]
     = mkOutcome 0
         (Some ("merged.csv", "id,x" +:+ nl +:+ "1,bar" +:+ nl +:+ ",foo" +:+ nl)).
Proof.
  cbv zeta. split; [|split; [|split; [|split]]]; vm_compute; reflexivity.
Qed.

(** In general: whatever key a data row has, the empty one included,
    the key is in the table after the row is read. *)
Lemma load_row_keeps_key (fs : FileStore) (raw k : string) (vals : list string) :
  fs_inv fs -> Z.of_nat (nrows fs) <= INT_MAX ->
  data_row (delim fs) (id_col fs) raw = Some (k, vals) ->
  k ∈ ids (load_row fs raw).
Proof.
  intros Hinv Hn Hd. pose proof (load_row_data_row fs raw) as Hrow.
  rewrite Hd in Hrow. destruct Hrow as [-> _]. cbn [set_cells ids].
  destruct (filestore_get_or_create_inv fs k Hinv Hn) as (_ & _ & Hk & _).
  by_lookup.
Qed.

(** The union-merge variant passes over a data line whose first field
    is empty. *)
Lemma code3_row_empty_key (l2g : list nat) (st : MergeState) (raw : string)
    (rest : list string) :
  parse_csv_line (chomp raw) = EmptyString :: rest -> code3_row l2g st raw = st.
Proof. intros H. unfold code3_row. rewrite H. reflexivity. Qed.

(** ** The category of a file *)

(** The digit loop is content with a single digit: it stops at the first
    character that is not a digit, whatever the number of digits read. *)
Lemma year_digits_one_digit (d : ascii) (r : string) :
  isdigit d = true ->
  match r with String c _ => isdigit c = false | EmptyString => True end ->
  year_digits 4 (String d r) 0 = char_code d - 48.
Proof.
  intros Hd Hr. cbn [year_digits]. rewrite Hd.
  destruct r as [|c r]; [reflexivity|]. rewrite Hr. reflexivity.
Qed.

(** C5 fails on the code: after ["claims_"] one to four digits are
    accepted, so [claims_12.csv] is a Claims file of year 12. (Four
    digits give the year; four zeros give year 0 and a Primary file.) *)
Lemma claim_year_short_digits :
  parse_claim_year_from_name "claims_12.csv" = 12
  /\ is_claim (loaded "claims_12.csv" ex_file_claims) = true
  /\ claim_year (loaded "claims_12.csv" ex_file_claims) = 12
  /\ parse_claim_year_from_name "data/Claims_2012.csv" = 2012
  /\ parse_claim_year_from_name "claims_0000.csv" = 0
  /\ is_claim (loaded "claims_0000.csv" ex_file_claims) = false.
Proof.
  split; [|split; [|split; [|split; [|split]]]]; vm_compute; reflexivity.
Qed.

(** ** Inputs that cannot be opened *)

Lemma load_all_unopenable (w : World) (files : list string) (p : string) :
  p ∈ files -> file_content w p = None -> load_all w files = Exit 1.
Proof.
  induction files as [|q files IH]; intros Hp Hnone.
  - apply elem_of_nil in Hp. contradiction.
  - cbn [load_all]. destruct (file_content w q) as [data|] eqn:Hq.
    + rewrite load_file_loaded. cbn [bind].
      apply elem_of_cons in Hp as [->|Hp]; [congruence|].
      rewrite IH by assumption. reflexivity.
    + reflexivity.
Qed.

Lemma code3_ingest_app (w : World) (l1 l2 : list string) (st : MergeState) :
  code3_ingest w (l1 ++ l2) st = code3_ingest w l2 (code3_ingest w l1 st).
Proof. unfold code3_ingest. apply fold_left_app. Qed.

(** The claim of C9 fails on the merge engine: with the unopenable
    [missing.csv] among the inputs the run ends with status 1 and writes
    nothing, while the run on the remaining input succeeds. *)
Lemma unopenable_input_counterexample :
  file_content ex_world "missing.csv" = None
  /\ main ex_world ["merge"; "a.csv"; "missing.csv"] = mkOutcome 1 None
  /\ exit_code (main ex_world ["merge"; "a.csv"]) = 0.
Proof. split; [|split]; vm_compute; reflexivity. Qed.

(** C9, as the code has it. When an input [p] cannot be opened, the
    merge engine ([main] of merger2.c) ends the run with exit status 1
    and writes nothing. The union-merge variant ([main] of code3.c)
    passes over [p] and goes on: the table it builds is the one built
    from the remaining inputs, and its exit status is 0 whenever the
    output can be opened. *)
Theorem unopenable_input_policy (w : World) (argv files : list string) (N : Z)
    (outpath p : string) :
  (2 <= length argv)%nat ->
  parse_args (tail argv) 100000 "merged.csv" = (N, outpath, files) ->
  p ∈ files ->
  file_content w p = None ->
  main w argv = mkOutcome 1 None
  /\ (forall (inputs1 inputs2 : list string) (st : MergeState),
        code3_ingest w (inputs1 ++ p :: inputs2) st
        = code3_ingest w (inputs1 ++ inputs2) st)
  /\ (forall (prog out frac : string) (inputs1 inputs2 : list string),
        inputs1 ++ inputs2 <> [] ->
        code3_main w (prog :: out :: frac :: inputs1 ++ p :: inputs2)
        = (if can_write w out then 0 else 1,
           Some (code3_ingest w (inputs1 ++ inputs2) merge_state_init))).
Proof.
  intros Hargc Hargs Hp Hnone.
  assert (forall inputs1 inputs2 st,
            code3_ingest w (inputs1 ++ p :: inputs2) st
            = code3_ingest w (inputs1 ++ inputs2) st) as Hskip.
  { intros inputs1 inputs2 st. rewrite !code3_ingest_app.
    unfold code3_ingest at 1. cbn [fold_left]. rewrite Hnone. reflexivity. }
  split; [|split; [exact Hskip|]].
  - unfold main.
    assert ((length argv <? 2)%nat = false) as -> by decide_test.
    rewrite Hargs.
    assert ((length files <=? 0)%nat = false) as ->.
    { apply Nat.leb_gt. destruct files; [apply elem_of_nil in Hp; contradiction|].
      cbn. lia. }
    rewrite (load_all_unopenable w files p Hp Hnone). reflexivity.
  - intros prog out frac inputs1 inputs2 Hne. unfold code3_main.
    assert ((length (prog :: out :: frac :: inputs1 ++ p :: inputs2) <? 5)%nat = false)
      as ->.
    { apply Nat.ltb_ge. cbn [length]. rewrite length_app. cbn [length].
      destruct inputs1, inputs2; cbn [length app] in *; try lia. contradiction. }
    change (drop 3 (prog :: out :: frac :: inputs1 ++ p :: inputs2))
      with (inputs1 ++ p :: inputs2).
    change ((prog :: out :: frac :: inputs1 ++ p :: inputs2) !! 1%nat) with (Some out).
    change (default EmptyString (Some out)) with out. rewrite Hskip.
    destruct (can_write w out); reflexivity.
Qed.

(** The union-merge variant on [a.csv], the unopenable [missing.csv]
    and [b.csv]: the union of the columns, one row per key. *)
Example code3_union_example :
  let st := code3_ingest ex_world ["a.csv"; "missing.csv"; "b.csv"] merge_state_init in
  m_cols st = ["application_number"; "x"; "y"]
  /\ m_table st
     = [mkAppRow "1" [None; Some "foo"; Some "baz"];
        mkAppRow "2" [None; Some "bar"; None];
        mkAppRow "3" [None; None; Some "qux"]].
Proof. cbv zeta. split; vm_compute; reflexivity. Qed.

(** The witness of C9: [missing.csv] beside [a.csv]. *)
Lemma unopenable_input_policy_witness :
  main ex_world ["merge"; "a.csv"; "missing.csv"] = mkOutcome 1 None
  /\ fst (code3_main ex_world ["merge3"; "out.csv"; "0.5"; "a.csv"; "missing.csv"; "b.csv"])
     = 0.
Proof.
  destruct (unopenable_input_policy ex_world ["merge"; "a.csv"; "missing.csv"]
              ["a.csv"; "missing.csv"] 100000 "merged.csv" "missing.csv")
    as (Hmain & _ & Hcode3).
  - cbn. lia.
  - vm_compute. reflexivity.
  - apply list_elem_of_further, list_elem_of_here.
  - reflexivity.
  - split; [exact Hmain|].
    pose proof (Hcode3 "merge3" "out.csv" "0.5" ["a.csv"] ["b.csv"]) as H.
    cbn [app] in H. rewrite H by discriminate. reflexivity.
Defined.

(** * Further properties of merger2.c *)

(** ** [trim_eol] *)

Lemma trim_eol_split (s : string) :
  exists tail, s = trim_eol s +:+ tail /\ eol_only tail = true.
Proof.
  induction s as [|c r IH]; [exists EmptyString; done|].
  destruct IH as (tail & Hr & Ht). cbn [trim_eol].
  destruct (str_is_empty (trim_eol r) && (Ascii.eqb c LF || Ascii.eqb c CR)) eqn:E.
  - apply andb_true_iff in E as [E1 E2].
    destruct (trim_eol r); [|done]. change (r = tail) in Hr. rewrite <- Hr in Ht.
    exists (String c r). split; [done|]. cbn [eol_only]. by rewrite E2, Ht.
  - exists tail. split; [|done]. rewrite str_app_cons. by rewrite <- Hr.
Qed.

Lemma trim_eol_last (s : string) (c : ascii) :
  str_last (trim_eol s) = Some c -> c <> LF /\ c <> CR.
Proof.
  induction s as [|a r IH]; [done|]. cbn [trim_eol].
  destruct (trim_eol r) as [|b r'] eqn:Er.
  - cbn [str_is_empty andb].
    destruct (Ascii.eqb a LF) eqn:E1; [done|].
    destruct (Ascii.eqb a CR) eqn:E2; [done|].
    cbn. intros [= <-]. split; by apply ascii_eqb_false.
  - cbn [str_is_empty andb]. exact IH.
Qed.

Lemma trim_eol_fixed (s : string) :
  (forall c, str_last s = Some c -> c <> LF /\ c <> CR) -> trim_eol s = s.
Proof.
  induction s as [|a r IH]; [done|]. intros H. cbn [trim_eol].
  destruct r as [|b r'].
  - cbn. destruct (H a eq_refl) as [H1 H2].
    apply ascii_eqb_false in H1, H2. by rewrite H1, H2.
  - rewrite IH; [done|]. intros c Hc. apply H. exact Hc.
Qed.

(** X1. [trim_eol] removes exactly the trailing line ends: the string is
    the result followed by line feeds and carriage returns only, the
    result does not end in one of them, and trimming again changes
    nothing. *)
Theorem trim_eol_spec (s : string) :
  (exists tail, s = trim_eol s +:+ tail /\ eol_only tail = true)
  /\ (forall c, str_last (trim_eol s) = Some c -> c <> LF /\ c <> CR)
  /\ trim_eol (trim_eol s) = trim_eol s.
Proof.
  split; [apply trim_eol_split|]. split; [apply trim_eol_last|].
  apply trim_eol_fixed, trim_eol_last.
Qed.

(** ** [file_stem] *)

Lemma strrchr_None (s : string) (c : ascii) :
  strrchr s c = None <-> strchr s c = false.
Proof.
  induction s as [|a r IH]; [done|]. cbn [strrchr strchr].
  destruct (strrchr r c) eqn:E.
  - split; [done|]. intros H. apply orb_false_iff in H as [_ H].
    apply IH in H. done.
  - destruct IH as [IH _]. rewrite (IH eq_refl), orb_false_r.
    destruct (Ascii.eqb a c); done.
Qed.

Lemma strrchr_Some (s t : string) (c : ascii) :
  strrchr s c = Some t ->
  exists pre t', s = pre +:+ String c t' /\ t = String c t' /\ strchr t' c = false.
Proof.
  revert t. induction s as [|a r IH]; [done|]. intros t. cbn [strrchr].
  destruct (strrchr r c) as [u|] eqn:E.
  - intros [= <-]. destruct (IH u eq_refl) as (pre & t' & -> & -> & H).
    exists (String a pre), t'. done.
  - destruct (Ascii.eqb a c) eqn:Ea; [|done]. intros [= <-].
    apply ascii_eqb_true in Ea as ->.
    exists EmptyString, r. split; [done|]. split; [done|]. by apply strrchr_None.
Qed.

Lemma strrchr_last (pre t : string) (c : ascii) :
  strchr t c = false -> strrchr (pre +:+ String c t) c = Some (String c t).
Proof.
  intros Ht. induction pre as [|a pre IH].
  - change (strrchr (String c t) c = Some (String c t)). cbn [strrchr].
    apply strrchr_None in Ht. rewrite Ht. by rewrite Ascii.eqb_refl.
  - rewrite str_app_cons. cbn [strrchr]. by rewrite IH.
Qed.

Lemma str_take_length (n : nat) (s : string) :
  (String.length (str_take n s) <= n)%nat.
Proof.
  revert s. induction n as [|n IH]; intros [|c r]; cbn; try lia.
  specialize (IH r). lia.
Qed.

Lemma str_take_split (n : nat) (s : string) :
  s = str_take n s +:+ str_drop n s.
Proof.
  revert s. induction n as [|n IH]; intros [|c r]; try reflexivity.
  cbn [str_take str_drop]. rewrite str_app_cons. f_equal. apply IH.
Qed.

Lemma str_take_app (s t : string) : str_take (String.length s) (s +:+ t) = s.
Proof.
  induction s as [|c s IH]; [by destruct t|].
  rewrite str_app_cons. cbn [String.length str_take]. by rewrite IH.
Qed.

Lemma strchr_take (n : nat) (s : string) (c : ascii) :
  strchr s c = false -> strchr (str_take n s) c = false.
Proof.
  intros H. rewrite (str_take_split n s), strchr_app in H.
  by apply orb_false_iff in H as [H _].
Qed.

Lemma str_app_length (s t : string) :
  String.length (s +:+ t) = (String.length s + String.length t)%nat.
Proof.
  induction s as [|c s IH]; [done|].
  rewrite str_app_cons. cbn [String.length]. by rewrite IH.
Qed.

(** The base name [file_stem] works on: what follows the last slash. *)
Lemma file_stem_base (pth : string) :
  exists dir base,
    pth = dir +:+ base /\ strchr base "/"%char = false
    /\ match strrchr pth "/"%char with
       | Some (String _ t) => t
       | _ => pth
       end = base.
Proof.
  destruct (strrchr pth "/"%char) as [t|] eqn:E.
  - destruct (strrchr_Some _ _ _ E) as (pre & t' & -> & -> & H).
    exists (pre +:+ "/"), t'. split; [|done].
    by rewrite str_app_assoc.
  - exists EmptyString, pth. split; [done|]. split; [|done]. by apply strrchr_None.
Qed.

(** X2. For a buffer of [outsz > 0] bytes the stem fits the buffer with
    its terminator, holds no slash, and is a piece of the path. *)
Theorem file_stem_fits (pth : string) (outsz : nat) :
  (0 < outsz)%nat ->
  (String.length (file_stem pth outsz) < outsz)%nat
  /\ strchr (file_stem pth outsz) "/"%char = false
  /\ exists dir rest, pth = dir +:+ file_stem pth outsz +:+ rest.
Proof.
  intros Hsz. unfold file_stem.
  destruct (file_stem_base pth) as (dir & base & Hp & Hb & ->).
  set (len0 := match strrchr base "."%char with
               | Some dot => (String.length base - String.length dot)%nat
               | None => String.length base
               end).
  set (len := if (outsz <=? len0)%nat then (outsz - 1)%nat else len0).
  split; [|split].
  - pose proof (str_take_length len base). subst len.
    destruct (outsz <=? len0)%nat eqn:E; [lia|]. apply Nat.leb_gt in E. lia.
  - by apply strchr_take.
  - exists dir, (str_drop len base). by rewrite <- str_take_split.
Qed.

Lemma file_stem_fits_witness :
  (String.length (file_stem "/data/claims_2001.csv" 256) < 256)%nat
  /\ strchr (file_stem "/data/claims_2001.csv" 256) "/"%char = false
  /\ exists dir rest,
       "/data/claims_2001.csv" = dir +:+ file_stem "/data/claims_2001.csv" 256 +:+ rest.
Proof. apply (file_stem_fits "/data/claims_2001.csv" 256). lia. Defined.

(** X3. The stem of [dir/name.ext] is [name]: the directory part goes up
    to the last slash, the extension starts at the last dot of what
    follows it. *)
Theorem file_stem_name (dir name ext : string) (outsz : nat) :
  strchr name "/"%char = false ->
  strchr ext "/"%char = false ->
  strchr ext "."%char = false ->
  (String.length name < outsz)%nat ->
  file_stem (dir +:+ "/" +:+ name +:+ "." +:+ ext) outsz = name.
Proof.
  intros Hn He Hd Hlen. unfold file_stem.
  change (dir +:+ "/" +:+ name +:+ "." +:+ ext)
    with (dir +:+ String "/" (name +:+ String "." ext)).
  rewrite strrchr_last.
  2:{ rewrite strchr_app. cbn [strchr]. rewrite Hn, He. done. }
  rewrite strrchr_last by done.
  rewrite str_app_length. cbn [String.length].
  replace (String.length name + S (String.length ext) - S (String.length ext))%nat
    with (String.length name) by lia.
  destruct (outsz <=? String.length name)%nat eqn:E; [apply Nat.leb_le in E; lia|].
  apply str_take_app.
Qed.

Lemma file_stem_name_witness :
  file_stem ("/data/v1.2" +:+ "/" +:+ "claims_2001.v2" +:+ "." +:+ "csv") 256
  = "claims_2001.v2".
Proof. apply (file_stem_name "/data/v1.2" "claims_2001.v2" "csv" 256); [reflexivity..|simpl; lia]. Defined.

(** ** [parse_delim_line] *)

Lemma parse_loop_nonempty (d : ascii) (p : string) :
  forall q buf, parse_loop d q buf p <> [].
Proof.
  assert (H : (forall q buf, parse_loop d q buf p <> [])
              /\ forall c q buf, parse_loop d q buf (String c p) <> []).
  { induction p as [|a p [IH1 IH2]].
    - split; [done|]. intros c q buf. rewrite parse_loop_cons.
      destruct q, (Ascii.eqb c DQUOTE), (Ascii.eqb c d); done.
    - split; [exact (IH2 a)|]. intros c q buf. rewrite parse_loop_cons.
      destruct q.
      + destruct (Ascii.eqb c DQUOTE); [|apply IH2].
        destruct (Ascii.eqb a DQUOTE); [apply IH1|apply IH2].
      + destruct (Ascii.eqb c DQUOTE); [apply IH2|].
        destruct (Ascii.eqb c d); [done|apply IH2]. }
  apply H.
Qed.

Lemma join_sep_cons2 (sep x y : string) (l : list string) :
  join_sep sep (x :: y :: l) = x +:+ sep +:+ join_sep sep (y :: l).
Proof. reflexivity. Qed.

Lemma join_sep_nonempty (sep x : string) (l : list string) :
  l <> [] -> join_sep sep (x :: l) = x +:+ sep +:+ join_sep sep l.
Proof. destruct l; [done|]. intros _. apply join_sep_cons2. Qed.

(** Outside quotes a stretch without quote and delimiter goes to the
    field buffer. *)
Lemma parse_loop_plain_app (d : ascii) (s rest buf : string) :
  strchr s d = false -> strchr s DQUOTE = false ->
  parse_loop d false buf (s +:+ rest) = parse_loop d false (buf +:+ s) rest.
Proof.
  revert buf. induction s as [|a s IH]; intros buf Hd Hq.
  - by rewrite str_app_nil_r.
  - cbn [strchr] in Hd, Hq.
    apply orb_false_iff in Hd as [Hd1 Hd2]. apply orb_false_iff in Hq as [Hq1 Hq2].
    rewrite str_app_cons, parse_loop_cons, Hq1, Hd1.
    rewrite IH by done. by rewrite str_snoc_app.
Qed.

(** Inside quotes the escaped text of [s] and the closing quote put [s]
    into the field buffer. *)
Lemma parse_loop_quoted_app (d : ascii) (s rest buf : string) :
  (forall r, rest <> String DQUOTE r) ->
  parse_loop d true buf (put_escaped s +:+ String DQUOTE rest)
  = parse_loop d false (buf +:+ s) rest.
Proof.
  intros Hrest. revert buf. induction s as [|a s IH]; intros buf.
  - rewrite str_app_nil_r.
    change (put_escaped EmptyString +:+ String DQUOTE rest) with (String DQUOTE rest).
    rewrite parse_loop_cons. change (Ascii.eqb DQUOTE DQUOTE) with true. cbv iota.
    destruct rest as [|c1 r]; [done|].
    destruct (Ascii.eqb c1 DQUOTE) eqn:E; [|done].
    apply ascii_eqb_true in E as ->. by destruct (Hrest r).
  - cbn [put_escaped]. destruct (Ascii.eqb a DQUOTE) eqn:E.
    + apply ascii_eqb_true in E as ->.
      rewrite !str_app_cons, parse_loop_cons.
      change (Ascii.eqb DQUOTE DQUOTE) with true. cbv iota.
      rewrite IH. by rewrite str_snoc_app.
    + rewrite str_app_cons, parse_loop_cons, E.
      rewrite IH. by rewrite str_snoc_app.
Qed.

Lemma parse_loop_count (d : ascii) (p : string) :
  strchr p DQUOTE = false ->
  forall buf,
    length (parse_loop d false buf p) = S (count_char d p)
    /\ join_sep (String d EmptyString) (parse_loop d false buf p) = buf +:+ p.
Proof.
  induction p as [|c p IH]; intros Hq buf.
  - split; [done|]. by rewrite str_app_nil_r.
  - cbn [strchr] in Hq. apply orb_false_iff in Hq as [Hq1 Hq2].
    rewrite parse_loop_cons, Hq1. cbn [count_char].
    destruct (Ascii.eqb c d) eqn:E.
    + apply ascii_eqb_true in E as ->.
      destruct (IH Hq2 EmptyString) as [IH1 IH2].
      split; [cbn [length]; by rewrite IH1|].
      rewrite join_sep_nonempty by apply parse_loop_nonempty.
      rewrite IH2. done.
    + destruct (IH Hq2 (str_snoc buf c)) as [IH1 IH2].
      split; [exact IH1|]. by rewrite IH2, str_snoc_app.
Qed.

(** X4. A line without quote characters is cut at every delimiter and
    nowhere else: there is one field more than there are delimiters, and
    the fields joined by the delimiter give the line back. *)
Theorem parse_delim_line_plain (line : string) (d : ascii) :
  strchr line DQUOTE = false ->
  length (parse_delim_line line d) = S (count_char d line)
  /\ join_sep (String d EmptyString) (parse_delim_line line d) = line.
Proof. intros Hq. apply (parse_loop_count d line Hq EmptyString). Qed.

Lemma parse_delim_line_plain_witness :
  length (parse_delim_line "a,,b c," COMMA) = S (count_char COMMA "a,,b c,")
  /\ join_sep (String COMMA EmptyString) (parse_delim_line "a,,b c," COMMA) = "a,,b c,".
Proof. apply (parse_delim_line_plain "a,,b c," COMMA). reflexivity. Defined.

(** ** Lines written by code3.c, read by merger2.c *)

Lemma str_last_None (s : string) : str_last s = None -> s = EmptyString.
Proof.
  induction s as [|a s IH]; [done|]. cbn [str_last].
  destruct s; [done|]. intros H. by apply IH in H.
Qed.

Lemma str_last_app (s t : string) :
  str_last (s +:+ t)
  = match str_last t with Some c => Some c | None => str_last s end.
Proof.
  induction s as [|a s IH].
  - change (str_last t = match str_last t with Some c => Some c | None => None end).
    by destruct (str_last t).
  - rewrite str_app_cons. cbn [str_last].
    destruct (s +:+ t) eqn:E.
    + destruct s; [|done]. change (t = EmptyString) in E. subst t. done.
    + rewrite IH. destruct (str_last t) eqn:Et; [done|].
      apply str_last_None in Et. subst t. rewrite str_app_nil_r in E. by subst s.
Qed.

Lemma no_eol_end_app (s t : string) :
  no_eol_end s -> no_eol_end t -> no_eol_end (s +:+ t).
Proof.
  intros Hs Ht c. rewrite str_last_app.
  destruct (str_last t) eqn:E; [intros [= <-]; by apply Ht|apply Hs].
Qed.

Lemma str_last_strchr (s : string) (c x : ascii) :
  str_last s = Some c -> strchr s x = false -> c <> x.
Proof.
  induction s as [|a s IH]; [done|]. cbn [str_last strchr].
  intros H Hx. apply orb_false_iff in Hx as [Hx1 Hx2]. destruct s.
  - injection H as <-. by apply ascii_eqb_false.
  - by apply IH.
Qed.

Lemma print_csv_field_no_eol_end (o : option string) :
  no_eol_end (print_csv_field o).
Proof.
  destruct o as [s|]; [|done]. cbn [print_csv_field].
  destruct (need_quotes s) eqn:E.
  - intros c. change (String DQUOTE (put_escaped s +:+ String DQUOTE EmptyString))
      with (String DQUOTE (put_escaped s) +:+ String DQUOTE EmptyString).
    rewrite str_last_app. cbn. by intros [= <-].
  - rewrite need_quotes_strchr in E.
    apply orb_false_iff in E as [E Hcr]. apply orb_false_iff in E as [_ Hlf].
    intros c Hc. split; eapply str_last_strchr; eauto.
Qed.

Lemma trim_eol_eol_only (t : string) : eol_only t = true -> trim_eol t = EmptyString.
Proof.
  induction t as [|c t IH]; [done|]. cbn [eol_only trim_eol].
  intros H. apply andb_true_iff in H as [H1 H2]. by rewrite (IH H2), H1.
Qed.

Lemma trim_eol_app_eol (s t : string) :
  eol_only t = true -> trim_eol (s +:+ t) = trim_eol s.
Proof.
  intros Ht. induction s as [|c s IH].
  - by apply trim_eol_eol_only.
  - rewrite str_app_cons. cbn [trim_eol]. by rewrite IH.
Qed.

Lemma trim_eol_line (body : string) :
  no_eol_end body -> trim_eol (body +:+ String LF EmptyString) = body.
Proof.
  intros H. rewrite trim_eol_app_eol by done. by apply trim_eol_fixed.
Qed.

(** One written field before text that does not start with a quote. *)
Lemma parse_loop_field (o : option string) (rest buf : string) :
  (forall r, rest <> String DQUOTE r) ->
  parse_loop COMMA false buf (print_csv_field o +:+ rest)
  = parse_loop COMMA false (buf +:+ default EmptyString o) rest.
Proof.
  intros Hrest. destruct o as [s|]; [|by rewrite str_app_nil_r].
  cbn [print_csv_field default from_option id].
  change (default EmptyString (Some s)) with s.
  destruct (need_quotes s) eqn:E.
  - rewrite str_app_cons, str_app_assoc, parse_loop_cons.
    change (Ascii.eqb DQUOTE DQUOTE) with true. cbv iota.
    change (String DQUOTE EmptyString +:+ rest) with (String DQUOTE rest).
    by apply parse_loop_quoted_app.
  - rewrite need_quotes_strchr in E.
    apply orb_false_iff in E as [E _]. apply orb_false_iff in E as [E _].
    apply orb_false_iff in E as [E1 E2].
    by apply parse_loop_plain_app.
Qed.

Lemma write_values_start (vals : list (option string)) (c n : nat) (r : string) :
  write_values vals c n <> String DQUOTE r.
Proof. by destruct n. Qed.

Lemma write_values_no_eol_end (vals : list (option string)) (c n : nat) :
  no_eol_end (write_values vals c n).
Proof.
  revert c. induction n as [|n IH]; intros c; [done|]. cbn [write_values].
  apply (no_eol_end_app (String COMMA EmptyString)).
  - intros x [= <-]. done.
  - apply no_eol_end_app; [apply print_csv_field_no_eol_end|apply IH].
Qed.

Lemma parse_loop_values (vals : list (option string)) (c n : nat) (buf : string) :
  parse_loop COMMA false buf (write_values vals c n)
  = buf :: map (cell_text vals) (seq c n).
Proof.
  revert c buf. induction n as [|n IH]; intros c buf; [done|].
  cbn [write_values seq map]. rewrite parse_loop_cons.
  change (Ascii.eqb COMMA DQUOTE) with false. rewrite Ascii.eqb_refl. cbv iota.
  f_equal. rewrite parse_loop_field by (intros r; apply write_values_start).
  rewrite IH. f_equal. unfold cell_text. by destruct (vals !! c) as [[s|]|].
Qed.

Lemma write_names_start (names : list string) (c : nat) (r : string) :
  (0 < c)%nat -> write_names names c <> String DQUOTE r.
Proof.
  intros Hc. destruct names; [done|]. cbn [write_names].
  destruct (0 <? c)%nat eqn:E; [done|]. apply Nat.ltb_ge in E. lia.
Qed.

Lemma write_names_no_eol_end (names : list string) (c : nat) :
  no_eol_end (write_names names c).
Proof.
  revert c. induction names as [|n names IH]; intros c; [done|].
  cbn [write_names]. apply no_eol_end_app; [|apply no_eol_end_app].
  - destruct (0 <? c)%nat; [|done]. intros x [= <-]. done.
  - apply print_csv_field_no_eol_end.
  - apply IH.
Qed.

Lemma parse_loop_names (names : list string) (c : nat) (buf : string) :
  (0 < c)%nat ->
  parse_loop COMMA false buf (write_names names c) = buf :: names.
Proof.
  revert c buf. induction names as [|n names IH]; intros c buf Hc; [done|].
  cbn [write_names]. destruct (0 <? c)%nat eqn:E; [|apply Nat.ltb_ge in E; lia].
  rewrite str_app_cons, parse_loop_cons.
  change (Ascii.eqb COMMA DQUOTE) with false. rewrite Ascii.eqb_refl. cbv iota.
  f_equal. change (EmptyString +:+ ?x) with x.
  rewrite parse_loop_field by (intros r; apply write_names_start; lia).
  apply IH. lia.
Qed.

(** X5. A row line written by the output stage of code3.c, read the way
    merger2.c reads a line (end of line trimmed, then split at commas with
    quotes resolved), gives back the key and the cell values of columns
    1, 2, ..., an absent cell as the empty string - whatever characters
    the values hold. *)
Theorem code3_row_read_by_merger2 (ncols : nat) (row : AppRow) :
  parse_delim_line (trim_eol (code3_row_line ncols row)) COMMA
  = appno row :: map (cell_text (values row)) (seq 1 (ncols - 1)).
Proof.
  unfold code3_row_line, parse_delim_line.
  rewrite <- str_app_assoc, trim_eol_line.
  2:{ apply no_eol_end_app;
        [apply print_csv_field_no_eol_end|apply write_values_no_eol_end]. }
  rewrite parse_loop_field by (intros r; apply write_values_start).
  apply parse_loop_values.
Qed.

(** X6. The header line code3.c writes for a non-empty list of column
    names is read back by merger2.c as exactly these names. *)
Theorem code3_header_read_by_merger2 (names : list string) :
  names <> [] ->
  parse_delim_line (trim_eol (code3_header_line names)) COMMA = names.
Proof.
  destruct names as [|n names]; [done|]. intros _.
  unfold code3_header_line, parse_delim_line.
  rewrite trim_eol_line by apply write_names_no_eol_end.
  cbn [write_names]. change (0 <? 0)%nat with false. cbv iota.
  change (EmptyString +:+ ?x) with x.
  rewrite parse_loop_field by (intros r; apply write_names_start; lia).
  apply parse_loop_names. lia.
Qed.

Lemma code3_header_read_by_merger2_witness :
  parse_delim_line
    (trim_eol (code3_header_line ["application_number"; "a,b"; EmptyString]))
    COMMA
  = ["application_number"; "a,b"; EmptyString].
Proof.
  apply (code3_header_read_by_merger2 ["application_number"; "a,b"; EmptyString]).
  discriminate.
Defined.

(** ** The hash map as a finite map *)

Lemma hmap_put_all_wf (kvs : list (string * Z)) (m : HMap) :
  hmap_wf m -> hmap_wf (hmap_put_all m kvs).
Proof.
  revert m. induction kvs as [|kv kvs IH]; intros m Hm; [done|].
  apply IH. auto with tables.
Qed.

Lemma hmap_put_all_get_from (kvs : list (string * Z)) (m : HMap) (k : string) :
  hmap_wf m ->
  hmap_get (hmap_put_all m kvs) k
  = match last_put kvs k with
    | Some v => Some (mkEntry k v)
    | None => hmap_get m k
    end.
Proof.
  revert m. induction kvs as [|[k' v'] kvs IH]; intros m Hm; [done|].
  change (hmap_put_all m ((k', v') :: kvs))
    with (hmap_put_all (hmap_put m k' v' true) kvs).
  rewrite IH by auto with tables. cbn [last_put fst snd].
  destruct (last_put kvs k); [done|].
  destruct (String.eqb k' k) eqn:E.
  - apply string_eqb_true in E as ->. by apply hmap_get_put_eq.
  - apply string_eqb_false in E. by apply hmap_get_put_ne.
Qed.

Lemma last_put_is_Some (kvs : list (string * Z)) (k : string) :
  is_Some (last_put kvs k) <-> k ∈ map fst kvs.
Proof.
  induction kvs as [|[k' v'] kvs IH].
  - split; [by intros [? ?]|by intros ?%elem_of_nil].
  - cbn [last_put map fst snd]. rewrite elem_of_cons, <- IH.
    destruct (last_put kvs k).
    + split; [by right|done].
    + destruct (String.eqb k' k) eqn:E.
      * apply string_eqb_true in E as ->. split; [by left|done].
      * apply string_eqb_false in E. split; [by intros [? ?]|].
        intros [->|[? ?]]; done.
Qed.

(** X7. Whatever the positive number of buckets and however the keys
    collide, a table filled by a sequence of [hmap_put] calls from the
    empty table answers [hmap_get] like a finite map: a key gets the value
    of the last put for it, a key never put gets no entry, and every key
    that was put is stored exactly once. *)
Theorem hmap_put_all_get (n : Z) (kvs : list (string * Z)) :
  0 < n ->
  let m := hmap_put_all (hmap_init n) kvs in
  (forall k,
     hmap_get m k
     = match last_put kvs k with
       | Some v => Some (mkEntry k v)
       | None => None
       end)
  /\ NoDup (hmap_keys m)
  /\ (forall k, k ∈ hmap_keys m <-> k ∈ map fst kvs).
Proof.
  intros Hn m.
  assert (Hwf : hmap_wf m) by (apply hmap_put_all_wf; auto with tables).
  assert (Hget : forall k,
            hmap_get m k
            = match last_put kvs k with
              | Some v => Some (mkEntry k v)
              | None => None
              end).
  { intros k. unfold m. rewrite hmap_put_all_get_from by auto with tables.
    by rewrite hmap_get_init. }
  split; [exact Hget|]. split; [apply Hwf|].
  intros k. rewrite <- (hmap_get_is_Some m k Hwf), <- last_put_is_Some, Hget.
  destruct (last_put kvs k); split; intros [? ?]; done.
Qed.

Lemma hmap_put_all_get_witness :
  let m := hmap_put_all (hmap_init 1) [("a", 1); ("b", 2); ("a", 3)] in
  (forall k,
     hmap_get m k
     = match last_put [("a", 1); ("b", 2); ("a", 3)] k with
       | Some v => Some (mkEntry k v)
       | None => None
       end)
  /\ NoDup (hmap_keys m)
  /\ (forall k, k ∈ hmap_keys m <-> k ∈ map fst [("a", 1); ("b", 2); ("a", 3)]).
Proof. apply (hmap_put_all_get 1 [("a", 1); ("b", 2); ("a", 3)]). lia. Defined.

(** ** [detect_id_col] *)

Lemma detect_application_number_spec (cs : list string) (i0 : nat) :
  match detect_application_number cs i0 with
  | Some i =>
      (i0 <= i < i0 + length cs)%nat
      /\ (exists c, cs !! (i - i0)%nat = Some c
                    /\ contains (lower_name c) "application_number" = true)
      /\ forall j c, (j < i - i0)%nat -> cs !! j = Some c ->
           contains (lower_name c) "application_number" = false
  | None =>
      forall c, c ∈ cs -> contains (lower_name c) "application_number" = false
  end.
Proof.
  revert i0. induction cs as [|c cs IH]; intros i0.
  - intros c Hc. by apply elem_of_nil in Hc.
  - cbn [detect_application_number].
    destruct (contains (lower_name c) "application_number") eqn:E.
    + split; [cbn [length]; lia|]. split.
      * exists c. by rewrite Nat.sub_diag.
      * intros j c'. lia.
    + specialize (IH (S i0)).
      destruct (detect_application_number cs (S i0)) as [i|].
      * destruct IH as (Hi & (c' & Hc' & Hcc) & Hlt).
        split; [cbn [length]; lia|]. split.
        -- exists c'. replace (i - i0)%nat with (S (i - S i0)) by lia. done.
        -- intros j cj Hj Hl. destruct j as [|j].
           ++ injection Hl as <-. exact E.
           ++ apply (Hlt j cj); [lia|exact Hl].
      * intros c' [->|Hc']%elem_of_cons; [exact E|by apply IH].
Qed.

Lemma detect_patent_bound (cs : list string) (i0 : nat) (best : Z) :
  best = -1 \/ 0 <= best < Z.of_nat (i0 + length cs) ->
  0 <= detect_patent cs i0 best
  /\ (cs <> [] \/ best <> -1 ->
      detect_patent cs i0 best < Z.of_nat (i0 + length cs)).
Proof.
  revert i0 best. induction cs as [|c cs IH]; intros i0 best Hb.
  - cbn [detect_patent].
    destruct (best =? -1) eqn:E; cbn [negb].
    + apply Z.eqb_eq in E. split; [lia|]. intros [?|?]; done.
    + apply Z.eqb_neq in E. split; [lia|]. intros _. lia.
  - cbn [detect_patent length]. cbn [length] in Hb.
    destruct (contains (lower_name c) "patent"
              && (contains (lower_name c) "number" || contains (lower_name c) "id")).
    { split; [lia|]. intros _. lia. }
    replace (i0 + S (length cs))%nat with (S i0 + length cs)%nat by lia.
    destruct (contains (lower_name c) "app" && contains (lower_name c) "number").
    + destruct (best =? -1) eqn:E.
      * destruct (IH (S i0) (Z.of_nat i0)) as [H1 H2]; [right; lia|].
        split; [exact H1|]. intros _. apply H2. right. lia.
      * apply Z.eqb_neq in E.
        destruct (IH (S i0) best) as [H1 H2]; [right; lia|].
        split; [exact H1|]. intros _. apply H2. by right.
    + destruct (IH (S i0) best) as [H1 H2]; [lia|].
      split; [exact H1|]. intros _.
      destruct (decide (best = -1)) as [->|Hne].
      * destruct cs as [|c2 cs2]; [cbn; lia|]. apply H2. by left.
      * apply H2. by right.
Qed.

Lemma detect_id_col_lt (cs : list string) :
  cs <> [] -> (detect_id_col cs < length cs)%nat.
Proof.
  intros Hcs. unfold detect_id_col.
  pose proof (detect_application_number_spec cs 0) as H.
  destruct (detect_application_number cs 0) as [i|]; [lia|].
  destruct (detect_patent_bound cs 0 (-1)) as [H1 H2]; [by left|].
  specialize (H2 (or_introl Hcs)). lia.
Qed.

(** X8. For a non-empty header the detected key column is one of its
    columns: the index is below the column count and the header has a
    name there. *)
Theorem detect_id_col_in_range (cs : list string) :
  cs <> [] ->
  (detect_id_col cs < length cs)%nat
  /\ exists name, cs !! detect_id_col cs = Some name.
Proof.
  intros Hcs. pose proof (detect_id_col_lt cs Hcs) as Hlt.
  split; [exact Hlt|]. by apply lookup_lt_is_Some_2.
Qed.

Lemma detect_id_col_in_range_witness :
  (detect_id_col ["title"; "app_number"; "Patent_ID"] < 3)%nat
  /\ exists name,
       ["title"; "app_number"; "Patent_ID"]
       !! detect_id_col ["title"; "app_number"; "Patent_ID"] = Some name.
Proof.
  apply (detect_id_col_in_range ["title"; "app_number"; "Patent_ID"]). discriminate.
Defined.



(** ** [parse_claim_year_from_name] *)

Lemma isdigit_range (c : ascii) : isdigit c = true -> 0 <= char_code c - 48 <= 9.
Proof. unfold isdigit. intros H. apply andb_true_iff in H as [H1 H2]. lia. Qed.

Lemma year_digits_range (n : nat) (p : string) (y : Z) :
  0 <= y -> 0 <= year_digits n p y < (y + 1) * 10 ^ Z.of_nat n.
Proof.
  revert p y. induction n as [|n IH]; intros p y Hy.
  - cbn [year_digits]. change (10 ^ Z.of_nat 0) with 1. lia.
  - assert (Hpow : 10 ^ Z.of_nat (S n) = 10 * 10 ^ Z.of_nat n).
    { rewrite Nat2Z.inj_succ, Z.pow_succ_r; lia. }
    assert (Hpos : 0 < 10 ^ Z.of_nat n) by (apply Z.pow_pos_nonneg; lia).
    cbn [year_digits]. destruct p as [|c r]; [nia|].
    destruct (isdigit c) eqn:E; [|nia].
    apply isdigit_range in E.
    specialize (IH r (y * 10 + (char_code c - 48)) ltac:(lia)). nia.
Qed.

(** X10. The year read from a file name is between 0 and 9999: at most
    four digits are read, so the value fits an [int] and is never
    negative. *)
Theorem claim_year_range (pth : string) :
  0 <= parse_claim_year_from_name pth <= 9999.
Proof.
  unfold parse_claim_year_from_name.
  destruct (strstr (tolower_inplace (file_stem pth 512)) "claims_"); [|lia].
  destruct (str_drop 7 s) as [|c r]; [lia|].
  destruct (negb (isdigit c)); [lia|].
  pose proof (year_digits_range 4 (String c r) 0 ltac:(lia)) as H.
  change ((0 + 1) * 10 ^ Z.of_nat 4) with 10000 in H. lia.
Qed.

(** ** Tables: [filestore_get_or_create] and the header part of [load_file] *)

(** X11. On a table that satisfies the invariant, asking again for the
    row of a key returns the same row and changes nothing; the row index
    is that of the key in [ids], and the index entries of all other keys
    are untouched. *)
Theorem filestore_get_or_create_again (fs : FileStore) (id : string) :
  fs_inv fs ->
  Z.of_nat (nrows fs) <= INT_MAX ->
  let r := filestore_get_or_create fs id in
  filestore_get_or_create (fst r) id = r
  /\ 0 <= snd r < Z.of_nat (nrows (fst r))
  /\ ids (fst r) !! Z.to_nat (snd r) = Some id
  /\ (forall k, k <> id ->
        hmap_get (id_to_idx (fst r)) k = hmap_get (id_to_idx fs) k).
Proof.
  intros Hinv Hn. pose proof Hinv as (Hwf & _ & _ & Hget & _).
  unfold filestore_get_or_create.
  destruct (hmap_get (id_to_idx fs) id) as [e|] eqn:E; cbn zeta.
  - cbn [fst snd]. rewrite E. destruct (Hget id e E) as [H0 Hl].
    split; [done|]. split; [|done].
    apply lookup_lt_Some in Hl. unfold nrows. lia.
  - unfold filestore_add_row. cbn [fst snd id_to_idx ids].
    rewrite hmap_get_put_eq by done. cbn [value].
    rewrite to_int_small by (unfold nrows in *; lia).
    split; [done|]. unfold nrows. cbn [ids]. rewrite length_app. cbn [length].
    split; [lia|]. split.
    + rewrite Nat2Z.id. by apply list_lookup_middle.
    + intros k Hk. by apply hmap_get_put_ne.
Qed.

Lemma filestore_get_or_create_again_witness :
  let r := filestore_get_or_create (filestore_init "a.csv") "P1" in
  filestore_get_or_create (fst r) "P1" = r
  /\ 0 <= snd r < Z.of_nat (nrows (fst r))
  /\ ids (fst r) !! Z.to_nat (snd r) = Some "P1"
  /\ (forall k, k <> "P1" ->
        hmap_get (id_to_idx (fst r)) k
        = hmap_get (id_to_idx (filestore_init "a.csv")) k).
Proof.
  apply (filestore_get_or_create_again (filestore_init "a.csv") "P1").
  - apply filestore_init_inv.
  - change (0 <= INT_MAX). unfold INT_MAX. lia.
Defined.

Lemma load_rows_same_header (lines : list string) (fs : FileStore) :
  same_header fs (fold_left load_row lines fs).
Proof.
  revert fs. induction lines as [|l lines IH]; intros fs; [apply same_header_refl|].
  cbn [fold_left]. eapply same_header_trans; [apply load_row_header|apply IH].
Qed.

Lemma parse_delim_line_nonempty (line : string) (d : ascii) :
  parse_delim_line line d <> [].
Proof. apply parse_loop_nonempty. Qed.

Lemma load_file_nonempty (pth data : string) :
  data <> EmptyString ->
  exists raw t fs,
    fgets MAX_LINE_LEN data = Some (raw, t)
    /\ load_file (Some data) (filestore_init pth) = Ok fs
    /\ same_header (load_header (filestore_init pth) raw) fs.
Proof.
  intros Hd. unfold load_file.
  destruct (fgets MAX_LINE_LEN data) as [[raw t]|] eqn:E.
  - exists raw, t. eexists. split; [done|]. split; [done|].
    rewrite load_rows_fold. apply load_rows_same_header.
  - unfold fgets in E. destruct data; [done|].
    destruct (fgets_buf (N.pred MAX_LINE_LEN) (String a data)); done.
Qed.

(** X12. After loading a file that is not empty, the table has at least
    one column, its key column is one of them and is the name [main]
    writes as the key header when the file is the first input, there is
    one cell per other column, the delimiter is the tab or the comma, and
    the table is a Claims table exactly when its year is positive. *)
Theorem load_file_header (pth data : string) :
  data <> EmptyString ->
  exists fs,
    load_file (Some data) (filestore_init pth) = Ok fs
    /\ path fs = pth
    /\ cols fs <> []
    /\ (id_col fs < ncols fs)%nat
    /\ n_nonid fs = (ncols fs - 1)%nat
    /\ (delim fs = TAB \/ delim fs = COMMA)
    /\ (is_claim fs = true <-> 0 < claim_year fs)
    /\ forall rest, cols fs !! id_col fs = Some (id_name (fs :: rest)).
Proof.
  intros Hd.
  destruct (load_file_nonempty pth data Hd) as (raw & t & fs & _ & Hload & Hh).
  exists fs. split; [exact Hload|].
  destruct Hh as (Hp & Hdl & Hid & Hcl & Hy & Hc & Hnn).
  unfold id_name, ncols. rewrite Hp, Hdl, Hid, Hcl, Hy, Hc, Hnn.
  clear fs Hload Hp Hdl Hid Hcl Hy Hc Hnn.
  cbn [load_header filestore_init path delim id_col is_claim claim_year cols n_nonid].
  set (line := trim_eol raw).
  set (d := if strchr line TAB && negb (strchr line COMMA) then TAB else COMMA).
  pose proof (parse_delim_line_nonempty line d) as Hne.
  pose proof (detect_id_col_lt _ Hne) as Hlt.
  split; [done|]. split; [done|]. split; [done|]. split.
  { destruct (parse_delim_line line d); [done|]. cbn. lia. }
  split. { subst d. destruct (strchr line TAB && negb (strchr line COMMA)); auto. }
  split.
  { destruct (0 <? parse_claim_year_from_name pth) eqn:E.
    - apply Z.ltb_lt in E. done.
    - apply Z.ltb_ge in E. split; [done|lia]. }
  intros _. destruct (lookup_lt_is_Some_2 _ _ Hlt) as [c Hcol].
  rewrite Hcol.
  replace (0 <? length (parse_delim_line line d))%nat with true
    by (symmetry; apply Nat.ltb_lt; lia).
  replace (detect_id_col (parse_delim_line line d)
           <? length (parse_delim_line line d))%nat with true
    by (symmetry; apply Nat.ltb_lt; lia).
  done.
Qed.

Lemma load_file_header_witness :
  exists fs,
    load_file (Some ex_file_a) (filestore_init "a.csv") = Ok fs
    /\ path fs = "a.csv"
    /\ cols fs <> []
    /\ (id_col fs < ncols fs)%nat
    /\ n_nonid fs = (ncols fs - 1)%nat
    /\ (delim fs = TAB \/ delim fs = COMMA)
    /\ (is_claim fs = true <-> 0 < claim_year fs)
    /\ forall rest, cols fs !! id_col fs = Some (id_name (fs :: rest)).
Proof. apply (load_file_header "a.csv" ex_file_a). vm_compute. discriminate. Defined.

(** ** The output table: header and rows have the same columns *)

Lemma load_file_shape (pth : string) (content : option string) (fs : FileStore) :
  load_file content (filestore_init pth) = Ok fs -> table_shape fs.
Proof.
  destruct content as [data|]; [|done].
  destruct (decide (data = EmptyString)) as [->|Hd].
  - intros [= <-]. split; [done|by left].
  - destruct (load_file_nonempty pth data Hd) as (raw & t & fs' & _ & Hload & Hh).
    rewrite Hload. intros [= <-].
    destruct Hh as (_ & _ & Hid & _ & _ & Hc & Hnn).
    unfold table_shape, ncols. rewrite Hid, Hc, Hnn.
    cbn [load_header id_col cols n_nonid].
    match goal with
    | |- context [detect_id_col ?cs] =>
        pose proof (detect_id_col_lt cs (parse_delim_line_nonempty _ _)) as Hlt;
        destruct cs; [cbn in Hlt; lia|]
    end.
    split; [cbn; lia|by right].
Qed.

Lemma load_all_shape (w : World) (files : list string) (stores : list FileStore) :
  load_all w files = Ok stores -> Forall table_shape stores.
Proof.
  revert stores. induction files as [|q files IH]; intros stores Hload.
  - cbn in Hload. injection Hload as <-. apply Forall_nil_2.
  - cbn [load_all] in Hload.
    destruct (load_file (file_content w q) (filestore_init q)) as [fs|] eqn:Hfs;
      [|discriminate].
    cbn [bind] in Hload.
    destruct (load_all w files) as [l|] eqn:Hl; [|discriminate].
    cbn [bind] in Hload. injection Hload as <-.
    apply Forall_cons. split; [by eapply load_file_shape|by apply IH].
Qed.

Lemma file_fields_length (fs : FileStore) (id : string) :
  table_shape fs -> length (file_fields fs id) = (ncols fs - 1)%nat.
Proof.
  intros [Hnn _]. unfold file_fields.
  destruct (hmap_get (id_to_idx fs) id).
  - by rewrite length_map, length_seq.
  - by rewrite length_replicate.
Qed.

Lemma header_names_cols_length (fs : FileStore) (stem : string) (cs : list string)
    (c : nat) (used : HMap) :
  length (fst (header_names_cols fs stem cs c used))
  = (length cs
     - (if decide (c <= id_col fs < c + length cs)%nat then 1 else 0))%nat.
Proof.
  revert c used. induction cs as [|name cs IH]; intros c used.
  - cbn. by destruct (decide _).
  - cbn [header_names_cols length].
    destruct (c =? id_col fs)%nat eqn:E.
    + apply Nat.eqb_eq in E. rewrite IH.
      repeat destruct (decide _); lia.
    + apply Nat.eqb_neq in E.
      match goal with
      | |- context [header_names_cols fs stem cs (S c) ?u] =>
          specialize (IH (S c) u);
          destruct (header_names_cols fs stem cs (S c) u) as [names used']
      end.
      cbn [fst length] in *. rewrite IH.
      repeat destruct (decide _); lia.
Qed.

Lemma header_names_files_length (stores : list FileStore) (used : HMap)
    (id : string) :
  Forall table_shape stores ->
  length (header_names_files stores used)
  = length (concat (map (fun fs => file_fields fs id) stores)).
Proof.
  intros Hs. revert used. induction Hs as [|fs stores Hfs Hs IH]; intros used; [done|].
  cbn [header_names_files map concat].
  pose proof (header_names_cols_length fs (file_stem (path fs) 256) (cols fs) 0 used)
    as Hlen.
  destruct (header_names_cols fs (file_stem (path fs) 256) (cols fs) 0 used)
    as [names used'].
  cbn [fst] in Hlen. rewrite !length_app, IH, Hlen, file_fields_length by done.
  f_equal. destruct Hfs as [_ [Hc|Hid]].
  - unfold ncols. rewrite Hc. cbn [length]. destruct (decide _); lia.
  - unfold ncols in *. destruct (decide _); lia.
Qed.

(** ** [build_eligible_ids]: order and the empty table *)

(** X14. When there is a Primary table, the eligible keys are pushed in
    the row order of the base table: they form a sublist of the keys of
    a Primary table with the fewest rows. *)
Theorem eligible_in_base_order (stores : list FileStore) :
  (exists p, p ∈ stores /\ is_claim p = false) ->
  exists (b : nat) (base : FileStore),
    stores !! b = Some base
    /\ is_claim base = false
    /\ (forall p, p ∈ stores -> is_claim p = false -> (nrows base <= nrows p)%nat)
    /\ sublist (build_eligible_ids stores) (ids base).
Proof.
  intros (p & Hp & Hpc). unfold build_eligible_ids.
  destruct (claims_scan stores) as [cu hc].
  destruct (find_base_spec stores) as [[_ Hall]|(Hb & base & Hl & Hbc & Hmin)].
  - rewrite (Hall p Hp) in Hpc. done.
  - exists (Z.to_nat (find_base stores stores 0 (-1))), base.
    split; [done|]. split; [done|]. split; [done|].
    replace (find_base stores stores 0 (-1) =? -1) with false
      by (symmetry; apply Z.eqb_neq; lia).
    rewrite Hl. apply sublist_filter.
Qed.

Lemma eligible_in_base_order_witness :
  exists (b : nat) (base : FileStore),
    ex_stores_a !! b = Some base
    /\ is_claim base = false
    /\ (forall p, p ∈ ex_stores_a -> is_claim p = false -> (nrows base <= nrows p)%nat)
    /\ sublist (build_eligible_ids ex_stores_a) (ids base).
Proof.
  apply (eligible_in_base_order ex_stores_a).
  exists (loaded "a.csv" ex_file_a). split; [apply list_elem_of_here|reflexivity].
Defined.

Lemma build_eligible_ids_empty_primary (stores : list FileStore) :
  (exists p, p ∈ stores /\ is_claim p = false /\ ids p = []) ->
  build_eligible_ids stores = [].
Proof.
  intros (p & Hp & Hpc & Hids). unfold build_eligible_ids.
  destruct (claims_scan stores) as [cu hc].
  destruct (find_base_spec stores) as [[_ Hall]|(Hb & base & Hl & Hbc & Hmin)].
  - rewrite (Hall p Hp) in Hpc. done.
  - replace (find_base stores stores 0 (-1) =? -1) with false
      by (symmetry; apply Z.eqb_neq; lia).
    rewrite Hl. specialize (Hmin p Hp Hpc). unfold nrows in Hmin.
    rewrite Hids in Hmin. destruct (ids base); [done|cbn in Hmin; lia].
Qed.

(** ** [main]: exit status and output *)

(** X15. When one of the loaded Primary tables has no data row - its
    file is empty or holds only a header line - no key is eligible, and
    [main] ends with status 0 without opening the output file. *)
Theorem empty_primary_no_output (w : World) (argv files : list string) (N : Z)
    (outpath : string) (stores : list FileStore) :
  (2 <= length argv)%nat ->
  parse_args (tail argv) 100000 "merged.csv" = (N, outpath, files) ->
  files <> [] ->
  load_all w files = Ok stores ->
  (exists p, p ∈ stores /\ is_claim p = false /\ ids p = []) ->
  build_eligible_ids stores = [] /\ main w argv = mkOutcome 0 None.
Proof.
  intros Hargc Hargs Hfiles Hload Hp.
  pose proof (build_eligible_ids_empty_primary stores Hp) as He.
  split; [exact He|]. unfold main.
  replace (length argv <? 2)%nat with false by (symmetry; apply Nat.ltb_ge; lia).
  rewrite Hargs.
  replace (length files <=? 0)%nat with false
    by (symmetry; apply Nat.leb_gt; destruct files; [done|cbn; lia]).
  rewrite Hload, He. done.
Qed.

Lemma empty_primary_no_output_witness :
  build_eligible_ids [loaded "a.csv" ex_file_a; loaded "h.csv" ("id,x" +:+ nl)] = []
  /\ main ex_world_short ["merge"; "a.csv"; "h.csv"] = mkOutcome 0 None.
Proof.
  apply (empty_primary_no_output ex_world_short ["merge"; "a.csv"; "h.csv"]
           ["a.csv"; "h.csv"] 100000 "merged.csv").
  - simpl. lia.
  - reflexivity.
  - discriminate.
  - cbn [load_all].
    change (file_content ex_world_short "a.csv") with (Some ex_file_a).
    change (file_content ex_world_short "h.csv") with (Some ("id,x" +:+ nl)).
    rewrite !load_file_loaded. reflexivity.
  - exists (loaded "h.csv" ("id,x" +:+ nl)).
    split; [apply list_elem_of_further, list_elem_of_here|].
    split; vm_compute; reflexivity.
Defined.

Lemma load_all_exit (w : World) (files : list string) (c : Z) :
  load_all w files = Exit c -> c = 1.
Proof.
  induction files as [|q files IH]; [done|]. cbn [load_all].
  destruct (file_content w q) as [data|]; [|by intros [= <-]].
  unfold load_file at 1.
  destruct (fgets MAX_LINE_LEN data) as [[raw t]|]; cbn [bind];
    (destruct (load_all w files); [done|]); cbn [bind]; intros [= <-]; by apply IH.
Qed.

(** X16. [main] ends with status 0 or 1, and with status 1 it has
    written no output file (the file is opened only after every input is
    loaded and some key is eligible). *)
Theorem main_exit_status (w : World) (argv : list string) :
  exit_code (main w argv) = 0
  \/ (exit_code (main w argv) = 1 /\ out_file (main w argv) = None).
Proof.
  unfold main. destruct (length argv <? 2)%nat; [by right|].
  destruct (parse_args (tail argv) 100000 "merged.csv") as [[sample outpath] files].
  destruct (length files <=? 0)%nat; [by right|].
  destruct (load_all w files) as [stores|c] eqn:E.
  - destruct (length (build_eligible_ids stores) =? 0)%nat; [by left|].
    destruct (negb (can_write w outpath)); [by right|by left].
  - apply load_all_exit in E as ->. by right.
Qed.

(** X17. An output file comes only from a complete run: if [main] leaves
    a file, the status is 0, the path is the one chosen by the options
    and could be opened for writing, every input file was opened and
    loaded, some key is eligible, and the text starts with the header
    line. *)
Theorem main_output_only_on_success (w : World) (argv : list string)
    (p txt : string) :
  out_file (main w argv) = Some (p, txt) ->
  exit_code (main w argv) = 0
  /\ can_write w p = true
  /\ exists (N : Z) (files : list string) (stores : list FileStore),
       parse_args (tail argv) 100000 "merged.csv" = (N, p, files)
       /\ files <> []
       /\ (forall q, q ∈ files -> is_Some (file_content w q))
       /\ load_all w files = Ok stores
       /\ build_eligible_ids stores <> []
       /\ exists rows, txt = write_header stores (id_name stores) +:+ rows.
Proof.
  unfold main. destruct (length argv <? 2)%nat; [done|].
  destruct (parse_args (tail argv) 100000 "merged.csv") as [[sample outpath] files].
  destruct (length files <=? 0)%nat eqn:Ef; [done|].
  destruct (load_all w files) as [stores|c] eqn:E; [|done].
  destruct (length (build_eligible_ids stores) =? 0)%nat eqn:Ee; [done|].
  destruct (negb (can_write w outpath)) eqn:Ew; [done|].
  cbn [out_file exit_code]. intros [= <- <-].
  split; [done|]. split; [by apply negb_false_iff in Ew|].
  exists sample, files, stores. split; [done|].
  split; [by destruct files|].
  split.
  { intros q Hq. destruct (load_all_readable w files stores E q Hq) as [d ->]. done. }
  split; [done|].
  split; [destruct (build_eligible_ids stores); done|].
  eexists. reflexivity.
Qed.

Lemma main_output_only_on_success_witness :
  exit_code (main ex_world ["merge"; "a.csv"]) = 0
  /\ can_write ex_world "merged.csv" = true
  /\ exists (N : Z) (files : list string) (stores : list FileStore),
       parse_args (tail ["merge"; "a.csv"]) 100000 "merged.csv"
       = (N, "merged.csv", files)
       /\ files <> []
       /\ (forall q, q ∈ files -> is_Some (file_content ex_world q))
       /\ load_all ex_world files = Ok stores
       /\ build_eligible_ids stores <> []
       /\ exists rows,
            "id,x" +:+ nl +:+ "2,bar" +:+ nl +:+ "1,foo" +:+ nl
            = write_header stores (id_name stores) +:+ rows.
Proof.
  apply (main_output_only_on_success ex_world ["merge"; "a.csv"] "merged.csv"
           ("id,x" +:+ nl +:+ "2,bar" +:+ nl +:+ "1,foo" +:+ nl)).
  vm_compute. reflexivity.
Defined.

(** * Further properties of code3.c *)

(** ** [parse_csv_line] *)

Lemma parse_csv_loop_cons (q : bool) (buf : string) (ch : ascii) (rest : string) :
  parse_csv_loop q buf (String ch rest)
  = if Ascii.eqb ch DQUOTE then
      if negb q then parse_csv_loop true buf rest
      else
        match rest with
        | String c1 rest' =>
            if Ascii.eqb c1 DQUOTE
            then parse_csv_loop true (buf_push buf DQUOTE) rest'
            else parse_csv_loop false buf rest
        | EmptyString => parse_csv_loop false buf rest
        end
    else if (Ascii.eqb ch COMMA && negb q)
            || Ascii.eqb ch NUL || Ascii.eqb ch LF || Ascii.eqb ch CR then
      if Ascii.eqb ch NUL || Ascii.eqb ch LF || Ascii.eqb ch CR
      then [buf]
      else buf :: parse_csv_loop q EmptyString rest
    else parse_csv_loop q (buf_push buf ch) rest.
Proof. reflexivity. Qed.

Lemma str_snoc_length (s : string) (c : ascii) :
  String.length (str_snoc s c) = S (String.length s).
Proof. unfold str_snoc. rewrite str_app_length. cbn. lia. Qed.

Lemma buf_push_length (buf : string) (c : ascii) :
  (String.length buf <= MAX_FIELD_BUF - 1)%nat ->
  (String.length (buf_push buf c) <= MAX_FIELD_BUF - 1)%nat.
Proof.
  intros H. unfold buf_push.
  destruct (String.length buf <? MAX_FIELD_BUF - 1)%nat eqn:E; [|done].
  apply Nat.ltb_lt in E. rewrite str_snoc_length. lia.
Qed.

Lemma parse_csv_loop_bound (n : nat) :
  forall line q buf,
    (String.length line <= n)%nat ->
    (String.length buf <= MAX_FIELD_BUF - 1)%nat ->
    parse_csv_loop q buf line <> []
    /\ Forall (fun f => (String.length f <= MAX_FIELD_BUF - 1)%nat)
         (parse_csv_loop q buf line).
Proof.
  induction n as [|n IH]; intros line q buf Hn Hb.
  - destruct line; [|cbn in Hn; lia]. split; [done|]. by apply Forall_singleton.
  - destruct line as [|ch rest].
    { split; [done|]. by apply Forall_singleton. }
    cbn [String.length] in Hn. rewrite parse_csv_loop_cons.
    destruct (Ascii.eqb ch DQUOTE).
    + destruct (negb q); [apply IH; [lia|done]|].
      destruct rest as [|c1 rest']; [apply IH; [cbn; lia|done]|].
      destruct (Ascii.eqb c1 DQUOTE).
      * apply IH; [cbn [String.length] in Hn; lia|by apply buf_push_length].
      * apply IH; [lia|done].
    + destruct ((Ascii.eqb ch COMMA && negb q)
                || Ascii.eqb ch NUL || Ascii.eqb ch LF || Ascii.eqb ch CR).
      * destruct (Ascii.eqb ch NUL || Ascii.eqb ch LF || Ascii.eqb ch CR).
        -- split; [done|]. by apply Forall_singleton.
        -- split; [done|]. apply Forall_cons. split; [done|].
           apply IH; [lia|cbn; lia].
      * apply IH; [lia|by apply buf_push_length].
Qed.

(** X19. [parse_csv_line] always yields at least one field, and no field
    is longer than [MAX_FIELD_BUF - 1] = 8191 characters: the fixed field
    buffer is never overrun, longer fields are cut. *)
Theorem parse_csv_line_bounded (line : string) :
  parse_csv_line line <> []
  /\ Forall (fun f => (String.length f <= MAX_FIELD_BUF - 1)%nat)
       (parse_csv_line line).
Proof.
  apply (parse_csv_loop_bound (String.length line)); [done|cbn; lia].
Qed.

(** The first field of the result starts with the field buffer. *)
Lemma parse_loop_head (d : ascii) (n : nat) :
  forall p q buf,
    (String.length p <= n)%nat ->
    exists t rest, parse_loop d q buf p = (buf +:+ t) :: rest.
Proof.
  assert (Hsn : forall buf c t, str_snoc buf c +:+ t = buf +:+ String c t)
    by (intros; apply str_snoc_app).
  induction n as [|n IH]; intros p q buf Hn.
  - destruct p; [|cbn in Hn; lia]. exists EmptyString, []. by rewrite str_app_nil_r.
  - destruct p as [|c rest].
    { exists EmptyString, []. by rewrite str_app_nil_r. }
    cbn [String.length] in Hn. rewrite parse_loop_cons.
    assert (Hpush : forall q' x,
              exists t r, parse_loop d q' (str_snoc buf x) rest = (buf +:+ t) :: r).
    { intros q' x. destruct (IH rest q' (str_snoc buf x)) as (t & r & ->); [lia|].
      exists (String x t), r. by rewrite Hsn. }
    destruct q.
    + destruct (Ascii.eqb c DQUOTE); [|apply Hpush].
      destruct rest as [|c1 rest']; [apply IH; cbn; lia|].
      destruct (Ascii.eqb c1 DQUOTE); [|apply IH; lia].
      destruct (IH rest' true (str_snoc buf DQUOTE)) as (t & r & ->);
        [cbn [String.length] in Hn; lia|].
      exists (String DQUOTE t), r. by rewrite Hsn.
    + destruct (Ascii.eqb c DQUOTE); [apply IH; lia|].
      destruct (Ascii.eqb c d); [|apply Hpush].
      exists EmptyString. eexists. by rewrite str_app_nil_r.
Qed.

Lemma buf_push_fits (d : ascii) (q : bool) (buf : string) (c : ascii) (rest : string) :
  Forall (fun f => (String.length f <= MAX_FIELD_BUF - 1)%nat)
    (parse_loop d q (str_snoc buf c) rest) ->
  buf_push buf c = str_snoc buf c.
Proof.
  intros H.
  destruct (parse_loop_head d (String.length rest) rest q (str_snoc buf c))
    as (t & r & E); [done|].
  rewrite E in H. apply Forall_cons in H as [H _].
  rewrite str_app_length, str_snoc_length in H.
  unfold buf_push.
  replace (String.length buf <? MAX_FIELD_BUF - 1)%nat with true; [done|].
  symmetry. apply Nat.ltb_lt. lia.
Qed.

Lemma parse_csv_loop_agrees (n : nat) :
  forall line q buf,
    (String.length line <= n)%nat ->
    strchr line NUL = false -> strchr line LF = false -> strchr line CR = false ->
    Forall (fun f => (String.length f <= MAX_FIELD_BUF - 1)%nat)
      (parse_loop COMMA q buf line) ->
    parse_csv_loop q buf line = parse_loop COMMA q buf line.
Proof.
  induction n as [|n IH]; intros line q buf Hn H0 Hlf Hcr Hfit.
  - destruct line; [done|cbn in Hn; lia].
  - destruct line as [|ch rest]; [done|].
    cbn [String.length] in Hn. cbn [strchr] in H0, Hlf, Hcr.
    apply orb_false_iff in H0 as [H0 H0r].
    apply orb_false_iff in Hlf as [Hlf Hlfr].
    apply orb_false_iff in Hcr as [Hcr Hcrr].
    rewrite parse_csv_loop_cons. rewrite parse_loop_cons in Hfit |- *.
    rewrite H0, Hlf, Hcr, !orb_false_r.
    destruct q; cbn [negb andb].
    + rewrite andb_false_r.
      destruct (Ascii.eqb ch DQUOTE).
      * destruct rest as [|c1 rest']; [apply IH; try done; cbn; lia|].
        destruct (Ascii.eqb c1 DQUOTE).
        -- rewrite (buf_push_fits _ _ _ _ _ Hfit).
           cbn [strchr] in H0r, Hlfr, Hcrr.
           apply orb_false_iff in H0r as [_ ?]. apply orb_false_iff in Hlfr as [_ ?].
           apply orb_false_iff in Hcrr as [_ ?].
           apply IH; try done. cbn [String.length] in Hn. lia.
        -- apply IH; try done. lia.
      * rewrite (buf_push_fits _ _ _ _ _ Hfit). apply IH; try done. lia.
    + rewrite andb_true_r.
      destruct (Ascii.eqb ch DQUOTE); [apply IH; try done; lia|].
      destruct (Ascii.eqb ch COMMA).
      * apply Forall_cons in Hfit as [_ Hfit]. f_equal. apply IH; try done. lia.
      * rewrite (buf_push_fits _ _ _ _ _ Hfit). apply IH; try done. lia.
Qed.

(** X20. The two line parsers agree: on a line without NUL, line feed
    and carriage return whose fields all fit the field buffer of code3.c,
    [parse_csv_line] of code3.c and [parse_delim_line] of merger2.c with
    the comma give the same fields. *)
Theorem parsers_agree (line : string) :
  strchr line NUL = false -> strchr line LF = false -> strchr line CR = false ->
  Forall (fun f => (String.length f <= MAX_FIELD_BUF - 1)%nat)
    (parse_delim_line line COMMA) ->
  parse_csv_line line = parse_delim_line line COMMA.
Proof. intros. by apply (parse_csv_loop_agrees (String.length line)). Qed.

Lemma parsers_agree_witness :
  parse_csv_line ("a," +:+ String DQUOTE ("b,c" +:+ String DQUOTE ",,d"))
  = parse_delim_line ("a," +:+ String DQUOTE ("b,c" +:+ String DQUOTE ",,d")) COMMA.
Proof.
  apply (parsers_agree ("a," +:+ String DQUOTE ("b,c" +:+ String DQUOTE ",,d")));
    [reflexivity|reflexivity|reflexivity|].
  match goal with
  | |- Forall _ ?l => let l' := eval vm_compute in l in change l with l'
  end.
  repeat (apply Forall_cons; split; [unfold MAX_FIELD_BUF; simpl String.length; lia|]).
  apply Forall_nil_2.
Defined.

(** ** The end-of-line strip of code3.c *)

Lemma str_init_snoc (s : string) (c : ascii) : str_init (str_snoc s c) = s.
Proof.
  induction s as [|a s IH]; [done|].
  unfold str_snoc in *. rewrite str_app_cons. cbn [str_init].
  destruct (s +:+ String c EmptyString) eqn:E; [by destruct s|].
  by rewrite IH.
Qed.

Lemma str_last_snoc (s : string) (c : ascii) : str_last (str_snoc s c) = Some c.
Proof. unfold str_snoc. by rewrite str_last_app. Qed.

Lemma chomp_fixed (body : string) : no_eol_end body -> chomp body = body.
Proof.
  intros H. unfold chomp. destruct (str_last body) as [c|] eqn:E; [|done].
  destruct (H c E) as [H1 H2]. apply ascii_eqb_false in H1, H2. by rewrite H1, H2.
Qed.

Lemma chomp_one (body : string) (c : ascii) :
  no_eol_end body -> c = LF \/ c = CR -> chomp (str_snoc body c) = body.
Proof.
  intros H Hc. unfold chomp. rewrite str_last_snoc, str_init_snoc.
  replace (Ascii.eqb c LF || Ascii.eqb c CR) with true
    by (destruct Hc as [-> | ->]; done).
  destruct (str_last body) as [c1|] eqn:E; [|done].
  destruct (H c1 E) as [_ H2]. apply ascii_eqb_false in H2. by rewrite H2.
Qed.

Lemma chomp_crlf (body : string) :
  chomp (body +:+ String CR (String LF EmptyString)) = body.
Proof.
  change (body +:+ String CR (String LF EmptyString))
    with (body +:+ (String CR EmptyString +:+ String LF EmptyString)).
  rewrite <- str_app_assoc. fold (str_snoc body CR). fold (str_snoc (str_snoc body CR) LF).
  unfold chomp. rewrite str_last_snoc, !str_init_snoc, str_last_snoc. done.
Qed.

(** X21. On a line whose text proper does not end in a line feed or a
    carriage return, followed by nothing, a line feed, a carriage return
    or a carriage return and a line feed, the end-of-line strip of
    code3.c and [trim_eol] of merger2.c both give the text proper. *)
Theorem chomp_trim_eol_agree (body e : string) :
  no_eol_end body ->
  e ∈ [EmptyString; String LF EmptyString; String CR EmptyString;
       String CR (String LF EmptyString)] ->
  chomp (body +:+ e) = body /\ trim_eol (body +:+ e) = body.
Proof.
  intros Hb He. split.
  - repeat (apply elem_of_cons in He as [->|He]).
    + rewrite str_app_nil_r. by apply chomp_fixed.
    + apply (chomp_one body LF); auto.
    + apply (chomp_one body CR); auto.
    + apply chomp_crlf.
    + by apply elem_of_nil in He.
  - rewrite trim_eol_app_eol; [by apply trim_eol_fixed|].
    repeat (apply elem_of_cons in He as [->|He]); try done.
    by apply elem_of_nil in He.
Qed.

Lemma chomp_trim_eol_agree_witness :
  chomp ("1,foo" +:+ String CR (String LF EmptyString)) = "1,foo"
  /\ trim_eol ("1,foo" +:+ String CR (String LF EmptyString)) = "1,foo".
Proof.
  apply (chomp_trim_eol_agree "1,foo" (String CR (String LF EmptyString))).
  - intros c H. vm_compute in H. injection H as <-. split; discriminate.
  - do 3 apply list_elem_of_further. apply list_elem_of_here.
Defined.

(** ** Lines written by code3.c, read by code3.c *)

Lemma strchr_put_escaped (s : string) (c : ascii) :
  c <> DQUOTE -> strchr (put_escaped s) c = strchr s c.
Proof.
  intros Hc. apply ascii_eqb_false in Hc. rewrite Ascii.eqb_sym in Hc.
  induction s as [|a s IH]; [done|]. cbn [put_escaped].
  destruct (Ascii.eqb a DQUOTE) eqn:E; cbn [strchr]; rewrite IH; [|done].
  apply ascii_eqb_true in E as ->. by rewrite Hc.
Qed.

Lemma strchr_print_csv_field (o : option string) (c : ascii) :
  c <> DQUOTE ->
  strchr (print_csv_field o) c = strchr (default EmptyString o) c.
Proof.
  intros Hc. destruct o as [s|]; [|done]. cbn [print_csv_field].
  change (default EmptyString (Some s)) with s.
  destruct (need_quotes s); [|done].
  pose proof Hc as Hc'. apply ascii_eqb_false in Hc'. rewrite Ascii.eqb_sym in Hc'.
  cbn [strchr]. rewrite Hc', strchr_app, strchr_put_escaped by done.
  cbn [strchr]. rewrite Hc'. by rewrite !orb_false_r.
Qed.

Lemma strchr_write_values (vals : list (option string)) (k n : nat) (c : ascii) :
  c <> DQUOTE -> c <> COMMA ->
  Forall (fun s => strchr s c = false) (map (cell_text vals) (seq k n)) ->
  strchr (write_values vals k n) c = false.
Proof.
  intros Hq Hcm. revert k. induction n as [|n IH]; intros k H; [done|].
  cbn [seq map] in H. apply Forall_cons in H as [H1 H2].
  cbn [write_values strchr].
  apply ascii_eqb_false in Hcm. rewrite Ascii.eqb_sym in Hcm. rewrite Hcm.
  rewrite strchr_app, strchr_print_csv_field, (IH _ H2) by done.
  unfold cell_text in H1. rewrite orb_false_r. cbn [orb].
  destruct (vals !! k) as [[s|]|]; [exact H1|done|done].
Qed.

(** X22. code3.c reads back what it writes, within limits: a row line
    of the output stage, stripped and parsed by [parse_csv_line], gives
    the key and the cell values again when no value holds a NUL, a line
    feed or a carriage return and none is longer than 8191 characters;
    commas and quotes inside values are kept. *)
Theorem code3_row_read_back (ncols : nat) (row : AppRow) :
  Forall (fun s => (String.length s <= MAX_FIELD_BUF - 1)%nat
                   /\ strchr s NUL = false /\ strchr s LF = false
                   /\ strchr s CR = false)
    (appno row :: map (cell_text (values row)) (seq 1 (ncols - 1))) ->
  parse_csv_line (chomp (code3_row_line ncols row))
  = appno row :: map (cell_text (values row)) (seq 1 (ncols - 1)).
Proof.
  intros H. unfold code3_row_line. rewrite <- str_app_assoc.
  set (body := print_csv_field (Some (appno row))
               +:+ write_values (values row) 1 (ncols - 1)).
  assert (Hend : no_eol_end body).
  { apply no_eol_end_app;
      [apply print_csv_field_no_eol_end|apply write_values_no_eol_end]. }
  fold (str_snoc body LF). rewrite chomp_one by auto.
  assert (Hparse : parse_delim_line body COMMA
                   = appno row :: map (cell_text (values row)) (seq 1 (ncols - 1))).
  { unfold body, parse_delim_line.
    rewrite parse_loop_field by (intros r; apply write_values_start).
    apply parse_loop_values. }
  assert (Hclean : forall c, c <> DQUOTE -> c <> COMMA ->
            Forall (fun s => strchr s c = false)
              (appno row :: map (cell_text (values row)) (seq 1 (ncols - 1))) ->
            strchr body c = false).
  { intros c Hq Hcm Hc. apply Forall_cons in Hc as [Hc1 Hc2].
    unfold body. rewrite strchr_app, strchr_print_csv_field by done.
    change (default EmptyString (Some (appno row))) with (appno row).
    rewrite Hc1. by apply strchr_write_values. }
  rewrite <- Hparse. unfold parse_csv_line, parse_delim_line.
  apply (parse_csv_loop_agrees (String.length body)); [done|..];
    fold (parse_delim_line body COMMA); rewrite ?Hparse.
  - apply Hclean; [done|done|]. eapply Forall_impl; [exact H|]. by intros s (_ & ? & _).
  - apply Hclean; [done|done|]. eapply Forall_impl; [exact H|]. by intros s (_ & _ & ? & _).
  - apply Hclean; [done|done|]. eapply Forall_impl; [exact H|]. by intros s (_ & _ & _ & ?).
  - eapply Forall_impl; [exact H|]. by intros s (? & _).
Qed.

Lemma code3_row_read_back_witness :
  parse_csv_line
    (chomp (code3_row_line 3
              (mkAppRow "77" [None; Some ("a,b" +:+ String DQUOTE "c"); None])))
  = ["77"; "a,b" +:+ String DQUOTE "c"; EmptyString].
Proof.
  apply (code3_row_read_back 3
           (mkAppRow "77" [None; Some ("a,b" +:+ String DQUOTE "c"); None])).
  repeat (apply Forall_cons; split;
          [split; [unfold MAX_FIELD_BUF; simpl String.length; lia|];
           split; [reflexivity|]; split; reflexivity|]).
  apply Forall_nil_2.
Defined.

(** ** Columns: [add_or_get_column] and the header map *)

Lemma column_index_spec (names : list string) (name : string) (i0 : nat) :
  match column_index names name i0 with
  | Some i =>
      (i0 <= i)%nat /\ names !! (i - i0)%nat = Some name
      /\ forall j, (j < i - i0)%nat -> names !! j <> Some name
  | None => name ∉ names
  end.
Proof.
  revert i0. induction names as [|n names IH]; intros i0.
  - apply not_elem_of_nil.
  - cbn [column_index]. destruct (String.eqb n name) eqn:E.
    + apply string_eqb_true in E as ->. rewrite Nat.sub_diag.
      split; [lia|]. split; [done|]. intros j Hj. lia.
    + apply string_eqb_false in E. specialize (IH (S i0)).
      destruct (column_index names name (S i0)) as [i|].
      * destruct IH as (Hi & Hl & Hfirst). split; [lia|].
        replace (i - i0)%nat with (S (i - S i0)) by lia. split; [done|].
        intros [|j] Hj; [by intros [= ->]|]. apply Hfirst. lia.
      * rewrite not_elem_of_cons. done.
Qed.

Lemma column_index_first (names : list string) (name : string) (i i0 : nat) :
  names !! i = Some name ->
  (forall j, (j < i)%nat -> names !! j <> Some name) ->
  column_index names name i0 = Some (i0 + i)%nat.
Proof.
  revert i i0. induction names as [|n names IH]; intros i i0 Hl Hfirst; [done|].
  cbn [column_index]. destruct i as [|i].
  - injection Hl as ->. rewrite String.eqb_refl. f_equal. lia.
  - destruct (String.eqb n name) eqn:E.
    + apply string_eqb_true in E as ->. destruct (Hfirst 0%nat); [lia|done].
    + rewrite (IH i (S i0)); [f_equal; lia|done|].
      intros j Hj. apply (Hfirst (S j)). lia.
Qed.

Lemma add_or_get_column_facts (names : list string) (name : string) :
  let r := add_or_get_column names name in
  fst r !! snd r = Some name
  /\ (if bool_decide (name ∈ names) then fst r = names else fst r = names ++ [name])
  /\ (NoDup names -> NoDup (fst r)).
Proof.
  unfold add_or_get_column.
  pose proof (column_index_spec names name 0) as H.
  destruct (column_index names name 0) as [i|]; cbn zeta; cbn [fst snd].
  - destruct H as (_ & Hl & _). rewrite Nat.sub_0_r in Hl.
    split; [done|]. split; [|done]. rewrite bool_decide_eq_true_2; [done|by_lookup].
  - split; [by apply list_lookup_middle|].
    split; [by rewrite bool_decide_eq_false_2|].
    intros Hnd. apply NoDup_app. split; [done|]. split; [|apply NoDup_singleton].
    intros x Hx Hx'. apply list_elem_of_singleton in Hx'. by subst x.
Qed.

(** X23. [add_or_get_column] returns the position of the name in the
    resulting list, which is the first position holding it; the list is
    unchanged when the name was known and gets the name appended when it
    was not; distinct names stay distinct; and asking again for the same
    name changes nothing and returns the same position. *)
Theorem add_or_get_column_spec (names : list string) (name : string) :
  let r := add_or_get_column names name in
  fst r !! snd r = Some name
  /\ (forall j, (j < snd r)%nat -> fst r !! j <> Some name)
  /\ (if bool_decide (name ∈ names) then fst r = names else fst r = names ++ [name])
  /\ (NoDup names -> NoDup (fst r))
  /\ add_or_get_column (fst r) name = r.
Proof.
  destruct (add_or_get_column_facts names name) as (Hl & Hcase & Hnd).
  cbn zeta in *.
  assert (Hfirst : forall j, (j < snd (add_or_get_column names name))%nat ->
            fst (add_or_get_column names name) !! j <> Some name).
  { unfold add_or_get_column.
    pose proof (column_index_spec names name 0) as H.
    destruct (column_index names name 0) as [i|]; cbn [fst snd].
    - destruct H as (_ & _ & Hfirst). intros j Hj. apply Hfirst. lia.
    - intros j Hj Hj'. rewrite lookup_app_l in Hj' by done. apply H. by_lookup. }
  split; [done|]. split; [done|]. split; [done|]. split; [done|].
  unfold add_or_get_column at 1.
  rewrite (column_index_first _ _ _ 0 Hl Hfirst). by destruct (add_or_get_column names name).
Qed.

Lemma add_or_get_column_prefix (names : list string) (name : string) :
  names `prefix_of` fst (add_or_get_column names name).
Proof.
  destruct (add_or_get_column_facts names name) as (_ & H & _).
  destruct (bool_decide (name ∈ names)); rewrite H; [done|].
  by apply prefix_app_r.
Qed.

Lemma map_columns_prefix (header names : list string) :
  names `prefix_of` fst (map_columns names header)
  /\ (NoDup names -> NoDup (fst (map_columns names header))).
Proof.
  revert names. induction header as [|h header IH]; intros names; [done|].
  cbn [map_columns].
  pose proof (add_or_get_column_facts names h) as (_ & _ & Hnd).
  pose proof (add_or_get_column_prefix names h) as Hpre.
  destruct (add_or_get_column names h) as [names1 idx]. cbn [fst snd] in *.
  specialize (IH names1).
  destruct (map_columns names1 header) as [names2 l2g]. cbn [fst snd] in *.
  destruct IH as [Hpre2 Hnd2]. split; [by etrans|auto].
Qed.

(** X24. Mapping a header onto the global columns: every header name is
    mapped to a position of the resulting column list that holds this
    very name; the known columns keep their positions (the old list is a
    prefix of the new one); the new list holds exactly the old names and
    the header names; and distinct names stay distinct. *)
Theorem map_columns_spec (header names : list string) :
  let r := map_columns names header in
  names `prefix_of` fst r
  /\ Forall2 (fun g h => fst r !! g = Some h) (snd r) header
  /\ (NoDup names -> NoDup (fst r))
  /\ (forall x, x ∈ fst r <-> x ∈ names \/ x ∈ header).
Proof.
  revert names. induction header as [|h header IH]; intros names.
  - cbn. split; [done|]. split; [constructor|]. split; [done|].
    intros x. rewrite elem_of_nil. tauto.
  - cbn [map_columns].
    pose proof (add_or_get_column_facts names h) as (Hl & Hcase & Hnd).
    pose proof (add_or_get_column_prefix names h) as Hpre.
    destruct (add_or_get_column names h) as [names1 idx]. cbn [fst snd] in *.
    specialize (IH names1).
    destruct (map_columns names1 header) as [names2 l2g]. cbn [fst snd] in *.
    destruct IH as (Hpre2 & Hall & Hnd2 & Hin).
    split; [by etrans|]. split.
    { constructor; [|done]. by eapply prefix_lookup_Some. }
    split; [auto|].
    intros x. rewrite Hin, elem_of_cons.
    destruct (bool_decide (h ∈ names)) eqn:Eb; subst names1.
    + apply bool_decide_eq_true in Eb. split; [tauto|].
      intros [?|[->|?]]; auto.
    + rewrite elem_of_app, list_elem_of_singleton. tauto.
Qed.

(** ** The ingestion loop of code3.c keeps its tables consistent *)

Lemma index_of_put (m : HMap) (keys : list string) (k : string) (o : bool) :
  index_of m keys -> hmap_get m k = None ->
  Z.of_nat (length keys) <= INT_MAX ->
  index_of (hmap_put m k (to_int (Z.of_nat (length keys))) o) (keys ++ [k]).
Proof.
  intros (Hwf & Hnd & Hget & Hkeys) Hnone Hsmall.
  assert (Hfresh : k ∉ keys).
  { intros Hk. apply list_elem_of_lookup in Hk as [i Hi].
    destruct (Hkeys i k Hi) as (e & He & _). by rewrite Hnone in He. }
  rewrite to_int_small by lia.
  split; [auto with tables|]. split.
  { apply NoDup_app. split; [done|]. split; [|apply NoDup_singleton].
    intros x Hx Hx'. apply list_elem_of_singleton in Hx'. by subst x. }
  split.
  - intros k' e He. destruct (decide (k = k')) as [<-|Hne].
    + rewrite hmap_get_put_eq in He by done. injection He as <-.
      cbn [value]. split; [lia|]. rewrite Nat2Z.id. by apply list_lookup_middle.
    + rewrite hmap_get_put_ne in He by done.
      destruct (Hget k' e He) as [H0 Hl]. split; [done|].
      by apply lookup_app_l_Some.
  - intros i k' Hi. apply lookup_app_Some in Hi as [Hi|[Hge Hi]].
    + destruct (Hkeys i k' Hi) as (e & He & Hv). exists e. split; [|done].
      rewrite hmap_get_put_ne; [done|]. intros ->. apply Hfresh. by_lookup.
    + apply list_lookup_singleton_Some in Hi as [Hi <-].
      exists (mkEntry k (Z.of_nat (length keys))). split.
      * by apply hmap_get_put_eq.
      * cbn [value]. f_equal. lia.
Qed.

Lemma map_appno_alter (f : AppRow -> AppRow) (i : nat) (t : list AppRow) :
  (forall r, appno (f r) = appno r) -> map appno (alter f i t) = map appno t.
Proof.
  intros Hf. revert i. induction t as [|r t IH]; intros [|i]; cbn; [done..| |].
  - by rewrite Hf.
  - f_equal. apply IH.
Qed.

Lemma fill_values_length (l2g : list nat) (fields : list string)
    (vals : list (option string)) :
  length (fill_values l2g fields vals) = length vals.
Proof.
  revert fields vals. induction l2g as [|g l2g IH]; intros [|f fields] vals; try done.
  cbn [fill_values]. by rewrite IH, length_insert.
Qed.

Lemma get_or_create_row_facts (ht : HMap) (table : list AppRow) (no : string)
    (cc : nat) :
  index_of ht (map appno table) ->
  let r := get_or_create_row ht table no cc in
  Z.of_nat (length (snd (fst r))) <= INT_MAX ->
  index_of (fst (fst r)) (map appno (snd (fst r)))
  /\ 0 <= snd r
  /\ map appno (snd (fst r)) !! Z.to_nat (snd r) = Some no
  /\ (snd (fst r) = table
      \/ (snd (fst r) = table ++ [mkAppRow no (replicate cc None)]
          /\ snd r = Z.of_nat (length table))).
Proof.
  intros Hidx. unfold get_or_create_row.
  destruct (chain_find (chain_at ht (bucket_of ht no)) no) as [e|] eqn:E;
    cbn zeta; cbn [fst snd].
  - intros _. pose proof Hidx as (_ & _ & Hget & _).
    destruct (Hget no e E) as [H0 Hl].
    split; [done|]. split; [done|]. split; [done|]. by left.
  - unfold add_row. rewrite length_app. cbn [length]. intros Hsmall.
    replace (Z.of_nat (length table + 1) - 1)
      with (Z.of_nat (length (map appno table))) by (rewrite length_map; lia).
    assert (Hput : {| buckets := <[bucket_of ht no :=
                        mkEntry no (to_int (Z.of_nat (length (map appno table))))
                        :: chain_at ht (bucket_of ht no)]> (buckets ht);
                      nb := nb ht |}
                   = hmap_put ht no (to_int (Z.of_nat (length (map appno table)))) true).
    { unfold hmap_put. by rewrite E. }
    rewrite Hput, map_app. cbn [map appno].
    split; [apply index_of_put; [done|exact E|rewrite length_map; lia]|].
    rewrite to_int_small by (rewrite length_map; lia).
    split; [lia|]. split; [|right; split; [done|by rewrite length_map]].
    rewrite Nat2Z.id. by apply list_lookup_middle.
Qed.

Lemma get_or_create_row_length (ht : HMap) (table : list AppRow) (no : string)
    (cc : nat) :
  (length table <= length (snd (fst (get_or_create_row ht table no cc))))%nat.
Proof.
  unfold get_or_create_row.
  destruct (chain_find (chain_at ht (bucket_of ht no)) no); cbn [fst snd]; [done|].
  unfold add_row. rewrite length_app. lia.
Qed.

Lemma code3_row_cols (l2g : list nat) (st : MergeState) (raw : string) :
  m_cols (code3_row l2g st raw) = m_cols st.
Proof.
  unfold code3_row. destruct (parse_csv_line (chomp raw)) as [|no fields]; [done|].
  destruct (str_is_empty no); [done|].
  by destruct (get_or_create_row (m_ht st) (m_table st) no (global_col_count st))
    as [[ht table] ri].
Qed.

Lemma code3_row_length (l2g : list nat) (st : MergeState) (raw : string) :
  (length (m_table st) <= length (m_table (code3_row l2g st raw)))%nat.
Proof.
  unfold code3_row. destruct (parse_csv_line (chomp raw)) as [|no fields]; [done|].
  destruct (str_is_empty no); [done|].
  pose proof (get_or_create_row_length (m_ht st) (m_table st) no (global_col_count st)).
  destruct (get_or_create_row (m_ht st) (m_table st) no (global_col_count st))
    as [[ht table] ri].
  cbn [fst snd m_table] in *. destruct (ri <? 0); [done|]. by rewrite length_alter.
Qed.

Lemma code3_row_inv (l2g : list nat) (st : MergeState) (raw : string) :
  code3_inv st -> m_cols st <> [] ->
  Z.of_nat (length (m_table (code3_row l2g st raw))) <= INT_MAX ->
  code3_inv (code3_row l2g st raw).
Proof.
  intros Hinv Hcols. pose proof Hinv as (Hidx & Hgcc & Hnd & _ & Hfirst & Hrows).
  unfold code3_row. destruct (parse_csv_line (chomp raw)) as [|no fields]; [done|].
  destruct (str_is_empty no) eqn:Eno; [done|].
  pose proof (get_or_create_row_facts (m_ht st) (m_table st) no (global_col_count st) Hidx)
    as Hg.
  destruct (get_or_create_row (m_ht st) (m_table st) no (global_col_count st))
    as [[ht table] ri].
  cbn [fst snd m_table m_cols m_ht global_col_count] in *.
  set (upd := fun r : AppRow =>
                mkAppRow (appno r)
                  (fill_values (tail l2g) (tail (no :: fields))
                     (resize (global_col_count st) None (values r)))).
  intros Hsmall.
  assert (Hlen : Z.of_nat (length table) <= INT_MAX).
  { destruct (ri <? 0); [done|]. by rewrite length_alter in Hsmall. }
  destruct (Hg Hlen) as (Hidx' & Hri & Hno & Htable).
  assert (Hrows' : Forall (fun r => appno r <> EmptyString
                                    /\ length (values r) = length (m_cols st)) table).
  { destruct Htable as [->|[-> _]]; [done|].
    apply Forall_app. split; [done|]. apply Forall_singleton. cbn [appno values].
    split; [by destruct no|]. by rewrite length_replicate. }
  unfold code3_inv. cbn [m_table m_cols m_ht global_col_count].
  split.
  { destruct (ri <? 0); [done|]. by rewrite map_appno_alter. }
  split; [done|]. split; [done|]. split; [done|]. split; [done|].
  destruct (ri <? 0); [done|].
  apply Forall_alter; [done|]. intros r _ [Hr1 Hr2]. cbn [upd appno values].
  split; [done|]. by rewrite fill_values_length, length_resize.
Qed.

Lemma code3_rows_cols (fuel : nat) (s : string) (l2g : list nat) (st : MergeState) :
  m_cols (code3_rows fuel s l2g st) = m_cols st.
Proof.
  revert s st. induction fuel as [|fuel IH]; intros s st; [done|].
  cbn [code3_rows]. destruct (getline s) as [[raw t]|]; [|done].
  by rewrite IH, code3_row_cols.
Qed.

Lemma code3_rows_length (fuel : nat) (s : string) (l2g : list nat) (st : MergeState) :
  (length (m_table st) <= length (m_table (code3_rows fuel s l2g st)))%nat.
Proof.
  revert s st. induction fuel as [|fuel IH]; intros s st; [done|].
  cbn [code3_rows]. destruct (getline s) as [[raw t]|]; [|done].
  etrans; [apply (code3_row_length l2g st raw)|apply IH].
Qed.

Lemma code3_rows_inv (fuel : nat) (s : string) (l2g : list nat) (st : MergeState) :
  code3_inv st -> m_cols st <> [] ->
  Z.of_nat (length (m_table (code3_rows fuel s l2g st))) <= INT_MAX ->
  code3_inv (code3_rows fuel s l2g st).
Proof.
  revert s st. induction fuel as [|fuel IH]; intros s st Hinv Hcols Hsmall; [done|].
  cbn [code3_rows] in *. destruct (getline s) as [[raw t]|]; [|done].
  apply IH; [|by rewrite code3_row_cols|done].
  apply code3_row_inv; [done|done|].
  pose proof (code3_rows_length fuel t l2g (code3_row l2g st raw)). lia.
Qed.

Lemma ensure_row_width_appno (table : list AppRow) (old new : nat) :
  map appno (ensure_row_width table old new) = map appno table.
Proof.
  unfold ensure_row_width. destruct (new <=? old)%nat; [done|].
  rewrite map_map. by apply map_ext.
Qed.

(** The state after the header of an input, before its data lines. *)
Lemma code3_header_inv (st : MergeState) (header_rest : list string) :
  code3_inv st ->
  let names0 :=
    if (length (m_cols st) =? 0)%nat
    then fst (add_or_get_column (m_cols st) "application_number")
    else m_cols st in
  let names := fst (map_columns names0 header_rest) in
  let table :=
    if (length names0 <? length names)%nat
    then ensure_row_width (m_table st) (length names0) (length names)
    else m_table st in
  names <> []
  /\ length table = length (m_table st)
  /\ code3_inv {| m_cols := names; m_table := table; m_ht := m_ht st;
                  global_col_count := length names |}.
Proof.
  intros (Hidx & Hgcc & Hnd & Hempty & Hfirst & Hrows) names0 names table.
  assert (H0 : names0 !! 0%nat = Some "application_number"
               /\ NoDup names0
               /\ (m_cols st = [] \/ names0 = m_cols st)).
  { subst names0. destruct (m_cols st) as [|c cs] eqn:Ec.
    - cbn. split; [done|]. split; [apply NoDup_singleton|by left].
    - cbn [length Nat.eqb]. split; [|split; [done|by right]].
      by rewrite (Hfirst c eq_refl). }
  destruct H0 as (Hn0 & Hnd0 & Hcase).
  destruct (map_columns_prefix header_rest names0) as [Hpre Hndn].
  fold names in Hpre, Hndn.
  assert (Hn : names !! 0%nat = Some "application_number")
    by (by eapply prefix_lookup_Some).
  assert (Hlen : (length names0 <= length names)%nat) by by apply prefix_length.
  assert (Happ : map appno table = map appno (m_table st)).
  { subst table. destruct (length names0 <? length names)%nat; [|done].
    apply ensure_row_width_appno. }
  split; [by destruct names|].
  split; [by rewrite <- (length_map appno), Happ, length_map|].
  unfold code3_inv. cbn [m_cols m_table m_ht global_col_count].
  split; [by rewrite Happ|]. split; [done|]. split; [auto|].
  split; [intros E; by rewrite E in Hn|].
  split; [intros c Hc; rewrite Hn in Hc; by injection Hc as <-|].
  destruct Hcase as [Hc|Hc].
  { subst table. rewrite (Hempty Hc).
    destruct (length names0 <? length names)%nat; [|done].
    unfold ensure_row_width. by destruct (length names <=? length names0)%nat. }
  subst table. destruct (length names0 <? length names)%nat eqn:E.
  - apply Nat.ltb_lt in E. unfold ensure_row_width.
    replace (length names <=? length names0)%nat with false
      by (symmetry; apply Nat.leb_gt; lia).
    apply Forall_fmap. eapply Forall_impl; [exact Hrows|].
    intros r [Hr _]. simpl. split; [done|]. by rewrite length_resize.
  - apply Nat.ltb_ge in E. eapply Forall_impl; [exact Hrows|].
    intros r [Hr Hw]. split; [done|]. rewrite Hw, <- Hc. lia.
Qed.

Lemma code3_file_length (st : MergeState) (content : option string) :
  (length (m_table st) <= length (m_table (code3_file st content)))%nat.
Proof.
  unfold code3_file. destruct content as [data|]; [|done].
  destruct (getline data) as [[raw t]|]; [|done].
  destruct (parse_csv_line (chomp raw)) as [|h header_rest]; [done|].
  match goal with
  | |- context [map_columns ?n0 header_rest] =>
      destruct (map_columns n0 header_rest) as [names l2g]
  end.
  etrans; [|apply code3_rows_length]. cbn [m_table].
  match goal with |- context [if ?b then _ else _] => destruct b end; [|done].
  apply Nat.eq_le_incl.
  by rewrite <- (length_map appno (ensure_row_width _ _ _)), ensure_row_width_appno,
    length_map.
Qed.

Lemma code3_file_inv (st : MergeState) (content : option string) :
  code3_inv st ->
  Z.of_nat (length (m_table (code3_file st content))) <= INT_MAX ->
  code3_inv (code3_file st content).
Proof.
  intros Hinv. unfold code3_file. destruct content as [data|]; [|done].
  destruct (getline data) as [[raw t]|]; [|done].
  destruct (parse_csv_line (chomp raw)) as [|h header_rest]; [done|].
  pose proof (code3_header_inv st header_rest Hinv) as Hh. cbn zeta in Hh.
  match goal with
  | |- context [map_columns ?n0 header_rest] =>
      destruct (map_columns n0 header_rest) as [names l2g]
  end.
  cbn [fst] in Hh. destruct Hh as (Hne & _ & Hinv1).
  intros Hsmall. by apply code3_rows_inv.
Qed.

Lemma code3_ingest_length (w : World) (inputs : list string) (st : MergeState) :
  (length (m_table st) <= length (m_table (code3_ingest w inputs st)))%nat.
Proof.
  revert st. induction inputs as [|p inputs IH]; intros st; [done|].
  unfold code3_ingest in *. cbn [fold_left].
  etrans; [apply (code3_file_length st (file_content w p))|apply IH].
Qed.

Lemma code3_ingest_inv (w : World) (inputs : list string) (st : MergeState) :
  code3_inv st ->
  Z.of_nat (length (m_table (code3_ingest w inputs st))) <= INT_MAX ->
  code3_inv (code3_ingest w inputs st).
Proof.
  revert st. induction inputs as [|p inputs IH]; intros st Hinv Hsmall; [done|].
  change (code3_ingest w (p :: inputs) st)
    with (code3_ingest w inputs (code3_file st (file_content w p))) in *.
  apply IH; [|done]. apply code3_file_inv; [done|].
  pose proof (code3_ingest_length w inputs (code3_file st (file_content w p))). lia.
Qed.

Lemma merge_state_init_inv : code3_inv merge_state_init.
Proof.
  unfold code3_inv, merge_state_init. cbn [m_cols m_table m_ht global_col_count map].
  split.
  { split; [auto with tables|]. split; [apply NoDup_nil_2|].
    split; [intros k e; by rewrite hmap_get_init|by intros i k]. }
  split; [done|]. split; [apply NoDup_nil_2|]. split; [done|]. split; [done|].
  apply Forall_nil_2.
Qed.

(** X25. The ingestion loop of code3.c keeps its tables consistent.
    After any list of inputs (readable or not), as long as the row count
    fits an [int]: the row keys are pairwise distinct and none is empty;
    every row has exactly one value slot per global column, and
    [global_col_count] is the number of column names; the column names
    are pairwise distinct and the first one is [application_number] as
    soon as there is a row; and the hash table maps a key to [i] exactly
    when row [i] has this key. *)
Theorem code3_ingest_invariant (w : World) (inputs : list string) :
  let st := code3_ingest w inputs merge_state_init in
  Z.of_nat (length (m_table st)) <= INT_MAX ->
  NoDup (map appno (m_table st))
  /\ Forall (fun r => appno r <> EmptyString
                      /\ length (values r) = length (m_cols st)) (m_table st)
  /\ global_col_count st = length (m_cols st)
  /\ NoDup (m_cols st)
  /\ (m_table st <> [] -> m_cols st !! 0%nat = Some "application_number")
  /\ (forall (k : string) (i : nat),
        (exists e, hmap_get (m_ht st) k = Some e /\ value e = Z.of_nat i)
        <-> map appno (m_table st) !! i = Some k).
Proof.
  intros st Hsmall.
  destruct (code3_ingest_inv w inputs merge_state_init merge_state_init_inv Hsmall)
    as ((Hwf & Hnd & Hget & Hkeys) & Hgcc & Hndc & Hempty & Hfirst & Hrows).
  fold st in Hwf, Hnd, Hget, Hkeys, Hgcc, Hndc, Hempty, Hfirst, Hrows.
  split; [done|]. split; [done|]. split; [done|]. split; [done|]. split.
  - intros Ht. destruct (m_cols st) as [|c cs] eqn:E; [by destruct Ht; apply Hempty|].
    by rewrite (Hfirst c eq_refl).
  - intros k i. split.
    + intros (e & He & Hv). destruct (Hget k e He) as [_ Hl].
      by rewrite Hv, Nat2Z.id in Hl.
    + apply Hkeys.
Qed.

Lemma code3_ingest_invariant_witness :
  let st := code3_ingest ex_world ["a.csv"; "missing.csv"; "b.csv"] merge_state_init in
  NoDup (map appno (m_table st))
  /\ Forall (fun r => appno r <> EmptyString
                      /\ length (values r) = length (m_cols st)) (m_table st)
  /\ global_col_count st = length (m_cols st)
  /\ NoDup (m_cols st)
  /\ (m_table st <> [] -> m_cols st !! 0%nat = Some "application_number")
  /\ (forall (k : string) (i : nat),
        (exists e, hmap_get (m_ht st) k = Some e /\ value e = Z.of_nat i)
        <-> map appno (m_table st) !! i = Some k).
Proof.
  apply (code3_ingest_invariant ex_world ["a.csv"; "missing.csv"; "b.csv"]).
  vm_compute. discriminate.
Defined.

(** ** One data line: where its values go *)

Lemma fill_values_other (l2g : list nat) (fields : list string)
    (vals : list (option string)) (g : nat) :
  g ∉ l2g -> fill_values l2g fields vals !! g = vals !! g.
Proof.
  revert fields vals. induction l2g as [|g0 l2g IH]; intros [|f fields] vals Hg;
    try done.
  apply not_elem_of_cons in Hg as [Hne Hg]. cbn [fill_values].
  rewrite IH by done. by apply list_lookup_insert_ne.
Qed.

Lemma fill_values_put (l2g : list nat) (fields : list string)
    (vals : list (option string)) (c g : nat) (f : string) :
  NoDup l2g -> l2g !! c = Some g -> fields !! c = Some f ->
  (g < length vals)%nat ->
  fill_values l2g fields vals !! g = Some (Some f).
Proof.
  revert fields vals c. induction l2g as [|g0 l2g IH];
    intros [|f0 fields] vals c Hnd Hg Hf Hlt; try done.
  apply NoDup_cons in Hnd as [Hfresh Hnd]. cbn [fill_values]. destruct c as [|c].
  - injection Hg as ->. injection Hf as ->.
    rewrite fill_values_other by done. by apply list_lookup_insert_eq.
  - apply (IH fields _ c); try done. by rewrite length_insert.
Qed.

(** ** [main]: the option loop *)

Lemma parse_args_shape (n : nat) :
  forall args s o s' o' files,
    (length args <= n)%nat ->
    parse_args args s o = (s', o', files) ->
    exists opts,
      args = opts ++ files
      /\ Nat.Even (length opts)
      /\ (forall i a, opts !! (2 * i)%nat = Some a -> a = "-n" \/ a = "-o")
      /\ match files with
         | a :: _ :: _ => a <> "-n" /\ a <> "-o"
         | _ => True
         end.
Proof.
  induction n as [|n IH]; intros args s o s' o' files Hn Hp.
  - destruct args; [|cbn in Hn; lia]. injection Hp as <- <- <-.
    exists []. split; [done|]. split; [by exists 0%nat|]. split; [by intros i a|done].
  - destruct args as [|a [|v rest]].
    + injection Hp as <- <- <-.
      exists []. split; [done|]. split; [by exists 0%nat|]. split; [by intros i b|done].
    + injection Hp as <- <- <-.
      exists []. split; [done|]. split; [by exists 0%nat|]. split; [by intros i b|done].
    + cbn [parse_args] in Hp.
      assert (Hrec : forall s1 o1,
                a = "-n" \/ a = "-o" ->
                parse_args rest s1 o1 = (s', o', files) ->
                exists opts,
                  a :: v :: rest = opts ++ files
                  /\ Nat.Even (length opts)
                  /\ (forall i b, opts !! (2 * i)%nat = Some b -> b = "-n" \/ b = "-o")
                  /\ match files with
                     | b :: _ :: _ => b <> "-n" /\ b <> "-o"
                     | _ => True
                     end).
      { intros s1 o1 Ha Hr.
        destruct (IH rest s1 o1 s' o' files) as (opts & -> & [k Hk] & Hopt & Hf);
          [cbn [length] in Hn; lia|done|].
        exists (a :: v :: opts). split; [done|].
        split; [exists (S k); cbn [length]; lia|]. split; [|done].
        intros [|i] b Hb.
        - injection Hb as <-. done.
        - apply (Hopt i). replace (2 * S i)%nat with (S (S (2 * i))) in Hb by lia.
          exact Hb. }
      destruct (String.eqb a "-n") eqn:En.
      { apply string_eqb_true in En. eapply Hrec; [by left|exact Hp]. }
      destruct (String.eqb a "-o") eqn:Eo.
      { apply string_eqb_true in Eo. eapply Hrec; [by right|exact Hp]. }
      injection Hp as <- <- <-. apply string_eqb_false in En, Eo.
      exists []. split; [done|]. split; [by exists 0%nat|].
      split; [by intros i b|done].
Qed.

(** X27. The option loop of [main] reads options in pairs from the
    front only: the input files are what is left of the arguments after
    an even number of words, each pair starting with [-n] or [-o]; the
    loop stops at the first word that is no option, and an option word
    that comes last, without a value, is taken as an input file. *)
Theorem parse_args_files (args : list string) (s : Z) (o : string) (s' : Z)
    (o' : string) (files : list string) :
  parse_args args s o = (s', o', files) ->
  exists opts,
    args = opts ++ files
    /\ Nat.Even (length opts)
    /\ (forall i a, opts !! (2 * i)%nat = Some a -> a = "-n" \/ a = "-o")
    /\ match files with
       | a :: _ :: _ => a <> "-n" /\ a <> "-o"
       | _ => True
       end.
Proof. intros H. by apply (parse_args_shape (length args) args s o s' o' files). Qed.

Lemma parse_args_files_witness :
  exists opts,
    ["-n"; "5"; "-o"; "out.csv"; "a.csv"; "-n"] = opts ++ ["a.csv"; "-n"]
    /\ Nat.Even (length opts)
    /\ (forall i a, opts !! (2 * i)%nat = Some a -> a = "-n" \/ a = "-o")
    /\ "a.csv" <> "-n" /\ "a.csv" <> "-o".
Proof.
  apply (parse_args_files ["-n"; "5"; "-o"; "out.csv"; "a.csv"; "-n"]
           100000 "merged.csv" 5 "out.csv" ["a.csv"; "-n"]).
  reflexivity.
Defined.

(** ** [write_header]: names are changed only on a collision *)

Lemma nonkey_from_cons (idc c : nat) (name : string) (rest : list string) :
  nonkey_from idc c (name :: rest)
  = if (c =? idc)%nat then nonkey_from idc (S c) rest
    else name :: nonkey_from idc (S c) rest.
Proof.
  unfold nonkey_from. destruct (c =? idc)%nat eqn:E.
  - apply Nat.eqb_eq in E as ->. rewrite Nat.leb_refl, Nat.sub_diag.
    replace (S idc <=? idc)%nat with false by (symmetry; apply Nat.leb_gt; lia).
    done.
  - apply Nat.eqb_neq in E. destruct (c <=? idc)%nat eqn:E1.
    + apply Nat.leb_le in E1.
      replace (S c <=? idc)%nat with true by (symmetry; apply Nat.leb_le; lia).
      replace (idc - c)%nat with (S (idc - S c)) by lia. done.
    + apply Nat.leb_gt in E1.
      replace (S c <=? idc)%nat with false by (symmetry; apply Nat.leb_gt; lia).
      done.
Qed.

Lemma nonkey_from_nil (idc c : nat) : nonkey_from idc c [] = [].
Proof. unfold nonkey_from. by destruct (c <=? idc)%nat, (idc - c)%nat. Qed.

Lemma header_names_cols_plain (fs : FileStore) (stem : string) (cs : list string) :
  forall (c : nat) (used : HMap) (seen : list string),
    hmap_wf used ->
    (forall x, is_Some (hmap_get used x) <-> x ∈ seen) ->
    NoDup (seen ++ map (display_name fs) (nonkey_from (id_col fs) c cs)) ->
    let r := header_names_cols fs stem cs c used in
    fst r = map (display_name fs) (nonkey_from (id_col fs) c cs)
    /\ hmap_wf (snd r)
    /\ (forall x, is_Some (hmap_get (snd r) x) <-> x ∈ seen ++ fst r).
Proof.
  induction cs as [|name cs IH]; intros c used seen Hwf Hseen Hnd.
  - rewrite nonkey_from_nil. cbn [header_names_cols fst snd map].
    split; [done|]. split; [done|]. intros x. by rewrite app_nil_r.
  - rewrite nonkey_from_cons in Hnd |- *. cbn [header_names_cols].
    destruct (c =? id_col fs)%nat; [by apply IH|].
    fold (display_name fs name). cbn [map] in Hnd |- *.
    assert (Hfresh : hmap_get used (display_name fs name) = None).
    { apply eq_None_not_Some. rewrite Hseen. intros Hin.
      apply NoDup_app in Hnd as (_ & Hdis & _). apply (Hdis _ Hin). by left. }
    rewrite Hfresh.
    specialize (IH (S c) (hmap_put used (display_name fs name) 1 true)
                  (seen ++ [display_name fs name])).
    destruct (header_names_cols fs stem cs (S c)
                (hmap_put used (display_name fs name) 1 true)) as [names used'].
    cbn [fst snd] in *.
    destruct IH as (Hn & Hwf' & Hseen').
    + auto with tables.
    + intros x. rewrite elem_of_app, list_elem_of_singleton, <- Hseen.
      destruct (decide (display_name fs name = x)) as [<-|Hne].
      * rewrite hmap_get_put_eq by done. split; [by right|by eexists].
      * rewrite hmap_get_put_ne by done. split; [by left|]. by intros [?|?].
    + by rewrite <- app_assoc.
    + split; [by rewrite Hn|]. split; [done|].
      intros x. rewrite Hseen', <- app_assoc. done.
Qed.

Lemma header_names_files_plain (stores : list FileStore) :
  forall (used : HMap) (seen : list string),
    hmap_wf used ->
    (forall x, is_Some (hmap_get used x) <-> x ∈ seen) ->
    NoDup (seen ++ concat (map display_names stores)) ->
    header_names_files stores used = concat (map display_names stores).
Proof.
  induction stores as [|fs stores IH]; intros used seen Hwf Hseen Hnd; [done|].
  cbn [header_names_files map concat] in *.
  rewrite app_assoc in Hnd.
  pose proof (header_names_cols_plain fs (file_stem (path fs) 256) (cols fs) 0 used
                seen Hwf Hseen) as Hc.
  cbn zeta in Hc. fold (display_names fs) in Hc.
  destruct (header_names_cols fs (file_stem (path fs) 256) (cols fs) 0 used)
    as [names used'].
  cbn [fst snd] in Hc.
  destruct Hc as (-> & Hwf' & Hseen'); [by apply NoDup_app in Hnd as [? _]|].
  f_equal. by apply (IH used' (seen ++ display_names fs)).
Qed.



(** * Physical lines and the line buffer *)

Lemma text_lines_nil (s : string) : text_lines s = [] -> s = EmptyString.
Proof.
  destruct s as [|c r]; [done|]. cbn [text_lines].
  destruct (Ascii.eqb c LF); [done|]. by destruct (text_lines r).
Qed.

Lemma text_lines_concat (s : string) : str_concat (text_lines s) = s.
Proof.
  induction s as [|c r IH]; [done|]. cbn [text_lines].
  destruct (Ascii.eqb c LF).
  - cbn [str_concat fold_right]. fold (str_concat (text_lines r)). by rewrite IH.
  - destruct (text_lines r) as [|l rest] eqn:E.
    + apply text_lines_nil in E as ->. done.
    + cbn [str_concat fold_right] in IH |- *. rewrite str_app_cons. by rewrite IH.
Qed.

Lemma text_lines_rest (s l : string) (rest : list string) :
  text_lines s = l :: rest -> text_lines (str_concat rest) = rest.
Proof.
  revert l rest. induction s as [|c r IH]; intros l rest; [done|].
  cbn [text_lines]. destruct (Ascii.eqb c LF).
  - intros [= <- <-]. by rewrite text_lines_concat.
  - destruct (text_lines r) as [|l' rest'] eqn:E.
    + by intros [= <- <-].
    + intros [= <- <-]. by apply (IH l').
Qed.

(** A line without line feed inside, followed by a line feed, is the
    first physical line. *)
Lemma text_lines_line (body t : string) :
  strchr body LF = false ->
  text_lines (body +:+ String LF t) = (body +:+ String LF EmptyString) :: text_lines t.
Proof.
  intros H. induction body as [|c body IH]; [done|].
  cbn [strchr] in H. apply orb_false_iff in H as [H1 H2].
  rewrite !str_app_cons. cbn [text_lines]. rewrite H1, (IH H2). done.
Qed.

Lemma text_lines_last (body : string) :
  body <> EmptyString -> strchr body LF = false -> text_lines body = [body].
Proof.
  induction body as [|c body IH]; [done|]. intros _ H.
  cbn [strchr] in H. apply orb_false_iff in H as [H1 H2].
  cbn [text_lines]. rewrite H1. destruct body as [|c' body']; [done|].
  by rewrite IH.
Qed.

Lemma fgets_buf_text (s : string) :
  forall (room : N) (l : string) (rest : list string),
    text_lines s = l :: rest ->
    (N.of_nat (String.length l) <= room)%N ->
    fgets_buf room s = (l, str_concat rest).
Proof.
  induction s as [|c r IH]; intros room l rest; [done|].
  cbn [text_lines fgets_buf]. destruct (Ascii.eqb c LF) eqn:Ec.
  - intros [= <- <-] Hroom. cbn [String.length] in Hroom.
    replace (room =? 0)%N with false by (symmetry; apply N.eqb_neq; lia).
    by rewrite text_lines_concat.
  - destruct (text_lines r) as [|l' rest'] eqn:E.
    + intros [= <- <-] Hroom. cbn [String.length] in Hroom.
      replace (room =? 0)%N with false by (symmetry; apply N.eqb_neq; lia).
      apply text_lines_nil in E as ->. done.
    + intros [= <- <-] Hroom. cbn [String.length] in Hroom.
      replace (room =? 0)%N with false by (symmetry; apply N.eqb_neq; lia).
      rewrite (IH (N.pred room) l' rest' eq_refl) by lia. done.
Qed.

Lemma cstr_no_nul (s : string) : strchr s NUL = false -> cstr s = s.
Proof.
  induction s as [|c s IH]; [done|]. cbn [strchr cstr]. intros H.
  apply orb_false_iff in H as [H1 H2]. by rewrite H1, IH.
Qed.

Lemma fgets_text (s l : string) (rest : list string) :
  text_lines s = l :: rest -> line_fits l ->
  fgets MAX_LINE_LEN s = Some (l, str_concat rest).
Proof.
  intros Ht [Hlen Hnul]. unfold fgets. destruct s as [|c r]; [done|].
  rewrite (fgets_buf_text _ _ l rest Ht) by lia. by rewrite cstr_no_nul.
Qed.

Lemma read_lines_text (fuel : nat) :
  forall s : string,
    (String.length s <= fuel)%nat ->
    Forall line_fits (text_lines s) ->
    read_lines fuel s = text_lines s.
Proof.
  induction fuel as [|fuel IH]; intros s Hlen Hfit.
  - destruct s; [done|cbn in Hlen; lia].
  - cbn [read_lines]. destruct (text_lines s) as [|l rest] eqn:E.
    + apply text_lines_nil in E as ->. done.
    + apply Forall_cons in Hfit as [Hl Hrest].
      pose proof (fgets_text s l rest E Hl) as Hf. rewrite Hf.
      apply fgets_shorter in Hf.
      rewrite IH; [by rewrite (text_lines_rest s l rest E)|lia|].
      by rewrite (text_lines_rest s l rest E).
Qed.

(** When every physical line fits the buffer, the buffers [load_file]
    works on are the physical lines of the file. *)
Lemma file_lines_text (data : string) :
  Forall line_fits (text_lines data) -> file_lines data = text_lines data.
Proof. intros H. by apply read_lines_text. Qed.

(** [load_file] on a file of lines that fit: the table of the header
    line, filled from the data lines. *)
Lemma load_file_text (pth data hdr : string) (lines : list string) :
  text_lines data = hdr :: lines ->
  Forall line_fits (hdr :: lines) ->
  Z.of_nat (length (hdr :: lines)) <= INT_MAX ->
  exists fs,
    load_file (Some data) (filestore_init pth) = Ok fs
    /\ delim fs = delim_of_header hdr
    /\ cols fs = cols_of_header hdr
    /\ id_col fs = detect_id_col (cols_of_header hdr)
    /\ n_nonid fs = (length (cols_of_header hdr) - 1)%nat
    /\ load_inv
         (omap (data_row (delim_of_header hdr) (detect_id_col (cols_of_header hdr)))
            lines) fs.
Proof.
  intros Ht Hfit Hn.
  assert (Hfl : file_lines data = hdr :: lines)
    by (rewrite file_lines_text; rewrite Ht; done).
  destruct (load_file_inv pth data) as (fs & Hload & _ & Hinv); [by rewrite Hfl|].
  rewrite Hfl in Hinv. cbn [tail] in Hinv.
  destruct (load_file_nonempty pth data) as (raw & t & fs' & Hg & Hload' & Hh).
  { intros ->. done. }
  rewrite Hload in Hload'. injection Hload' as <-.
  assert (raw = hdr) as ->.
  { rewrite (fgets_text data hdr lines Ht) in Hg by (by apply Forall_cons in Hfit as [? _]).
    by injection Hg as <- _. }
  destruct Hh as (_ & Hd & Hid & _ & _ & Hc & Hnn).
  cbn [load_header delim id_col cols n_nonid] in Hd, Hid, Hc, Hnn.
  fold (delim_of_header hdr) in Hd, Hid, Hc, Hnn.
  fold (cols_of_header hdr) in Hid, Hc, Hnn.
  exists fs. split; [done|]. split; [done|]. split; [done|]. split; [done|].
  split.
  { rewrite Hnn. destruct (0 <? length (cols_of_header hdr))%nat eqn:E; [done|].
    apply Nat.ltb_ge in E. lia. }
  by rewrite Hd, Hid in Hinv.
Qed.

(** * Duplicate keys *)

(** C2, for files whose lines fit the line buffer. A file whose physical
    lines each fit the buffer of [load_file] (at most 65535 bytes with
    the line feed, no NUL byte) is read line by line: the table has the
    delimiter, the columns and the key column of the header line, one
    row per key of the data lines, and for every key and every non-key
    column the cell holds the values of the data lines with that key, in
    encounter order: a non-empty value arriving at an empty cell becomes
    its content, a later non-empty value is appended after the separator
    [" || "], and an empty value changes nothing. (At most [INT_MAX]
    lines.) *)
Theorem duplicate_keys_merged (pth data hdr : string) (lines : list string) :
  text_lines data = hdr :: lines ->
  Forall line_fits (hdr :: lines) ->
  Z.of_nat (length (hdr :: lines)) <= INT_MAX ->
  let d := delim_of_header hdr in
  let cs := cols_of_header hdr in
  let idc := detect_id_col cs in
  let rows := omap (data_row d idc) lines in
  exists fs,
    load_file (Some data) (filestore_init pth) = Ok fs
    /\ delim fs = d /\ cols fs = cs /\ id_col fs = idc
    /\ n_nonid fs = (length cs - 1)%nat
    /\ NoDup (ids fs)
    /\ (forall k : string, k ∈ ids fs <-> k ∈ map fst rows)
    /\ (forall (r : nat) (k : string),
          ids fs !! r = Some k ->
          exists row,
            cells fs !! r = Some row
            /\ length row = (length cs - 1)%nat
            /\ forall j : nat, (j < length cs - 1)%nat ->
                 row !! j = Some (merged_value (incoming rows k j)))
    /\ (forall dst : option string, append_cell_merge dst EmptyString = dst)
    /\ (forall src : string, src <> EmptyString ->
          append_cell_merge None src = Some src)
    /\ (forall d0 src : string, src <> EmptyString ->
          append_cell_merge (Some d0) src = Some (d0 +:+ " || " +:+ src)).
Proof.
  intros Ht Hfit Hn d cs idc rows.
  destruct (load_file_text pth data hdr lines Ht Hfit Hn)
    as (fs & Hload & Hd & Hc & Hid & Hnn & Hinv).
  fold d cs idc in Hd, Hc, Hid, Hnn, Hinv. fold rows in Hinv.
  exists fs. split; [done|]. split; [done|]. split; [done|]. split; [done|].
  split; [done|].
  destruct Hinv as (Hfs & Hkeys & Hcells & _).
  pose proof Hfs as (_ & Hnd & Hcl & _ & _ & Hrows).
  split; [done|]. split; [done|]. split.
  { intros r k Hr.
    destruct (cells fs !! r) as [row|] eqn:Hrow.
    2:{ apply lookup_ge_None in Hrow. apply lookup_lt_Some in Hr. lia. }
    exists row. split; [done|]. rewrite <- Hnn. split.
    - rewrite Forall_forall in Hrows. apply Hrows. by_lookup.
    - intros j Hj. rewrite <- append_fold_merged. by eapply Hcells. }
  split; [done|]. split.
  - intros src Hsrc. unfold append_cell_merge. by destruct src.
  - intros d0 src Hsrc. unfold append_cell_merge. by destruct src.
Qed.

Lemma duplicate_keys_merged_witness :
  let d := delim_of_header ("id,text" +:+ nl) in
  let cs := cols_of_header ("id,text" +:+ nl) in
  let idc := detect_id_col cs in
  let rows := omap (data_row d idc) ["P1,alpha" +:+ nl; "P1,beta" +:+ nl] in
  exists fs,
    load_file (Some ex_dup_file) (filestore_init "t.csv") = Ok fs
    /\ delim fs = d /\ cols fs = cs /\ id_col fs = idc
    /\ n_nonid fs = (length cs - 1)%nat
    /\ NoDup (ids fs)
    /\ (forall k : string, k ∈ ids fs <-> k ∈ map fst rows)
    /\ (forall (r : nat) (k : string),
          ids fs !! r = Some k ->
          exists row,
            cells fs !! r = Some row
            /\ length row = (length cs - 1)%nat
            /\ forall j : nat, (j < length cs - 1)%nat ->
                 row !! j = Some (merged_value (incoming rows k j)))
    /\ (forall dst : option string, append_cell_merge dst EmptyString = dst)
    /\ (forall src : string, src <> EmptyString ->
          append_cell_merge None src = Some src)
    /\ (forall d0 src : string, src <> EmptyString ->
          append_cell_merge (Some d0) src = Some (d0 +:+ " || " +:+ src)).
Proof.
  apply (duplicate_keys_merged "t.csv" ex_dup_file ("id,text" +:+ nl)
           ["P1,alpha" +:+ nl; "P1,beta" +:+ nl]).
  - vm_compute. reflexivity.
  - repeat (apply Forall_cons; split; [split; vm_compute; reflexivity|]).
    apply Forall_nil_2.
  - vm_compute. discriminate.
Defined.

(** ** A line longer than the buffer *)

Lemma fgets_buf_full (s t : string) :
  strchr s LF = false ->
  fgets_buf (N.of_nat (String.length s)) (s +:+ t) = (s, t).
Proof.
  intros H. induction s as [|c s IH].
  - change (fgets_buf 0 t = (EmptyString, t)). by destruct t.
  - cbn [strchr] in H. apply orb_false_iff in H as [H1 H2].
    rewrite str_app_cons. cbn [fgets_buf String.length]. rewrite H1.
    replace (N.of_nat (S (String.length s)) =? 0)%N with false
      by (symmetry; apply N.eqb_neq; lia).
    replace (N.pred (N.of_nat (S (String.length s)))) with (N.of_nat (String.length s))
      by lia.
    by rewrite (IH H2).
Qed.

Lemma str_repeat_length (n : nat) (c : ascii) : String.length (str_repeat n c) = n.
Proof. induction n as [|n IH]; [done|]. cbn. by rewrite IH. Qed.

Lemma str_repeat_strchr (n : nat) (c x : ascii) :
  c <> x -> strchr (str_repeat n c) x = false.
Proof.
  intros H. apply ascii_eqb_false in H.
  induction n as [|n IH]; [done|]. cbn [str_repeat strchr]. by rewrite H, IH.
Qed.

Lemma omap_cons_Some {A B : Type} (f : A -> option B) (x : A) (l : list A) (y : B) :
  f x = Some y -> omap f (x :: l) = y :: omap f l.
Proof.
  intros H.
  change (omap f (x :: l))
    with (match f x with Some y => y :: omap f l | None => omap f l end).
  by rewrite H.
Qed.

Section LongLine.

(** A value [pad] that brings the text [P2,pad] to the size of the
    buffer. *)
Variable pad : string.
Hypothesis Hlen : String.length pad = N.to_nat 65532.
Hypothesis Hlf : strchr pad LF = false.
Hypothesis Hcr : strchr pad CR = false.
Hypothesis Hnul : strchr pad NUL = false.
Hypothesis Hcomma : strchr pad COMMA = false.
Hypothesis Hquote : strchr pad DQUOTE = false.

Let long_line : string := "P2," +:+ pad +:+ "P1,stolen" +:+ nl.
Let data : string := "id,x" +:+ nl +:+ "P1,v1" +:+ nl +:+ long_line.

Lemma long_line_eq :
  long_line = ("P2," +:+ pad +:+ "P1,stolen") +:+ String LF EmptyString.
Proof.
  change (String "P" (String "2" (String COMMA (pad +:+ ("P1,stolen" +:+ nl))))
          = String "P" (String "2" (String COMMA
              ((pad +:+ "P1,stolen") +:+ String LF EmptyString)))).
  by rewrite str_app_assoc.
Qed.

Lemma long_line_lines : text_lines long_line = [long_line].
Proof.
  rewrite long_line_eq at 1.
  rewrite text_lines_line; [by rewrite <- long_line_eq|].
  change ("P2," +:+ pad +:+ "P1,stolen") with ("P2," +:+ (pad +:+ "P1,stolen")).
  by rewrite !strchr_app, Hlf.
Qed.

Lemma long_text_lines :
  text_lines data = ["id,x" +:+ nl; "P1,v1" +:+ nl; long_line].
Proof.
  change data with ("id,x" +:+ String LF ("P1,v1" +:+ String LF long_line)).
  rewrite !text_lines_line by done. by rewrite long_line_lines.
Qed.

Lemma long_line_too_long : ~ line_fits long_line.
Proof.
  intros [H _]. unfold long_line, MAX_LINE_LEN in H.
  rewrite !str_app_length, Hlen in H. cbn [String.length nl] in H. lia.
Qed.

Lemma long_file_lines :
  file_lines data
  = ["id,x" +:+ nl; "P1,v1" +:+ nl; "P2," +:+ pad; "P1,stolen" +:+ nl].
Proof.
  assert (Ht2 : text_lines ("P1,v1" +:+ nl +:+ long_line)
                = ["P1,v1" +:+ nl; long_line]).
  { change ("P1,v1" +:+ nl +:+ long_line) with ("P1,v1" +:+ String LF long_line).
    rewrite text_lines_line by done. by rewrite long_line_lines. }
  assert (H1 : fgets MAX_LINE_LEN data
               = Some ("id,x" +:+ nl, "P1,v1" +:+ nl +:+ long_line)).
  { rewrite (fgets_text data _ _ long_text_lines) by (split; vm_compute; reflexivity).
    cbn [str_concat fold_right]. by rewrite str_app_nil_r. }
  assert (H2 : fgets MAX_LINE_LEN ("P1,v1" +:+ nl +:+ long_line)
               = Some ("P1,v1" +:+ nl, long_line)).
  { rewrite (fgets_text _ _ _ Ht2) by (split; vm_compute; reflexivity).
    cbn [str_concat fold_right]. by rewrite str_app_nil_r. }
  assert (H3 : fgets MAX_LINE_LEN long_line
               = Some ("P2," +:+ pad, "P1,stolen" +:+ nl)).
  { change long_line with (("P2," +:+ pad) +:+ ("P1,stolen" +:+ nl)).
    unfold fgets.
    destruct (("P2," +:+ pad) +:+ ("P1,stolen" +:+ nl)) eqn:E; [done|].
    rewrite <- E.
    replace (N.pred MAX_LINE_LEN) with (N.of_nat (String.length ("P2," +:+ pad))).
    2:{ rewrite str_app_length, Hlen. unfold MAX_LINE_LEN. cbn [String.length]. lia. }
    rewrite fgets_buf_full by (by rewrite strchr_app, Hlf).
    rewrite cstr_no_nul by (by rewrite strchr_app, Hnul). done. }
  rewrite (file_lines_fgets _ _ _ H1). f_equal.
  fold (file_lines ("P1,v1" +:+ nl +:+ long_line)).
  rewrite (file_lines_fgets _ _ _ H2). f_equal.
  fold (file_lines long_line).
  rewrite (file_lines_fgets _ _ _ H3). reflexivity.
Qed.

Lemma long_buffer_row :
  data_row COMMA 0 ("P2," +:+ pad) = Some ("P2", [pad]).
Proof.
  unfold data_row.
  assert (Htrim : trim_eol ("P2," +:+ pad) = "P2," +:+ pad).
  { apply trim_eol_fixed. intros c Hc.
    split; eapply str_last_strchr; try exact Hc; by rewrite strchr_app, ?Hlf, ?Hcr. }
  rewrite Htrim. unfold parse_delim_line.
  change ("P2," +:+ pad) with (String "P" (String "2" (String COMMA pad))).
  rewrite !parse_loop_cons.
  change (Ascii.eqb "P" DQUOTE) with false. change (Ascii.eqb "P" COMMA) with false.
  change (Ascii.eqb "2" DQUOTE) with false. change (Ascii.eqb "2" COMMA) with false.
  change (Ascii.eqb COMMA DQUOTE) with false. change (Ascii.eqb COMMA COMMA) with true.
  cbv iota. rewrite parse_loop_plain by done. done.
Qed.

Lemma long_line_row :
  data_row COMMA 0 long_line = Some ("P2", [pad +:+ "P1"; "stolen"]).
Proof.
  unfold data_row.
  assert (Htrim : trim_eol long_line = "P2," +:+ pad +:+ "P1,stolen").
  { rewrite long_line_eq. apply trim_eol_line.
    change ("P2," +:+ pad +:+ "P1,stolen") with (("P2," +:+ pad) +:+ "P1,stolen").
    intros c. rewrite str_last_app. cbn. by intros [= <-]. }
  rewrite Htrim. unfold parse_delim_line.
  change ("P2," +:+ pad +:+ "P1,stolen")
    with (String "P" (String "2" (String COMMA (pad +:+ ("P1" +:+ String COMMA "stolen"))))).
  rewrite !parse_loop_cons.
  change (Ascii.eqb "P" DQUOTE) with false. change (Ascii.eqb "P" COMMA) with false.
  change (Ascii.eqb "2" DQUOTE) with false. change (Ascii.eqb "2" COMMA) with false.
  change (Ascii.eqb COMMA DQUOTE) with false. change (Ascii.eqb COMMA COMMA) with true.
  cbv iota. rewrite parse_loop_plain_app by done.
  change (EmptyString +:+ pad) with pad.
  rewrite (parse_loop_plain_app COMMA "P1" (String COMMA "stolen")) by done.
  rewrite parse_loop_cons.
  change (Ascii.eqb COMMA DQUOTE) with false. change (Ascii.eqb COMMA COMMA) with true.
  cbv iota. rewrite parse_loop_plain by done. done.
Qed.

(** The table built from the file: the row of [P1] holds a value that
    no data line of key [P1] has. *)
Lemma long_line_steals :
  incoming (omap (data_row COMMA 0) ["P1,v1" +:+ nl; long_line]) "P1" 0 = ["v1"]
  /\ exists (fs : FileStore) (r : nat) (row : list (option string)),
       load_file (Some data) (filestore_init "t.csv") = Ok fs
       /\ ids fs !! r = Some "P1"
       /\ cells fs !! r = Some row
       /\ row !! 0%nat = Some (Some "v1 || stolen").
Proof.
  split.
  { rewrite (omap_cons_Some _ _ _ ("P1", ["v1"])) by reflexivity.
    rewrite (omap_cons_Some _ _ _ _ long_line_row). reflexivity. }
  destruct (load_file_inv "t.csv" data) as (fs & Hload & _ & Hinv).
  { rewrite long_file_lines. vm_compute. discriminate. }
  destruct (load_file_nonempty "t.csv" data) as (raw & t & fs' & Hg & Hload' & Hh);
    [done|].
  rewrite Hload in Hload'. injection Hload' as <-.
  assert (raw = "id,x" +:+ nl) as ->.
  { rewrite (fgets_text data _ _ long_text_lines) in Hg by (split; vm_compute; reflexivity).
    by injection Hg as <- _. }
  destruct Hh as (_ & Hd & Hid & _ & _ & _ & Hnn).
  change (delim fs = COMMA) in Hd. change (id_col fs = 0%nat) in Hid.
  change (n_nonid fs = 1%nat) in Hnn.
  rewrite long_file_lines, Hd, Hid in Hinv. cbn [tail] in Hinv.
  rewrite (omap_cons_Some _ _ _ ("P1", ["v1"])) in Hinv by reflexivity.
  rewrite (omap_cons_Some _ _ _ _ long_buffer_row) in Hinv.
  rewrite (omap_cons_Some _ _ _ ("P1", ["stolen"])) in Hinv by reflexivity.
  change (omap (data_row COMMA 0) []) with (@nil (string * list string)) in Hinv.
  destruct Hinv as (Hfs & Hkeys & Hcells & _).
  assert (Hin : "P1" ∈ ids fs) by (apply Hkeys; cbn; apply list_elem_of_here).
  apply list_elem_of_lookup in Hin as [r Hr].
  destruct (lookup_lt_is_Some_2 (cells fs) r) as [row Hrow].
  { destruct Hfs as (_ & _ & Hcl & _). rewrite Hcl. by eapply lookup_lt_Some. }
  exists fs, r, row. split; [done|]. split; [done|]. split; [done|].
  rewrite (Hcells r "P1" row 0%nat Hr Hrow) by lia. done.
Qed.

End LongLine.

(** The claim of C2 fails on a file with a line longer than the line
    buffer, and on a file with a NUL byte. In [ex_long_file] the only
    data line of key [P1] has the value [v1]; the third physical line,
    of key [P2], does not fit the buffer, its rest [P1,stolen] is read as
    a data line of its own, and the cell of [P1] becomes
    [v1 || stolen]. In [ex_nul_file] the value [al<NUL>pha] is cut at
    the NUL byte. *)
Lemma duplicate_keys_merged_counterexample :
  text_lines ex_long_file = ["id,x" +:+ nl; "P1,v1" +:+ nl; ex_long_line]
  /\ ~ line_fits ex_long_line
  /\ incoming (omap (data_row COMMA 0) ["P1,v1" +:+ nl; ex_long_line]) "P1" 0 = ["v1"]
  /\ (exists (fs : FileStore) (r : nat) (row : list (option string)),
        load_file (Some ex_long_file) (filestore_init "t.csv") = Ok fs
        /\ ids fs !! r = Some "P1"
        /\ cells fs !! r = Some row
        /\ row !! 0%nat = Some (Some "v1 || stolen"))
  /\ text_lines ex_nul_file
     = ["id,x" +:+ nl; "P1,al" +:+ String NUL ("pha" +:+ nl); "P1,beta" +:+ nl]
  /\ ~ line_fits ("P1,al" +:+ String NUL ("pha" +:+ nl))
  /\ cells (loaded "t.csv" ex_nul_file) = [[Some "al || beta"]].
Proof.
  assert (Hl : String.length ex_long_pad = N.to_nat 65532) by apply str_repeat_length.
  assert (Hc : forall x, "a"%char <> x -> strchr ex_long_pad x = false)
    by (intros x; apply str_repeat_strchr).
  split; [apply long_text_lines; apply Hc; discriminate|].
  split; [by apply long_line_too_long|].
  destruct (long_line_steals ex_long_pad Hl) as [H1 H2]; try (apply Hc; discriminate).
  split; [exact H1|]. split; [exact H2|].
  split; [vm_compute; reflexivity|].
  split; [intros [_ H]; vm_compute in H; discriminate|].
  vm_compute. reflexivity.
Qed.

(** ** What one file contributes to an output row *)

(** X18. For a file whose physical lines each fit the line buffer (at
    most 65535 bytes with the line feed, no NUL byte; at most [INT_MAX]
    lines), the fields the writer takes from the loaded table for a key
    are, with the delimiter, the columns and the key column of the header
    line: for a key of some data line, one field per non-key column of
    the header, holding the non-empty values of the key's data lines for
    that column joined by the separator in encounter order (the empty
    string when there are none); for any other key, one blank field per
    non-key column. *)
Theorem loaded_file_fields (pth data hdr k : string) (lines : list string) :
  text_lines data = hdr :: lines ->
  Forall line_fits (hdr :: lines) ->
  Z.of_nat (length (hdr :: lines)) <= INT_MAX ->
  let d := delim_of_header hdr in
  let cs := cols_of_header hdr in
  let rows := omap (data_row d (detect_id_col cs)) lines in
  exists fs,
    load_file (Some data) (filestore_init pth) = Ok fs
    /\ write_file_part fs k
       = str_concat (map (fun x => String OUTPUT_DELIM x) (file_fields fs k))
    /\ file_fields fs k
       = if bool_decide (k ∈ map fst rows)
         then map (fun j => default EmptyString (merged_value (incoming rows k j)))
                (seq 0 (length cs - 1))
         else replicate (length cs - 1) EmptyString.
Proof.
  intros Ht Hfit Hn d cs rows.
  destruct (load_file_text pth data hdr lines Ht Hfit Hn)
    as (fs & Hload & _ & Hc & _ & Hnn & Hinv & Hkeys & Hcells & _).
  fold d cs in Hc, Hnn, Hkeys, Hcells. fold rows in Hkeys, Hcells.
  exists fs. split; [exact Hload|].
  split; [apply write_file_part_fields|].
  unfold file_fields, ncols. rewrite Hc, Hnn.
  destruct (hmap_get (id_to_idx fs) k) as [e|] eqn:E.
  - pose proof Hinv as (_ & _ & Hcl & Hget & _ & _).
    destruct (Hget k e E) as [H0 Hid].
    rewrite bool_decide_eq_true_2 by (apply Hkeys; by_lookup).
    destruct (lookup_lt_is_Some_2 (cells fs) (Z.to_nat (value e))) as [row Hrow].
    { rewrite Hcl. by eapply lookup_lt_Some. }
    rewrite Hrow. change (default [] (Some row)) with row.
    apply map_ext_in. intros j Hj. apply in_seq in Hj.
    unfold cell_text.
    rewrite (Hcells _ _ _ j Hid Hrow) by lia.
    rewrite append_fold_merged. by destruct (merged_value (incoming rows k j)).
  - rewrite bool_decide_eq_false_2; [done|].
    rewrite <- Hkeys, <- (fs_inv_key_in fs k Hinv), E. by intros [? ?].
Qed.

Lemma loaded_file_fields_witness :
  let d := delim_of_header ("id,text" +:+ nl) in
  let cs := cols_of_header ("id,text" +:+ nl) in
  let rows := omap (data_row d (detect_id_col cs))
                ["P1,alpha" +:+ nl; "P1,beta" +:+ nl] in
  exists fs,
    load_file (Some ex_dup_file) (filestore_init "t.csv") = Ok fs
    /\ write_file_part fs "P1"
       = str_concat (map (fun x => String OUTPUT_DELIM x) (file_fields fs "P1"))
    /\ file_fields fs "P1"
       = if bool_decide ("P1" ∈ map fst rows)
         then map (fun j => default EmptyString (merged_value (incoming rows "P1" j)))
                (seq 0 (length cs - 1))
         else replicate (length cs - 1) EmptyString.
Proof.
  apply (loaded_file_fields "t.csv" ex_dup_file ("id,text" +:+ nl) "P1"
           ["P1,alpha" +:+ nl; "P1,beta" +:+ nl]).
  - vm_compute. reflexivity.
  - repeat (apply Forall_cons; split; [split; vm_compute; reflexivity|]).
    apply Forall_nil_2.
  - vm_compute. discriminate.
Defined.

(** * The writer of the merge engine does not quote *)

(** C6 fails on the merge engine. [write_header] and [write_rows] write
    every field raw, whatever it holds: each line is the plain comma-join
    of its values. So the row of key [1] of the file [q.csv], whose cell
    is [a,b], is written as [1,a,b] where the quoting rule demands
    [1,"a,b"]; read back, the line has three fields. The field writer
    [print_csv_field] of code3.c does quote the same value. *)
Theorem merge_writer_writes_raw :
  (forall (stores : list FileStore) (id : string),
     write_row stores id = csv_line (fun x => x) (row_fields stores id))
  /\ (forall (stores : list FileStore) (idName : string),
        write_header stores idName
        = csv_line (fun x => x) (idName :: header_names stores idName))
  /\ (let stores := [loaded "q.csv" ex_quoted_file] in
      row_fields stores "1" = ["1"; "a,b"]
      /\ write_row stores "1" = "1,a,b" +:+ nl
      /\ csv_line (quote_rule_encode OUTPUT_DELIM) (row_fields stores "1")
         = "1," +:+ String DQUOTE ("a,b" +:+ String DQUOTE nl)
      /\ parse_delim_line (trim_eol (write_row stores "1")) OUTPUT_DELIM
         = ["1"; "a"; "b"])
  /\ main ex_world_quoted ["merge"; "q.csv"]
     = mkOutcome 0 (Some ("merged.csv", "id,x" +:+ nl +:+ "1,a,b" +:+ nl))
  /\ print_csv_field (Some "a,b") = String DQUOTE ("a,b" +:+ String DQUOTE EmptyString).
Proof.
  split; [apply write_row_raw|]. split; [apply write_header_raw|].
  split; [cbv zeta; repeat split; vm_compute; reflexivity|].
  split; vm_compute; reflexivity.
Qed.

(** * The written lines have the columns of the header *)

Lemma strchr_concat_sep (l : list string) (c : ascii) :
  c <> OUTPUT_DELIM ->
  Forall (fun s => strchr s c = false) l ->
  strchr (str_concat (map (fun x => String OUTPUT_DELIM x) l)) c = false.
Proof.
  intros Hc H. induction H as [|s l Hs Hl IH]; [done|].
  cbn [map str_concat fold_right]. fold (str_concat (map (fun x => String OUTPUT_DELIM x) l)).
  rewrite str_app_cons. cbn [strchr]. rewrite strchr_app, Hs, IH.
  apply ascii_eqb_false in Hc. rewrite Ascii.eqb_sym in Hc. by rewrite Hc.
Qed.

Lemma parse_loop_plain_fields (rest : list string) :
  forall buf f : string,
    Forall plain_field (f :: rest) ->
    parse_loop OUTPUT_DELIM false buf
      (f +:+ str_concat (map (fun x => String OUTPUT_DELIM x) rest))
    = (buf +:+ f) :: rest.
Proof.
  induction rest as [|g rest IH]; intros buf f H.
  - apply Forall_cons in H as [(Hc & Hq & _) _].
    cbn [map str_concat fold_right]. rewrite parse_loop_plain_app by done. done.
  - apply Forall_cons in H as [(Hc & Hq & _) H].
    cbn [map str_concat fold_right].
    fold (str_concat (map (fun x => String OUTPUT_DELIM x) rest)).
    rewrite parse_loop_plain_app by done.
    rewrite str_app_cons, parse_loop_cons.
    change (Ascii.eqb OUTPUT_DELIM DQUOTE) with false. rewrite Ascii.eqb_refl. cbv iota.
    f_equal. change (EmptyString +:+ ?x) with x. by rewrite IH.
Qed.

(** A line of plain fields, written raw, is read back field by field. *)
Lemma csv_line_raw_read_back (f : string) (rest : list string) :
  Forall plain_field (f :: rest) ->
  parse_delim_line (trim_eol (csv_line (fun x => x) (f :: rest))) OUTPUT_DELIM
  = f :: rest.
Proof.
  intros H. unfold csv_line.
  set (body := f +:+ str_concat (map (fun x => String OUTPUT_DELIM x) rest)).
  assert (Hlf : strchr body LF = false /\ strchr body CR = false).
  { pose proof H as H'. apply Forall_cons in H' as [(_ & _ & Hl & Hr) H'].
    unfold body. rewrite !strchr_app, Hl, Hr.
    split; apply strchr_concat_sep; try done;
      (eapply Forall_impl; [exact H'|]); by intros s (_ & _ & ? & ?). }
  destruct Hlf as [Hlf Hcr].
  rewrite trim_eol_line.
  2:{ intros c Hc. split; by eapply str_last_strchr. }
  unfold parse_delim_line, body. by rewrite parse_loop_plain_fields.
Qed.

(** X13. In the file [main] writes, the header line and the row lines
    have the same fields as long as no name and no value needs quoting:
    for tables produced by loading, when neither the header names nor
    the values of the row of a key hold a comma, a quote, a line feed or
    a carriage return, the header line read back (end of line trimmed,
    cut at the commas) gives exactly the names, the row line gives
    exactly the key and the values, and both have the same number of
    fields. *)
Theorem output_columns_aligned (w : World) (files : list string)
    (stores : list FileStore) (id idName : string) :
  load_all w files = Ok stores ->
  Forall plain_field (idName :: header_names stores idName) ->
  Forall plain_field (row_fields stores id) ->
  parse_delim_line (trim_eol (write_header stores idName)) OUTPUT_DELIM
  = idName :: header_names stores idName
  /\ parse_delim_line (trim_eol (write_row stores id)) OUTPUT_DELIM
     = row_fields stores id
  /\ length (parse_delim_line (trim_eol (write_row stores id)) OUTPUT_DELIM)
     = length (parse_delim_line (trim_eol (write_header stores idName)) OUTPUT_DELIM).
Proof.
  intros Hload Hh Hr.
  assert (H1 : parse_delim_line (trim_eol (write_header stores idName)) OUTPUT_DELIM
               = idName :: header_names stores idName)
    by (rewrite write_header_raw; by apply csv_line_raw_read_back).
  assert (H2 : parse_delim_line (trim_eol (write_row stores id)) OUTPUT_DELIM
               = row_fields stores id)
    by (rewrite write_row_raw; by apply csv_line_raw_read_back).
  split; [exact H1|]. split; [exact H2|]. rewrite H1, H2.
  unfold row_fields, header_names. cbn [length]. f_equal. symmetry.
  apply header_names_files_length. by eapply load_all_shape.
Qed.

Lemma output_columns_aligned_witness :
  parse_delim_line (trim_eol (write_header ex_stores_a "id")) OUTPUT_DELIM
  = "id" :: header_names ex_stores_a "id"
  /\ parse_delim_line (trim_eol (write_row ex_stores_a "1")) OUTPUT_DELIM
     = row_fields ex_stores_a "1"
  /\ length (parse_delim_line (trim_eol (write_row ex_stores_a "1")) OUTPUT_DELIM)
     = length (parse_delim_line (trim_eol (write_header ex_stores_a "id")) OUTPUT_DELIM).
Proof.
  apply (output_columns_aligned ex_world ["a.csv"] ex_stores_a "1" "id").
  - exact ex_stores_a_loaded.
  - match goal with
    | |- Forall _ ?l => let l' := eval vm_compute in l in change l with l'
    end.
    repeat (apply Forall_cons; split; [repeat split; reflexivity|]). apply Forall_nil_2.
  - match goal with
    | |- Forall _ ?l => let l' := eval vm_compute in l in change l with l'
    end.
    repeat (apply Forall_cons; split; [repeat split; reflexivity|]). apply Forall_nil_2.
Defined.

(** * One data line of code3.c: where its values go *)

Lemma fill_values_other_take (l2g : list nat) (fields : list string)
    (vals : list (option string)) (g : nat) :
  g ∉ take (length fields) l2g -> fill_values l2g fields vals !! g = vals !! g.
Proof.
  revert fields vals. induction l2g as [|g0 l2g IH]; intros [|f fields] vals Hg;
    try done.
  cbn [length take] in Hg. apply not_elem_of_cons in Hg as [Hne Hg].
  cbn [fill_values]. rewrite IH by done. by apply list_lookup_insert_ne.
Qed.

Lemma get_or_create_row_found (ht : HMap) (table : list AppRow) (no : string)
    (cc : nat) (e : Entry) :
  hmap_get ht no = Some e ->
  get_or_create_row ht table no cc = (ht, table, value e).
Proof.
  unfold hmap_get, get_or_create_row. by intros ->.
Qed.

(** X26. One data line of code3.c with a non-empty key, in a consistent
    state (header map without repeated columns, row count within [int]).
    Afterwards the table has a row for the key: the row that had this
    key, or, when no row had it, a new last row. This row has one slot
    per global column; a global column that the header map gives to a
    field of the line holds the text of that field; every other column -
    also a column of the header for which the line has no field - is as
    it was before (empty in a new row); and all other rows are
    untouched. *)
Theorem code3_row_stores (l2g : list nat) (st : MergeState) (raw no : string)
    (fields : list string) :
  code3_inv st ->
  parse_csv_line (chomp raw) = no :: fields ->
  no <> EmptyString ->
  NoDup (tail l2g) ->
  Z.of_nat (length (m_table (code3_row l2g st raw))) <= INT_MAX ->
  let st' := code3_row l2g st raw in
  exists (i : nat) (r' : AppRow) (old : list (option string)),
    m_table st' !! i = Some r'
    /\ appno r' = no
    /\ ((exists r, m_table st !! i = Some r /\ appno r = no /\ old = values r
                   /\ length (m_table st') = length (m_table st))
        \/ ((no ∉ map appno (m_table st)) /\ i = length (m_table st)
            /\ old = replicate (global_col_count st) None
            /\ length (m_table st') = S (length (m_table st))))
    /\ length (values r') = global_col_count st
    /\ (forall c g f,
          tail l2g !! c = Some g -> fields !! c = Some f ->
          (g < global_col_count st)%nat ->
          values r' !! g = Some (Some f))
    /\ (forall g, g ∉ take (length fields) (tail l2g) -> values r' !! g = old !! g)
    /\ (forall j r, j <> i -> m_table st !! j = Some r -> m_table st' !! j = Some r).
Proof.
  intros Hinv Hparse Hno Hnd.
  pose proof Hinv as (Hidx & Hgcc & _ & _ & _ & Hrows).
  unfold code3_row. rewrite Hparse.
  replace (str_is_empty no) with false by (by destruct no).
  pose proof (get_or_create_row_facts (m_ht st) (m_table st) no (global_col_count st) Hidx)
    as Hg.
  pose proof (get_or_create_row_found (m_ht st) (m_table st) no (global_col_count st))
    as Hfound.
  destruct (get_or_create_row (m_ht st) (m_table st) no (global_col_count st))
    as [[ht table] ri].
  cbn [fst snd m_table tail] in *.
  set (upd := fun r : AppRow =>
                mkAppRow (appno r)
                  (fill_values (tail l2g) fields
                     (resize (global_col_count st) None (values r)))).
  intros Hsmall.
  assert (Hlen : Z.of_nat (length table) <= INT_MAX).
  { destruct (ri <? 0); [done|]. by rewrite length_alter in Hsmall. }
  destruct (Hg Hlen) as (_ & Hri & Hlookup & Htable).
  replace (ri <? 0) with false by (symmetry; apply Z.ltb_ge; lia).
  rewrite list_lookup_fmap in Hlookup.
  destruct (table !! Z.to_nat ri) as [r0|] eqn:Er0; [|done].
  injection Hlookup as Hkey.
  assert (Hw0 : length (values r0) = global_col_count st).
  { destruct Htable as [->|[-> _]].
    - rewrite Hgcc. eapply (Forall_lookup_1 _ _ _ _ Hrows Er0).
    - apply lookup_app_Some in Er0 as [Er0|[_ Er0]].
      + rewrite Hgcc. eapply (Forall_lookup_1 _ _ _ _ Hrows Er0).
      + apply list_lookup_singleton_Some in Er0 as [_ <-]. apply length_replicate. }
  exists (Z.to_nat ri), (upd r0), (values r0).
  split; [by rewrite list_lookup_alter_eq, Er0|].
  split; [done|]. rewrite length_alter. split.
  { destruct Htable as [->|[-> Hnew]].
    - left. by exists r0.
    - right. rewrite Hnew, Nat2Z.id in *.
      rewrite lookup_app_r, Nat.sub_diag in Er0 by lia. injection Er0 as <-.
      split; [|split; [done|split; [done|rewrite length_app; cbn; lia]]].
      intros Hin. apply list_elem_of_lookup in Hin as [j Hj].
      destruct Hidx as (_ & _ & _ & Hkeys).
      destruct (Hkeys j no Hj) as (e & He & _).
      specialize (Hfound e He). injection Hfound as _ Ht _.
      apply (f_equal length) in Ht. rewrite length_app in Ht. cbn in Ht. lia. }
  split; [cbn [upd values]; by rewrite fill_values_length, length_resize|].
  split.
  { intros c g f Hc Hf Hlt. cbn [upd values].
    apply (fill_values_put _ _ _ c); try done. by rewrite length_resize. }
  split.
  { intros g Hg'. cbn [upd values]. rewrite fill_values_other_take by done.
    by rewrite resize_all_alt. }
  intros j r Hj Hr. rewrite list_lookup_alter_ne by done.
  destruct Htable as [->|[-> _]]; [done|]. by apply lookup_app_l_Some.
Qed.

Lemma code3_row_stores_witness :
  let st := code3_ingest ex_world ["a.csv"; "b.csv"] merge_state_init in
  let st' := code3_row [0%nat; 1%nat; 2%nat] st ("1,new" +:+ nl) in
  exists (i : nat) (r' : AppRow) (old : list (option string)),
    m_table st' !! i = Some r'
    /\ appno r' = "1"
    /\ ((exists r, m_table st !! i = Some r /\ appno r = "1" /\ old = values r
                   /\ length (m_table st') = length (m_table st))
        \/ (("1" ∉ map appno (m_table st)) /\ i = length (m_table st)
            /\ old = replicate (global_col_count st) None
            /\ length (m_table st') = S (length (m_table st))))
    /\ length (values r') = global_col_count st
    /\ (forall c g f,
          tail [0%nat; 1%nat; 2%nat] !! c = Some g -> ["new"] !! c = Some f ->
          (g < global_col_count st)%nat ->
          values r' !! g = Some (Some f))
    /\ (forall g, g ∉ take (length ["new"]) (tail [0%nat; 1%nat; 2%nat]) ->
          values r' !! g = old !! g)
    /\ (forall j r, j <> i -> m_table st !! j = Some r -> m_table st' !! j = Some r).
Proof.
  apply (code3_row_stores [0%nat; 1%nat; 2%nat]
           (code3_ingest ex_world ["a.csv"; "b.csv"] merge_state_init)
           ("1,new" +:+ nl) "1" ["new"]).
  - apply code3_ingest_inv; [apply merge_state_init_inv|]. vm_compute. discriminate.
  - reflexivity.
  - discriminate.
  - change (NoDup [1%nat; 2%nat]). apply NoDup_cons.
    split; [by intros [=]%list_elem_of_singleton|apply NoDup_singleton].
  - vm_compute. discriminate.
Defined.
